(** * NDI tracker test harness: codec, motion model, scheduler, renderer

    A shallow embedding of the simulation and replay code of the
    repository, and the properties of its specification checked against it.

    - Python [str] values are lists of characters ([str]).
    - Python [int] values are unbounded, hence [Z].
    - Python [float] values are idealised as real numbers ([R]); the clock and
      the random generator are oracles read through a small state monad.
    - [dict] and [set] are stdpp's [gmap] and [gset]; strings that are only
      compared, the key names and the motion types, are [string]. *)

From Stdlib Require Import ZArith List Ascii String Lia Reals Lra.
From stdpp Require Import gmap strings.
Import ListNotations.

Open Scope Z_scope.

(** ** Strings *)

Definition str := list ascii.

(** A string literal of the source. *)
Definition lit (s : string) : str := list_ascii_of_string s.

(** [sep.join(chunks)] *)
Fixpoint join (sep : str) (chunks : list str) : str :=
  match chunks with
  | [] => []
  | [c] => c
  | c :: rest => c ++ sep ++ join sep rest
  end.

(** ** Decimal rendering of integers *)

Definition digit_char (d : Z) : ascii := ascii_of_nat (48 + Z.to_nat d).

(** The decimal digits of a non-negative integer, most significant first;
    [fuel] bounds the number of digits produced. *)
Fixpoint digits_msd (fuel : nat) (n : Z) : str :=
  match fuel with
  | O => []
  | S f =>
      if n <? 10 then [digit_char n]
      else digits_msd f (n / 10) ++ [digit_char (n mod 10)]
  end.

(** [str(n)] for [0 <= n]: a number has no more decimal digits than bits. *)
Definition decimal (n : Z) : str := digits_msd (S (Z.to_nat (Z.log2 n))) n.

(** [f"{s:>{width}}"]: right-justify in a field of [width], filling with
    blanks, which is what the format specification [{width}d] does. *)
Definition rjust (width : nat) (s : str) : str :=
  repeat " "%char (width - length s) ++ s.

(** ** Encoding: src/virtual_spheres.py *)

(** [format_coord(n, width=6, sign=True)] *)
Definition format_coord (n : Z) (width : nat) (sign : bool) : str :=
  let s := rjust width (decimal (Z.abs n)) in
  if sign then (if 0 <=? n then "+"%char else "-"%char) :: s else s.

(** [_num(n, width=6, sign=True)] of src/improved_fake_data.py and
    src/sim_runner.py, on the integers its callers pass ([int(n)] is [n]). *)
Definition _num (n : Z) (width : nat) (sign : bool) : str :=
  let s := rjust width (decimal (Z.abs n)) in
  if sign then (if 0 <=? n then "+"%char else "-"%char) :: s else s.

(** The envelope built from the chunks, the last line of
    [generate_tx_response], [make_fake_tx_string] and
    [make_dynamic_tx_string]. *)
Definition tx_envelope (chunks : list str) : str :=
  lit "TXRESP|OK|" ++ join (lit "|") chunks ++ lit "|END".

(** [for x, y, z in positions: coords.extend([x, y, z])] *)
Definition flatten_positions (positions : list (Z * Z * Z)) : list Z :=
  flat_map (fun '(x, y, z) => [x; y; z]) positions.

(** The body of [generate_tx_response] after the positions were read. *)
Definition tx_response_of (positions : list (Z * Z * Z)) : str :=
  let coords := flatten_positions positions in
  let chunks := map (fun c => format_coord c 6 true) coords in
  tx_envelope chunks.

(** ** Decoding: the reader script (src/unnamed/part_000) *)

(** [c in "+-"] for a one-character string [c]. *)
Definition in_sign (c : ascii) : bool :=
  (Ascii.eqb c "+" || Ascii.eqb c "-")%bool.

(** [str_coord[:5] + "." + str_coord[5:]] *)
Definition insert_point (str_coord : str) : str :=
  firstn 5 str_coord ++ lit "." ++ skipn 5 str_coord.

(** The [while len(str_input) > 0] loop of [TX0008_pos_str_to_list]; each
    round consumes one unit of [fuel], and [None] says the fuel ran out
    before the input did. *)
Fixpoint TX0008_loop (fuel : nat) (str_input : str) (len_digit : nat)
    (list_position : list str) : option (list str) :=
  match str_input with
  | [] => Some list_position
  | c :: _ =>
      match fuel with
      | O => None
      | S f =>
          if in_sign c then
            let str_coord := firstn (len_digit + 1) str_input in
            let str_coord_point := insert_point str_coord in
            TX0008_loop f (skipn (len_digit + 1) str_input) len_digit
              (list_position ++ [str_coord_point])
          else
            TX0008_loop f (skipn 1 str_input) len_digit list_position
      end
  end.

(** [TX0008_pos_str_to_list(str_input, len_digit)]; every round removes at
    least one character, so the length of the input is enough fuel. *)
Definition TX0008_pos_str_to_list (str_input : str) (len_digit : nat)
    : option (list str) :=
  TX0008_loop (length str_input) str_input len_digit [].

Definition NUM_DIGIT : nat := 6.
Definition NUM_DIMEN : nat := 3.

(** ** The clock and the random generator *)

(** What the code reads from outside: the successive values of
    [time.time()] and of [random.random()], and how many of each were
    already read. *)
Record world := {
  time_source : nat -> R;
  clock_reads : nat;
  random_source : nat -> R;
  random_draws : nat
}.

(** A computation that reads the clock or draws random numbers. *)
Definition M (A : Type) : Type := world -> A * world.

Definition ret {A} (a : A) : M A := fun w => (a, w).

Definition bind {A B} (c : M A) (k : A -> M B) : M B :=
  fun w => let (a, w') := c w in k a w'.

Notation "x <- c ;; k" := (bind c (fun x => k))
  (at level 100, c at next level, right associativity).

(** [time.time()] *)
Definition time_time : M R := fun w =>
  (time_source w (clock_reads w),
   {| time_source := time_source w; clock_reads := S (clock_reads w);
      random_source := random_source w; random_draws := random_draws w |}).

(** [random.random()] *)
Definition random_random : M R := fun w =>
  (random_source w (random_draws w),
   {| time_source := time_source w; clock_reads := clock_reads w;
      random_source := random_source w; random_draws := S (random_draws w) |}).

(** [random.uniform(a, b)], which is [a + (b - a) * random()]. *)
Definition random_uniform (a b : R) : M R :=
  u <- random_random ;; ret (a + (b - a) * u)%R.

(** [[f(x) for x in xs]] for an effectful [f], left to right. *)
Fixpoint mapM {A B} (f : A -> M B) (xs : list A) : M (list B) :=
  match xs with
  | [] => ret []
  | x :: rest => y <- f x ;; ys <- mapM f rest ;; ret (y :: ys)
  end.

(** [int(r)] on a float: truncation toward zero. *)
Definition int_of_float (r : R) : Z :=
  if Rle_dec 0 r then Zfloor r else Zceil r.

(** ** Motion model and simulator: src/virtual_spheres.py *)

Record SphereConfig := {
  center : R * R * R;
  motion_type : string;
  amplitude : R;
  frequency : R;
  phase : R;
  noise : R
}.

Record VirtualSphere := {
  config : SphereConfig;
  start_time : R
}.

(** [VirtualSphere.__init__] *)
Definition VirtualSphere_init (cfg : SphereConfig) : M VirtualSphere :=
  now <- time_time ;; ret {| config := cfg; start_time := now |}.

(** The [if]/[elif] chain of [VirtualSphere.get_position]: the offset
    [(dx, dy, dz)] at elapsed time [t]. *)
Definition position_offset (cfg : SphereConfig) (t : R) : M (R * R * R) :=
  if String.eqb (motion_type cfg) "static" then
    ret (0, 0, 0)%R
  else if String.eqb (motion_type cfg) "circle_xy" then
    let angle := (t * frequency cfg + phase cfg)%R in
    ret (amplitude cfg * cos angle, amplitude cfg * sin angle, 0)%R
  else if String.eqb (motion_type cfg) "circle_xz" then
    let angle := (t * frequency cfg + phase cfg)%R in
    ret (amplitude cfg * cos angle, 0, amplitude cfg * sin angle)%R
  else if String.eqb (motion_type cfg) "wave_x" then
    ret (amplitude cfg * sin (t * frequency cfg + phase cfg), 0, 0)%R
  else if String.eqb (motion_type cfg) "wave_xyz" then
    ret (amplitude cfg * sin (t * frequency cfg + phase cfg),
         amplitude cfg * sin (t * frequency cfg * (13 / 10) + phase cfg),
         amplitude cfg * sin (t * frequency cfg * (7 / 10) + phase cfg))%R
  else if String.eqb (motion_type cfg) "spiral" then
    let angle := (t * frequency cfg + phase cfg)%R in
    let r := (amplitude cfg * (1 + (1 / 10) * t))%R in
    ret (r * cos angle, r * sin angle,
         amplitude cfg * (1 / 2) * sin (t * (1 / 2)))%R
  else if String.eqb (motion_type cfg) "random_walk" then
    dx <- random_uniform (- amplitude cfg) (amplitude cfg) ;;
    dy <- random_uniform (- amplitude cfg) (amplitude cfg) ;;
    dz <- random_uniform (- amplitude cfg * (3 / 10))
                         (amplitude cfg * (3 / 10)) ;;
    ret (dx, dy, dz)
  else
    ret (0, 0, 0)%R.

(** [VirtualSphere.get_position], its floats taken as real numbers and its
    operations as exact; [binary64.get_position] below is the same function
    with every operation rounded. *)
Definition get_position (sphere : VirtualSphere) : M (Z * Z * Z) :=
  now <- time_time ;;
  let t := (now - start_time sphere)%R in
  let '(x, y, z) := center (config sphere) in
  d <- position_offset (config sphere) t ;;
  let '(dx, dy, dz) := d in
  let noise_draw :=
    random_uniform (- noise (config sphere)) (noise (config sphere)) in
  nx <- noise_draw ;;
  ny <- noise_draw ;;
  nz <- noise_draw ;;
  ret (int_of_float (x + dx + nx), int_of_float (y + dy + ny),
       int_of_float (z + dz + nz)).

Record SphereSimulator := { spheres : list VirtualSphere }.

(** [SphereSimulator.__init__] *)
Definition SphereSimulator_init : SphereSimulator := {| spheres := [] |}.

(** [SphereSimulator.add_sphere] *)
Definition add_sphere (cfg : SphereConfig) (sim : SphereSimulator)
    : M SphereSimulator :=
  s <- VirtualSphere_init cfg ;; ret {| spheres := spheres sim ++ [s] |}.

(** [SphereSimulator.get_all_positions] *)
Definition get_all_positions (sim : SphereSimulator) : M (list (Z * Z * Z)) :=
  mapM get_position (spheres sim).

(** [SphereSimulator.clear] *)
Definition clear (sim : SphereSimulator) : SphereSimulator :=
  {| spheres := [] |}.

(** [generate_tx_response] *)
Definition generate_tx_response (sim : SphereSimulator) : M str :=
  positions <- get_all_positions sim ;; ret (tx_response_of positions).

(** Adding the configurations of a list one after the other. *)
Fixpoint add_spheres (cfgs : list SphereConfig) (sim : SphereSimulator)
    : M SphereSimulator :=
  match cfgs with
  | [] => ret sim
  | cfg :: rest => sim' <- add_sphere cfg sim ;; add_spheres rest sim'
  end.

(** ** Terminal control sequences *)

Definition ESC : ascii := ascii_of_nat 27.
Definition NL : ascii := ascii_of_nat 10.

(** ['\033[H'], ['\033[K'] and ['\033[K\n'] *)
Definition CURSOR_HOME : str := ESC :: lit "[H".
Definition CLEAR_EOL : str := ESC :: lit "[K".
Definition CLEAR_EOL_NL : str := ESC :: lit "[K" ++ [NL].

(** The writes of the [for line in lines] loop of [SmoothDisplay.update]. *)
Definition write_lines (lines : list str) : list str :=
  flat_map (fun line => [CLEAR_EOL; line ++ [NL]]) lines.

(** ** The reader script: src/unnamed/part_000 *)

Module reader.

Record SmoothDisplay := { last_lines : list str }.

Definition SmoothDisplay_init : SmoothDisplay := {| last_lines := [] |}.

(** [SmoothDisplay.update]: the strings passed to [sys.stdout.write], in
    order, and the display afterwards. *)
Definition update (lines : list str) (d : SmoothDisplay)
    : list str * SmoothDisplay :=
  let out := [CURSOR_HOME] ++ write_lines lines in
  let out :=
    if (length lines <? length (last_lines d))%nat
    then out ++ repeat CLEAR_EOL_NL (length (last_lines d) - length lines)
    else out in
  (out, {| last_lines := lines |}).

End reader.

(** ** The test runner: src/sim_runner.py *)

Module sim_runner.

Record SmoothDisplay := { last_lines : list str; enabled : bool }.

Definition SmoothDisplay_init : SmoothDisplay :=
  {| last_lines := []; enabled := true |}.

(** [SmoothDisplay.clear_and_reset], on the display's own state. *)
Definition clear_and_reset (d : SmoothDisplay) : SmoothDisplay :=
  {| last_lines := []; enabled := enabled d |}.

(** [SmoothDisplay.update] *)
Definition update (lines : list str) (d : SmoothDisplay)
    : list str * SmoothDisplay :=
  if negb (enabled d) then ([], d)
  else
    let out := [CURSOR_HOME] ++ write_lines lines in
    let out :=
      if (length lines <? length (last_lines d))%nat
      then out ++ repeat CLEAR_EOL_NL (length (last_lines d) - length lines)
      else out in
    (out, {| last_lines := lines; enabled := enabled d |}).

(** The displays the program can have: [enabled] is set by [__init__] and
    written nowhere else. *)
Inductive display_reachable : SmoothDisplay -> Prop :=
| reach_init : display_reachable SmoothDisplay_init
| reach_reset d : display_reachable d -> display_reachable (clear_and_reset d)
| reach_update lines d :
    display_reachable d -> display_reachable (snd (update lines d)).

Record _KeyboardMock := {
  schedule : gmap Z string;
  tick : Z;
  _fired : gset Z;
  _history : list (Z * string)
}.

(** [_KeyboardMock.__init__] *)
Definition _KeyboardMock_init (sched : gmap Z string) : _KeyboardMock :=
  {| schedule := sched; tick := 0; _fired := ∅; _history := [] |}.

(** [_KeyboardMock.is_pressed] *)
Definition is_pressed (key : string) (m : _KeyboardMock)
    : bool * _KeyboardMock :=
  let want := schedule m !! tick m in
  if bool_decide (want = Some key) && bool_decide (tick m ∉ _fired m) then
    (true, {| schedule := schedule m; tick := tick m;
              _fired := {[tick m]} ∪ _fired m;
              _history := _history m ++ [(tick m, key)] |})
  else (false, m).

(** [mock.tick += 1], the effect of one round of [_ticker] and of one call
    of the patched [_sleep]. *)
Definition advance (m : _KeyboardMock) : _KeyboardMock :=
  {| schedule := schedule m; tick := tick m + 1;
     _fired := _fired m; _history := _history m |}.

(** A run of queries with no advance of the tick in between. *)
Fixpoint queries (keys : list string) (m : _KeyboardMock)
    : list bool * _KeyboardMock :=
  match keys with
  | [] => ([], m)
  | key :: rest =>
      let (b, m') := is_pressed key m in
      let (bs, m'') := queries rest m' in
      (b :: bs, m'')
  end.

End sim_runner.

(** ** The flexible runner: src/sim_runner_flexible.py *)

Module sim_runner_flexible.

Record _KeyboardMock := {
  schedule : gmap Z string;
  tick : Z;
  _fired : gset Z
}.

Definition _KeyboardMock_init (sched : gmap Z string) : _KeyboardMock :=
  {| schedule := sched; tick := 0; _fired := ∅ |}.

(** [_KeyboardMock.is_pressed] *)
Definition is_pressed (key : string) (m : _KeyboardMock)
    : bool * _KeyboardMock :=
  let want := schedule m !! tick m in
  if bool_decide (want = Some key) && bool_decide (tick m ∉ _fired m) then
    (true, {| schedule := schedule m; tick := tick m;
              _fired := {[tick m]} ∪ _fired m |})
  else (false, m).

Definition advance (m : _KeyboardMock) : _KeyboardMock :=
  {| schedule := schedule m; tick := tick m + 1; _fired := _fired m |}.

Fixpoint queries (keys : list string) (m : _KeyboardMock)
    : list bool * _KeyboardMock :=
  match keys with
  | [] => ([], m)
  | key :: rest =>
      let (b, m') := is_pressed key m in
      let (bs, m'') := queries rest m' in
      (b :: bs, m'')
  end.

End sim_runner_flexible.

(** ** Threads of src/sim_runner.py and their accesses to the mock *)

Module threads.

(** What a thread does to the shared scheduler state, one step at a time:
    [with mock._lock] is [Acquire] ... [Release]; [mock.tick += 1] loads
    the tick and then stores the loaded value plus one. *)
Inductive access :=
| Acquire | Release
| LoadTick | StoreTick
| LoadFired | StoreFired
| Wait.

(** [_KeyboardMock.is_pressed]; [matches] says whether [want == key], and
    [fires] whether the tick had not fired yet, so that the query answers
    [True]. *)
Definition is_pressed_accesses (matches fires : bool) : list access :=
  [Acquire; LoadTick]
  ++ (if matches
      then [LoadTick; LoadFired]
           ++ (if fires then [LoadTick; StoreFired; LoadTick] else [])
      else [])
  ++ [Release].

(** The original [time.sleep]. *)
Definition _real_sleep_accesses : list access := [Wait].

(** The patched [_sleep]: [keyboard_mock.tick += 1; _real_sleep(dt)]. *)
Definition _sleep_accesses : list access :=
  [LoadTick; StoreTick] ++ _real_sleep_accesses.

(** One round of [_ticker], given what [_time.sleep] does. *)
Definition _ticker_accesses (sleep : list access) : list access :=
  sleep ++ [Acquire; LoadTick; StoreTick; Release].

Definition touches_shared (a : access) : bool :=
  match a with
  | LoadTick | StoreTick | LoadFired | StoreFired => true
  | _ => false
  end.

(** Every access to the shared state happens with the lock held. *)
Fixpoint guarded (held : bool) (code : list access) : bool :=
  match code with
  | [] => true
  | Acquire :: rest => guarded true rest
  | Release :: rest => guarded false rest
  | a :: rest => (negb (touches_shared a) || held) && guarded held rest
  end.

Record thread := { code : list access; loaded : Z }.

Record machine := {
  shared_tick : Z;
  lock_owner : option nat;
  pool : list thread
}.

(** Thread [i] runs its next access; [None] when it is blocked on the
    lock, has finished or does not exist. *)
Definition step (i : nat) (m : machine) : option machine :=
  match pool m !! i with
  | Some {| code := a :: rest; loaded := r |} =>
      let done_with r' :=
        <[i := {| code := rest; loaded := r' |}]> (pool m) in
      match a with
      | Acquire =>
          match lock_owner m with
          | None => Some {| shared_tick := shared_tick m;
                            lock_owner := Some i; pool := done_with r |}
          | Some _ => None
          end
      | Release =>
          Some {| shared_tick := shared_tick m; lock_owner := None;
                  pool := done_with r |}
      | LoadTick =>
          Some {| shared_tick := shared_tick m; lock_owner := lock_owner m;
                  pool := done_with (shared_tick m) |}
      | StoreTick =>
          Some {| shared_tick := r + 1; lock_owner := lock_owner m;
                  pool := done_with r |}
      | _ =>
          Some {| shared_tick := shared_tick m; lock_owner := lock_owner m;
                  pool := done_with r |}
      end
  | _ => None
  end.

(** The threads take steps in the order of [order]. *)
Fixpoint run (order : list nat) (m : machine) : option machine :=
  match order with
  | [] => Some m
  | i :: rest =>
      match step i m with
      | Some m' => run rest m'
      | None => None
      end
  end.

Definition start (tick0 : Z) (codes : list (list access)) : machine :=
  {| shared_tick := tick0; lock_owner := None;
     pool := map (fun c => {| code := c; loaded := 0 |}) codes |}.

Definition finished (m : machine) : bool :=
  forallb (fun t => match code t with [] => true | _ => false end) (pool m).

End threads.

(** ** Reading tokens back *)

(** A token as the specification words it: the sign, then the absolute
    value padded with zeros to [N] digits. *)
Definition zero_padded_token (n : Z) (N : nat) : str :=
  let d := decimal (Z.abs n) in
  (if 0 <=? n then "+"%char else "-"%char) :: repeat "0"%char (N - length d) ++ d.

Definition is_digit (c : ascii) : bool :=
  ((48 <=? nat_of_ascii c) && (nat_of_ascii c <=? 57))%nat.

(** The number written by the digits of a string, other characters ignored. *)
Definition digits_number (s : str) : Z :=
  fold_left
    (fun acc c => if is_digit c then acc * 10 + (Z.of_nat (nat_of_ascii c) - 48)
                  else acc)
    s 0.

(** The integer a token stands for: its digits, negated under a ["-"]. *)
Definition token_integer (tok : str) : Z :=
  match tok with
  | c :: rest => if Ascii.eqb c "-" then - digits_number rest else digits_number rest
  | [] => 0
  end.

(** A decoded token without its decimal point. *)
Definition remove_point (tok : str) : str :=
  List.filter (fun c => negb (Ascii.eqb c ".")) tok.

(** [abs(n)] needs no more than [N] digits. *)
Definition fits (N : nat) (n : Z) : Prop := Z.abs n < 10 ^ Z.of_nat N.

(** The static target of the specification's example. *)
Definition example_target (a f p : R) : SphereConfig :=
  {| center := (100000, -200000, 50000)%R; motion_type := "static";
     amplitude := a; frequency := f; phase := p; noise := 0%R |}.


(** A target that stands still at [c], without noise:
    [SphereConfig(c, "static", noise=0)]. *)
Definition still_target (c : Z * Z * Z) : SphereConfig :=
  let '(a, b, c) := c in
  {| center := (IZR a, IZR b, IZR c); motion_type := "static";
     amplitude := 5000%R; frequency := (1 / 2)%R; phase := 0%R;
     noise := 0%R |}.

(** The configuration built by [test_virtual_spheres] of src/quick_test.py:
    [SphereConfig((0, 0, 0), mode, 100000, 0.5, 0)], noise left at 100. *)
Definition quick_test_config (mode : string) : SphereConfig :=
  {| center := (0, 0, 0)%R; motion_type := mode; amplitude := 100000%R;
     frequency := (1 / 2)%R; phase := 0%R; noise := 100%R |}.

(** How many queries of a run returned [True]. *)
Definition fired_count (answers : list bool) : nat :=
  length (List.filter (fun b => b) answers).

(** [n] rounds of the ticker. *)
Definition advance_n (n : nat) (m : sim_runner._KeyboardMock)
    : sim_runner._KeyboardMock :=
  Nat.iter n sim_runner.advance m.

Definition advance_n_flexible (n : nat) (m : sim_runner_flexible._KeyboardMock)
    : sim_runner_flexible._KeyboardMock :=
  Nat.iter n sim_runner_flexible.advance m.

(** The scheduler of the specification's example, [{5: 'c'}], once the
    ticker made five rounds. *)
Definition example_mock : sim_runner._KeyboardMock :=
  advance_n 5 (sim_runner._KeyboardMock_init {[ 5 := "c"%string ]}).

Definition example_mock_flexible : sim_runner_flexible._KeyboardMock :=
  advance_n_flexible 5
    (sim_runner_flexible._KeyboardMock_init {[ 5 := "c"%string ]}).

(** Every order in which two threads can take [n] steps. *)
Fixpoint two_thread_orders (n : nat) : list (list nat) :=
  match n with
  | O => [[]]
  | S n' =>
      flat_map (fun order => [0%nat :: order; 1%nat :: order])
               (two_thread_orders n')
  end.

(** Of the complete runs of two threads from tick 0, in the orders of
    [orders], the final ticks. *)
Definition final_ticks (codes : list (list threads.access))
    (orders : list (list nat)) : list Z :=
  flat_map
    (fun order =>
       match threads.run order (threads.start 0 codes) with
       | Some m => if threads.finished m then [threads.shared_tick m] else []
       | None => []
       end)
    orders.

(** The scheduler states a run reaches when every access to the scheduler
    is made with the lock held, as when [time.sleep] is not patched
    ([PATCH_TIME_SLEEP = False]): a round of the ticker advances the tick by
    one, the reader queries keys, and a query sees one value of the tick.
    The patched [_sleep] writes the tick without the lock; the runs with it
    are those of [patched.run] below, which reach other states. *)
Inductive mock_reachable (sched : gmap Z string)
    : sim_runner._KeyboardMock -> Prop :=
| mock_init : mock_reachable sched (sim_runner._KeyboardMock_init sched)
| mock_advance m :
    mock_reachable sched m -> mock_reachable sched (sim_runner.advance m)
| mock_query key m :
    mock_reachable sched m ->
    mock_reachable sched (snd (sim_runner.is_pressed key m)).

(** * Further components *)

(** ** Codec *)

(** How many characters of a string are signs. *)
Definition count_signs (s : str) : nat := length (List.filter in_sign s).

(** What the decoder keeps of an encoded token: its first [N + 1]
    characters, with the decimal point put in. *)
Definition decoded_token (N : nat) (v : Z) : str :=
  insert_point (firstn (S N) (format_coord v N true)).

(** The shape of a decoded token. *)
Definition token_shape (n : nat) (tok : str) : Prop :=
  (exists c t, tok = c :: t /\ in_sign c = true)
  /\ (2 <= length tok <= n + 2)%nat
  /\ In "."%char tok.

(** ** Exceptions *)

(** The exceptions the modelled code can raise, and the outcome of a call
    that returns or raises. *)
Inductive exception :=
| IndexError
| TypeError (unexpected_keyword : string)
| ValueError.

Inductive outcome (A : Type) :=
| Returns (a : A)
| Raises (e : exception).

Arguments Returns {A} a.
Arguments Raises {A} e.

(** ** The main loop of the reader: src/unnamed/part_000 *)

(** [s.startswith(prefix)] *)
Fixpoint startswith (s prefix : str) : bool :=
  match prefix with
  | [] => true
  | p :: ps =>
      match s with
      | [] => false
      | c :: cs => Ascii.eqb c p && startswith cs ps
      end
  end.

(** [s * k] on a string *)
Definition str_mul (s : str) (k : nat) : str := concat (repeat s k).

Module reader_main.

Definition BUTTON_REC : string := "c".
Definition BUTTON_EXPORT : string := "e".

(** [class Sphere] *)
Record Sphere := { x : str; y : str; z : str }.

(** [Sphere.__init__]: [pos_list[0]], [pos_list[1]] and [pos_list[2]], each
    of which raises [IndexError] on a list too short. *)
Definition Sphere_init (pos_list : list str) : outcome Sphere :=
  match pos_list !! 0%nat with
  | None => Raises IndexError
  | Some a =>
      match pos_list !! 1%nat with
      | None => Raises IndexError
      | Some b =>
          match pos_list !! 2%nat with
          | None => Raises IndexError
          | Some c => Returns {| x := a; y := b; z := c |}
          end
      end
  end.

(** The [while len(pos_list) > 0] loop that builds [list_sphere]; [None]
    says the fuel ran out before the list did. *)
Fixpoint build_spheres (fuel : nat) (pos_list : list str)
    (list_sphere : list Sphere) : option (outcome (list Sphere)) :=
  match pos_list with
  | [] => Some (Returns list_sphere)
  | _ :: _ =>
      match fuel with
      | O => None
      | S f =>
          match Sphere_init (firstn NUM_DIMEN pos_list) with
          | Raises e => Some (Raises e)
          | Returns s =>
              build_spheres f (skipn NUM_DIMEN pos_list) (list_sphere ++ [s])
          end
      end
  end.

(** What one round of the main loop makes of a reply: [None] for a reply
    it skips ([continue]), else the spheres. Every round of the inner loop
    removes at least one token, so the number of tokens is enough fuel. *)
Definition frame_spheres (TX0008_pos_str : str)
    : option (outcome (option (list Sphere))) :=
  match TX0008_pos_str_to_list TX0008_pos_str NUM_DIGIT with
  | None => None
  | Some pos_list =>
      if negb (length pos_list mod NUM_DIMEN =? 0)%nat then
        Some (Returns None)
      else
        match build_spheres (length pos_list) pos_list [] with
        | None => None
        | Some (Raises e) => Some (Raises e)
        | Some (Returns list_sphere) => Some (Returns (Some list_sphere))
        end
  end.

(** [f"    X: {sphere.x:>12s}  Y: {sphere.y:>12s}  Z: {sphere.z:>12s}"] *)
Definition coordinate_line (sphere : Sphere) : str :=
  lit "    X: " ++ rjust 12 (x sphere) ++ lit "  Y: " ++ rjust 12 (y sphere)
    ++ lit "  Z: " ++ rjust 12 (z sphere).

(** The two lines [format_sphere_display] appends for each sphere, numbered
    from [idx] on ([enumerate(sphere_list, 1)]). *)
Fixpoint sphere_lines (idx : nat) (sphere_list : list Sphere) : list str :=
  match sphere_list with
  | [] => []
  | sphere :: rest =>
      [lit "  Sphere " ++ decimal (Z.of_nat idx) ++ lit ":";
       coordinate_line sphere]
      ++ sphere_lines (S idx) rest
  end.

(** [format_sphere_display(sphere_list, picked_count)]; the characters
    outside ASCII stand as their UTF-8 bytes. *)
Definition format_sphere_display (sphere_list : list Sphere)
    (picked_count : nat) : list str :=
  [lit "╔" ++ str_mul (lit "═") 58 ++ lit "╗";
   lit "║" ++ str_mul (lit " ") 15 ++ lit "NDI Transformation Reader"
     ++ str_mul (lit " ") 18 ++ lit "║";
   lit "╚" ++ str_mul (lit "═") 58 ++ lit "╝";
   lit "";
   lit "操作: 按 '" ++ lit BUTTON_REC ++ lit "' 記錄座標 | 按 '"
     ++ lit BUTTON_EXPORT ++ lit "' 匯出並結束";
   lit "已記錄: " ++ decimal (Z.of_nat picked_count) ++ lit " 筆座標";
   str_mul (lit "─") 60;
   lit "";
   lit "【 當前座標 】"]
  ++ sphere_lines 1 sphere_list
  ++ [lit ""; str_mul (lit "─") 60].

End reader_main.

(** ** The tracker of the flexible runner: src/sim_runner_flexible.py *)

(** [ndiCommand(device, cmd)] as the runner installs it, over its simulator
    [sphere_sim]; the device is not looked at. *)
Definition ndiCommand (sphere_sim : SphereSimulator) (cmd : str) : M str :=
  if startswith cmd (lit "TX:") then generate_tx_response sphere_sim
  else ret (lit "OK").

(** The three tokens of a decoded position. *)
Definition position_sphere (p : Z * Z * Z) : reader_main.Sphere :=
  let '(a, b, c) := p in
  {| reader_main.x := decoded_token NUM_DIGIT a;
     reader_main.y := decoded_token NUM_DIGIT b;
     reader_main.z := decoded_token NUM_DIGIT c |}.

(** The tokens of a list of spheres, in order. *)
Definition sphere_tokens (l : list reader_main.Sphere) : list str :=
  flat_map (fun s => [reader_main.x s; reader_main.y s; reader_main.z s]) l.

(** ** Presets of the simulator: src/virtual_spheres.py *)






(** Every value [random.random()] will return lies in [[0, 1]]. *)
Definition unit_draws (w : world) : Prop :=
  forall k, (0 <= random_source w k <= 1)%R.


(** The three coordinates of a position fit [N] digits. *)
Definition position_fits (N : nat) (p : Z * Z * Z) : Prop :=
  let '(a, b, c) := p in fits N a /\ fits N b /\ fits N c.

(** A clock that stands still and a random generator that always returns
    the same number. *)
Definition constant_world (now u : R) : world :=
  {| time_source := fun _ => now; clock_reads := 0;
     random_source := fun _ => u; random_draws := 0 |}.

(** ** Runs of the scheduler of src/sim_runner.py *)

(** [get_history()]: a copy of the history. *)
Definition get_history (m : sim_runner._KeyboardMock) : list (Z * string) :=
  sim_runner._history m.

(** What follows a state of the scheduler when every access is made with
    the lock held ([time.sleep] not patched): rounds of the ticker, and
    queries. *)
Inductive mock_steps (m : sim_runner._KeyboardMock)
    : sim_runner._KeyboardMock -> Prop :=
| steps_none : mock_steps m m
| steps_advance m' :
    mock_steps m m' -> mock_steps m (sim_runner.advance m')
| steps_query key m' :
    mock_steps m m' -> mock_steps m (snd (sim_runner.is_pressed key m')).

(** The same for the scheduler of src/sim_runner_flexible.py, which
    patches nothing: its ticker and its queries all take the lock. *)
Inductive flexible_steps (m : sim_runner_flexible._KeyboardMock)
    : sim_runner_flexible._KeyboardMock -> Prop :=
| flexible_none : flexible_steps m m
| flexible_advance m' :
    flexible_steps m m' -> flexible_steps m (sim_runner_flexible.advance m')
| flexible_query key m' :
    flexible_steps m m' ->
    flexible_steps m (snd (sim_runner_flexible.is_pressed key m')).

(** Strictly increasing. *)
Fixpoint increasing (l : list Z) : Prop :=
  match l with
  | [] => True
  | a :: rest =>
      match rest with
      | [] => True
      | b :: _ => a < b /\ increasing rest
      end
  end.

(** ** The ticker thread over several rounds *)

(** [n] rounds of the [while True] loop of [_ticker]. *)
Definition ticker_rounds (sleep : list threads.access) (n : nat)
    : list threads.access :=
  concat (repeat (threads._ticker_accesses sleep) n).

(** A machine with one thread, which holds no lock. *)
Definition alone (tick0 r : Z) (c : list threads.access) : threads.machine :=
  {| threads.shared_tick := tick0; threads.lock_owner := None;
     threads.pool := [{| threads.code := c; threads.loaded := r |}] |}.

(** ** Scenarios: src/config_manager_simple.py and src/run_from_config.py *)

Module config_manager_simple.

(** [@dataclass SphereConfigData] *)
Record SphereConfigData := {
  name : str;
  center : R * R * R;
  motion_type : string;
  amplitude : R;
  frequency : R;
  phase : R;
  noise_level : R
}.

(** [@dataclass TestScenario] *)
Record TestScenario := {
  scenario_name : str;
  description : str;
  axis_range : Z;
  spheres : list SphereConfigData;
  keyboard_schedule : gmap Z string
}.

End config_manager_simple.

(** A call of [SphereConfig] by keywords, the [__init__] that [@dataclass]
    generates: [center] has no default, the other five parameters have one;
    [others] are the keywords of the call that are no parameter, the first of
    which raises [TypeError], as does a call without [center]. *)
Definition SphereConfig_call (center_arg : option (R * R * R))
    (motion_type_arg : option string)
    (amplitude_arg frequency_arg phase_arg noise_arg : option R)
    (others : list string) : outcome SphereConfig :=
  match others with
  | k :: _ => Raises (TypeError k)
  | [] =>
      match center_arg with
      | None => Raises (TypeError "center")
      | Some c =>
          Returns
            {| center := c;
               motion_type := default "static"%string motion_type_arg;
               amplitude := default 5000%R amplitude_arg;
               frequency := default (1 / 2)%R frequency_arg;
               phase := default 0%R phase_arg;
               noise := default 100%R noise_arg |}
      end
  end.

Module run_from_config.
Import config_manager_simple.

(** The [for sphere_data in scenario.spheres] loop of
    [create_simulator_from_config]. *)
Fixpoint add_scenario_spheres (l : list SphereConfigData)
    (sim : SphereSimulator) : M (outcome SphereSimulator) :=
  match l with
  | [] => ret (Returns sim)
  | sphere_data :: rest =>
      match SphereConfig_call
              (Some (center sphere_data)) (Some (motion_type sphere_data))
              (Some (amplitude sphere_data)) (Some (frequency sphere_data))
              (Some (phase sphere_data)) None
              ["noise_level"%string] with
      | Raises e => ret (Raises e)
      | Returns cfg =>
          sim' <- add_sphere cfg sim ;; add_scenario_spheres rest sim'
      end
  end.

(** [create_simulator_from_config(scenario)] *)
Definition create_simulator_from_config (scenario : TestScenario)
    : M (outcome SphereSimulator) :=
  add_scenario_spheres (spheres scenario) SphereSimulator_init.

End run_from_config.

(** ** The earlier generator: src/improved_fake_data.py *)

(** [l[:n]] for an integer [n]: a negative [n] counts from the end. *)
Definition slice_to {A} (n : Z) (l : list A) : list A :=
  if 0 <=? n then firstn (Z.to_nat n) l
  else firstn (length l - Z.to_nat (- n)) l.

(** [s.replace(old, new)] for a non-empty [old], read from the left:
    [skip] counts the characters of a replaced occurrence still to pass. *)
Fixpoint replace_from (old new : str) (skip : nat) (s : str) : str :=
  match s with
  | [] => []
  | c :: rest =>
      match skip with
      | S k => replace_from old new k rest
      | O =>
          if startswith s old
          then new ++ replace_from old new (length old - 1) rest
          else c :: replace_from old new 0 rest
      end
  end.

(** [s.replace(old, new)]; an empty [old] matches before every character
    and at the end. *)
Definition str_replace (s old new : str) : str :=
  match old with
  | [] => new ++ flat_map (fun c => c :: new) s
  | _ :: _ => replace_from old new 0 s
  end.

Module improved_fake_data.

Record SphereTrajectory := {
  center : R * R * R;
  radius : R;
  speed : R;
  phase : R
}.

(** [SphereTrajectory.__init__(center, radius=50, speed=0.1)] *)
Definition SphereTrajectory_init (c : R * R * R) : M SphereTrajectory :=
  ph <- random_uniform 0 (2 * PI) ;;
  ret {| center := c; radius := 50%R; speed := (1 / 10)%R; phase := ph |}.

(** [SphereTrajectory.get_position(t)] *)
Definition get_position (traj : SphereTrajectory) (t : R) : M (R * R * R) :=
  let angle := (phase traj + t * speed traj)%R in
  let '(c0, c1, c2) := center traj in
  let x := (c0 + radius traj * cos angle)%R in
  let y := (c1 + radius traj * sin angle)%R in
  jitter <- random_uniform (-5) 5 ;;
  ret (x, y, (c2 + jitter)%R).

(** The body of the [for i, traj in enumerate(...)] loop of
    [make_fake_tx_string]: the three values it appends to [vals]. *)
Definition trajectory_values (tick : Z) (add_noise : bool)
    (traj : SphereTrajectory) : M (list Z) :=
  p <- get_position traj (IZR tick * (5 / 100)) ;;
  let '(x, y, z) := p in
  if add_noise then
    nx <- random_uniform (-10) 10 ;;
    ny <- random_uniform (-10) 10 ;;
    nz <- random_uniform (-10) 10 ;;
    ret [int_of_float (x + nx); int_of_float (y + ny); int_of_float (z + nz)]
  else
    ret [int_of_float x; int_of_float y; int_of_float z].

(** The values of [make_fake_tx_string(tick, num_spheres, add_noise)]. *)
Definition fake_values (tick num_spheres : Z) (add_noise : bool)
    : M (list Z) :=
  trajectories <-
    mapM SphereTrajectory_init
      [(123456, -654321, 111222)%R; (223344, 334455, -445566)%R;
       (-555444, 666333, 777222)%R] ;;
  vals <- mapM (trajectory_values tick add_noise)
            (slice_to num_spheres trajectories) ;;
  ret (concat vals).

(** [make_fake_tx_string(tick=0, num_spheres=3, add_noise=True)] *)
Definition make_fake_tx_string (tick num_spheres : Z) (add_noise : bool)
    : M str :=
  vals <- fake_values tick num_spheres add_noise ;;
  let chunks := map (fun v => _num v 6 true) vals in
  ret (tx_envelope chunks).

(** [make_tx_with_status(tick=0, out_of_volume=False)] *)
Definition make_tx_with_status (tick : Z) (out_of_volume : bool) : M str :=
  base_response <- make_fake_tx_string tick 3 true ;;
  if out_of_volume then ret (str_replace base_response (lit "OK") (lit "OOV"))
  else ret base_response.

End improved_fake_data.

(** A trajectory as [make_fake_tx_string] builds them: radius 50 around a
    center whose coordinates are below [10^6 - 65] in absolute value. *)
Definition near_center (traj : improved_fake_data.SphereTrajectory) : Prop :=
  improved_fake_data.radius traj = 50%R
  /\ let '(c0, c1, c2) := improved_fake_data.center traj in
     (Rabs c0 < 999935)%R /\ (Rabs c1 < 999935)%R /\ (Rabs c2 < 999935)%R.

(** The integer a decoded token stands for. *)
Definition read_token (tok : str) : Z := token_integer (remove_point tok).

(** A character other than ["O"]. *)
Definition not_O (c : ascii) : bool := negb (Ascii.eqb c "O").

(** ** The export file and its check *)

Definition CR : ascii := ascii_of_nat 13.

(** The strings the reader passes to [file.write] for the spheres of one
    record, numbered from [sphere_idx] on; src/unnamed/part_000. *)
Fixpoint sphere_writes (sphere_idx : nat) (record : list reader_main.Sphere)
    : list str :=
  match record with
  | [] => []
  | sphere :: rest =>
      [[NL] ++ lit "Sphere " ++ decimal (Z.of_nat sphere_idx) ++ [NL];
       lit "  X: " ++ reader_main.x sphere ++ [NL];
       lit "  Y: " ++ reader_main.y sphere ++ [NL];
       lit "  Z: " ++ reader_main.z sphere ++ [NL]]
      ++ sphere_writes (S sphere_idx) rest
  end.

(** The writes for the records, numbered from [record_idx] on. *)
Fixpoint record_writes (record_idx : nat)
    (picked_coord : list (list reader_main.Sphere)) : list str :=
  match picked_coord with
  | [] => []
  | record :: rest =>
      ([NL] ++ lit "【 Record " ++ decimal (Z.of_nat record_idx)
         ++ lit " 】" ++ [NL])
      :: sphere_writes 1 record ++ record_writes (S record_idx) rest
  end.

(** All the writes of the export, and the text of [Coordinates.txt]. *)
Definition export_writes (picked_coord : list (list reader_main.Sphere))
    : list str :=
  [lit "NDI Coordinates Export" ++ [NL];
   str_mul (lit "=") 50 ++ [NL];
   lit "Total Records: " ++ decimal (Z.of_nat (length picked_coord)) ++ [NL];
   str_mul (lit "=") 50 ++ [NL]]
  ++ record_writes 1 picked_coord.

Definition export_file (picked_coord : list (list reader_main.Sphere)) : str :=
  concat (export_writes picked_coord).

(** [f.readlines()] on a file opened for reading as text: a line ends at a
    line feed, at a carriage return or at the two together, and keeps a
    line feed as its end; [line] is the part of the current line read so
    far. *)
Fixpoint readlines_from (line : str) (s : str) : list str :=
  match s with
  | [] => match line with [] => [] | _ :: _ => [line] end
  | c :: rest =>
      if Ascii.eqb c NL then (line ++ [NL]) :: readlines_from [] rest
      else if Ascii.eqb c CR then
        (line ++ [NL])
        :: match rest with
           | c' :: rest' =>
               if Ascii.eqb c' NL then readlines_from [] rest'
               else readlines_from [] rest
           | [] => []
           end
      else readlines_from (line ++ [c]) rest
  end.

Definition readlines (s : str) : list str := readlines_from [] s.

(** [needle in s] on strings. *)
Fixpoint contains (needle s : str) : bool :=
  startswith s needle
  || match s with
     | [] => false
     | _ :: rest => contains needle rest
     end.

(** [sum(1 for line in lines if 'Record' in line)], the record count the
    terminator of src/sim_runner.py prints. *)
Definition record_count (lines : list str) : nat :=
  length (List.filter (contains (lit "Record")) lines).

(** A character that ends no line, and one other than ["R"]. *)
Definition in_line (c : ascii) : bool :=
  negb (Ascii.eqb c NL) && negb (Ascii.eqb c CR).

Definition not_R (c : ascii) : bool := negb (Ascii.eqb c "R").

(** A token, and a sphere, without a line end and without an ["R"]. *)
Definition plain (tok : str) : Prop :=
  Forall (fun c => in_line c = true /\ not_R c = true) tok.

Definition plain_sphere (s : reader_main.Sphere) : Prop :=
  plain (reader_main.x s) /\ plain (reader_main.y s) /\ plain (reader_main.z s).

(** ** One round of the main loop of the reader: src/unnamed/part_000 *)

Module reader_round.
Import reader_main.

Section round.

(** The keyboard the reader polls and what [time.sleep] does to it: nothing
    for a real keyboard, one more tick for the scheduler of src/sim_runner.py
    once [time.sleep] is patched. [absolute] is the text of
    [output_file.absolute()]. *)
Variable K : Type.
Variable is_pressed : string -> K -> bool * K.
Variable sleep : R -> K -> K.
Variable absolute : str.





End round.

End reader_round.


(** ** When the runners stop *)

(** [max(d)] on a dictionary with integer keys: its largest key, and
    [ValueError] when it is empty. *)
Definition max_key (d : gmap Z string) : outcome Z :=
  match map_to_list d with
  | [] => Raises ValueError
  | (k, _) :: rest =>
      Returns (fold_left (fun a kv => Z.max a (fst kv)) rest k)
  end.

(** [LAST_TICK] of src/sim_runner.py:
    [max(KEY_SCHEDULE) if KEY_SCHEDULE else 0]. *)
Definition LAST_TICK (KEY_SCHEDULE : gmap Z string) : outcome Z :=
  if decide (KEY_SCHEDULE = ∅) then Returns 0 else max_key KEY_SCHEDULE.

(** The number of ticks whose time [_terminator] sleeps: [LAST_TICK + 60] in
    src/sim_runner.py, [max(KEY_SCHEDULE) + 60] in
    src/sim_runner_flexible.py. *)
Definition terminator_ticks (KEY_SCHEDULE : gmap Z string) : outcome Z :=
  match LAST_TICK KEY_SCHEDULE with
  | Returns t => Returns (t + 60)
  | Raises e => Raises e
  end.

Definition flexible_terminator_ticks (KEY_SCHEDULE : gmap Z string)
    : outcome Z :=
  match max_key KEY_SCHEDULE with
  | Returns t => Returns (t + 60)
  | Raises e => Raises e
  end.

(** ** The scheduler of src/sim_runner.py with [time.sleep] patched *)

Module patched.

(** What a thread does, one step at a time, each step reading the tick as
    it is then: [with self._lock] is [Acquire] ... [Release];
    [tick += 1] is [Load] then [Store]; in [is_pressed(key)], [Want key] is
    [want = self.schedule.get(self.tick)] with the test [want == key],
    [Fresh] the test [self.tick not in self._fired], [Add] is
    [self._fired.add(self.tick)] and [Append key] is
    [self._history.append((self.tick, key))] followed by [return True]. A
    test that fails goes to [return False]. *)
Inductive op :=
| Acquire | Release | Wait
| Load | Store
| Want (key : string)
| Fresh
| Add
| Append (key : string).

(** [_KeyboardMock.is_pressed(key)] *)
Definition is_pressed (key : string) : list op :=
  [Acquire; Want key; Fresh; Add; Append key; Release].

(** The patched [_sleep]: [keyboard_mock.tick += 1; _real_sleep(dt)], with
    no lock. *)
Definition _sleep : list op := [Load; Store; Wait].

(** One round of [_ticker], whose [_time.sleep] is the patched one. *)
Definition _ticker : list op := _sleep ++ [Acquire; Load; Store; Release].

Record thread := { code : list op; reg : Z; answers : list bool }.

Record machine := {
  schedule : gmap Z string;
  tick : Z;
  _fired : gset Z;
  _history : list (Z * string);
  lock : option nat;
  pool : list thread
}.

(** [return False] inside [with self._lock]: what is left of the call is
    the release of the lock. *)
Fixpoint to_release (c : list op) : list op :=
  match c with
  | [] => []
  | Release :: _ => c
  | _ :: rest => to_release rest
  end.

(** Thread [i] takes its next step; [None] when it waits for the lock, has
    finished or does not exist. *)
Definition step (i : nat) (m : machine) : option machine :=
  match pool m !! i with
  | Some {| code := a :: rest; reg := r; answers := bs |} =>
      let put c r' bs' :=
        <[i := {| code := c; reg := r'; answers := bs' |}]> (pool m) in
      let with_pool p :=
        {| schedule := schedule m; tick := tick m; _fired := _fired m;
           _history := _history m; lock := lock m; pool := p |} in
      match a with
      | Acquire =>
          match lock m with
          | None =>
              Some {| schedule := schedule m; tick := tick m;
                      _fired := _fired m; _history := _history m;
                      lock := Some i; pool := put rest r bs |}
          | Some _ => None
          end
      | Release =>
          Some {| schedule := schedule m; tick := tick m;
                  _fired := _fired m; _history := _history m;
                  lock := None; pool := put rest r bs |}
      | Wait => Some (with_pool (put rest r bs))
      | Load => Some (with_pool (put rest (tick m) bs))
      | Store =>
          Some {| schedule := schedule m; tick := r + 1;
                  _fired := _fired m; _history := _history m;
                  lock := lock m; pool := put rest r bs |}
      | Want key =>
          if bool_decide (schedule m !! tick m = Some key)
          then Some (with_pool (put rest r bs))
          else Some (with_pool (put (to_release rest) r (bs ++ [false])))
      | Fresh =>
          if bool_decide (tick m ∉ _fired m)
          then Some (with_pool (put rest r bs))
          else Some (with_pool (put (to_release rest) r (bs ++ [false])))
      | Add =>
          Some {| schedule := schedule m; tick := tick m;
                  _fired := {[tick m]} ∪ _fired m; _history := _history m;
                  lock := lock m; pool := put rest r bs |}
      | Append key =>
          Some {| schedule := schedule m; tick := tick m;
                  _fired := _fired m;
                  _history := _history m ++ [(tick m, key)];
                  lock := lock m; pool := put rest r (bs ++ [true]) |}
      end
  | _ => None
  end.

(** The threads take steps in the order of [order]. *)
Fixpoint run (order : list nat) (m : machine) : option machine :=
  match order with
  | [] => Some m
  | i :: rest =>
      match step i m with
      | Some m' => run rest m'
      | None => None
      end
  end.

(** [n] rounds of the [while True] loop of [_ticker]. *)
Definition rounds (n : nat) : list op := concat (repeat _ticker n).

(** The start of the program: [_KeyboardMock(schedule)] and the threads
    with their code. *)
Definition start (sched : gmap Z string) (codes : list (list op)) : machine :=
  {| schedule := sched; tick := 0; _fired := ∅; _history := [];
     lock := None;
     pool := map (fun c => {| code := c; reg := 0; answers := [] |}) codes |}.

Definition finished (m : machine) : bool :=
  forallb (fun t => match code t with [] => true | _ => false end) (pool m).

(** The answers of the queries of thread [i]. *)
Definition answers_of (i : nat) (m : machine) : list bool :=
  match pool m !! i with
  | Some t => answers t
  | None => []
  end.

End patched.

(** [KEY_SCHEDULE] of src/sim_runner.py. *)
Definition KEY_SCHEDULE : gmap Z string :=
  {[ 0 := "c"%string; 30 := "c"%string; 60 := "e"%string ]}.

(** The two threads of the test runner up to the query of tick 30: the
    reader sleeps twice and asks for [c], the ticker makes fifteen
    rounds. *)
Definition runner_threads : list (list patched.op) :=
  [patched._sleep ++ patched._sleep ++ patched.is_pressed "c";
   patched.rounds 15].

(** The reader sleeps twice and the ticker makes fourteen rounds, which
    brings the tick to 30; the reader takes the lock and reads the key of
    tick 30; the ticker starts its next round, whose sleep moves the tick;
    the reader ends its query. *)
Definition order_moved_tick : list nat :=
  repeat 0%nat 6 ++ repeat 1%nat 98 ++ [0; 0; 1; 1; 0; 0; 0; 0]%nat.

(** The ticker makes fourteen rounds and the reader sleeps once, which
    brings the tick to 29; the second sleep of the reader loads the tick;
    the ticker makes a round. *)
Definition order_tick_passes : list nat :=
  repeat 1%nat 98 ++ repeat 0%nat 3 ++ [0%nat] ++ repeat 1%nat 7.

(** The reader ends its sleep, storing the tick it loaded plus one, and
    asks for [c]. *)
Definition order_late_query : list nat := repeat 0%nat 8.

(** ** The motion model in floating-point arithmetic *)

(** The arithmetic of Python floats: every operation returns the rounding
    [rnd] of its exact result, a literal is the rounding of the number
    written, and [fcos] and [fsin] are [math.cos] and [math.sin]. *)
Record float_ops := {
  rnd : R -> R;
  fcos : R -> R;
  fsin : R -> R
}.

(** Arithmetic without rounding. *)
Definition exact_ops : float_ops :=
  {| rnd := fun r => r; fcos := cos; fsin := sin |}.

(** What is used of binary64 arithmetic: on results of absolute value at
    most [10^9], far from overflow, rounding errs by no more than
    [10^-15 * (|r| + 1)] (the unit roundoff [2^-53] is below [10^-15], and so
    is the smallest positive number), and the values of [math.cos] and
    [math.sin] lie in [[-1, 1]]. *)
Definition binary64_like (F : float_ops) : Prop :=
  (forall r, Rabs r <= 1000000000 ->
             Rabs (rnd F r - r) <= (Rabs r + 1) / 1000000000000000)%R
  /\ (forall a, -1 <= fcos F a <= 1)%R
  /\ (forall a, -1 <= fsin F a <= 1)%R.

Module binary64.

Section arithmetic.

Variable F : float_ops.

(** [random.uniform(a, b)]: [a + (b - a) * self.random()]. *)
Definition random_uniform (a b : R) : M R :=
  u <- random_random ;; ret (rnd F (a + rnd F (rnd F (b - a) * u))).

(** The [if]/[elif] chain of [VirtualSphere.get_position], every operation
    rounded, in the order Python evaluates them. *)
Definition position_offset (cfg : SphereConfig) (t : R) : M (R * R * R) :=
  let A := amplitude cfg in
  let angle := rnd F (rnd F (t * frequency cfg) + phase cfg) in
  if String.eqb (motion_type cfg) "static" then
    ret (0, 0, 0)%R
  else if String.eqb (motion_type cfg) "circle_xy" then
    ret (rnd F (A * fcos F angle), rnd F (A * fsin F angle), 0)%R
  else if String.eqb (motion_type cfg) "circle_xz" then
    ret (rnd F (A * fcos F angle), 0, rnd F (A * fsin F angle))%R
  else if String.eqb (motion_type cfg) "wave_x" then
    ret (rnd F (A * fsin F angle), 0, 0)%R
  else if String.eqb (motion_type cfg) "wave_xyz" then
    ret (rnd F (A * fsin F angle),
         rnd F (A * fsin F
                      (rnd F (rnd F (rnd F (t * frequency cfg)
                                     * rnd F (13 / 10))
                              + phase cfg))),
         rnd F (A * fsin F
                      (rnd F (rnd F (rnd F (t * frequency cfg)
                                     * rnd F (7 / 10))
                              + phase cfg))))%R
  else if String.eqb (motion_type cfg) "spiral" then
    let r := rnd F (A * rnd F (1 + rnd F (rnd F (1 / 10) * t))) in
    ret (rnd F (r * fcos F angle), rnd F (r * fsin F angle),
         rnd F (rnd F (A * (1 / 2)) * fsin F (rnd F (t * (1 / 2)))))%R
  else if String.eqb (motion_type cfg) "random_walk" then
    dx <- random_uniform (- A) A ;;
    dy <- random_uniform (- A) A ;;
    dz <- random_uniform (rnd F (- A * rnd F (3 / 10)))
                         (rnd F (A * rnd F (3 / 10))) ;;
    ret (dx, dy, dz)
  else
    ret (0, 0, 0)%R.

(** [VirtualSphere.get_position] *)
Definition get_position (sphere : VirtualSphere) : M (Z * Z * Z) :=
  now <- time_time ;;
  let t := rnd F (now - start_time sphere) in
  let '(x, y, z) := center (config sphere) in
  d <- position_offset (config sphere) t ;;
  let '(dx, dy, dz) := d in
  let noise_draw :=
    random_uniform (- noise (config sphere)) (noise (config sphere)) in
  nx <- noise_draw ;;
  ny <- noise_draw ;;
  nz <- noise_draw ;;
  ret (int_of_float (rnd F (rnd F (x + dx) + nx)),
       int_of_float (rnd F (rnd F (y + dy) + ny)),
       int_of_float (rnd F (rnd F (z + dz) + nz))).

(** [SphereSimulator.get_all_positions] *)
Definition get_all_positions (sim : SphereSimulator) : M (list (Z * Z * Z)) :=
  mapM get_position (spheres sim).

(** [generate_tx_response] *)
Definition generate_tx_response (sim : SphereSimulator) : M str :=
  positions <- get_all_positions sim ;; ret (tx_response_of positions).

End arithmetic.

End binary64.

(** A target and a state of the world in which no operation of
    [get_position] overflows: the frequency, the phase, the start time and
    the readings of the clock are at most [10^100] in absolute value. *)
Definition no_overflow (s : VirtualSphere) (w : world) : Prop :=
  (Rabs (frequency (config s)) <= 10 ^ 100)%R
  /\ (Rabs (phase (config s)) <= 10 ^ 100)%R
  /\ (Rabs (start_time s) <= 10 ^ 100)%R
  /\ forall k, (Rabs (time_source w k) <= 10 ^ 100)%R.

(** A target that stays within six digits with room for rounding: no
    spiral, and on every axis the center, the amplitude and the noise add up
    to no more than 999999. *)
Definition well_within_field (cfg : SphereConfig) : Prop :=
  motion_type cfg <> "spiral"%string
  /\ (0 <= amplitude cfg)%R /\ (0 <= noise cfg)%R
  /\ let '(cx, cy, cz) := center cfg in
     (Rabs cx + amplitude cfg + noise cfg <= 999999)%R
     /\ (Rabs cy + amplitude cfg + noise cfg <= 999999)%R
     /\ (Rabs cz + amplitude cfg + noise cfg <= 999999)%R.
(** * Properties *)

(** ** Decimal digits *)

Lemma digit_char_is_digit d : 0 <= d < 10 -> is_digit (digit_char d) = true.
Proof.
  intros H. unfold is_digit, digit_char.
  rewrite nat_ascii_embedding by lia.
  apply andb_true_iff; split; apply Nat.leb_le; lia.
Qed.

Lemma digit_char_value d :
  0 <= d < 10 -> Z.of_nat (nat_of_ascii (digit_char d)) - 48 = d.
Proof.
  intros H. unfold digit_char. rewrite nat_ascii_embedding by lia. lia.
Qed.

Lemma digits_number_snoc s c :
  digits_number (s ++ [c])
  = if is_digit c then digits_number s * 10 + (Z.of_nat (nat_of_ascii c) - 48)
    else digits_number s.
Proof. unfold digits_number. rewrite fold_left_app. reflexivity. Qed.

Lemma digits_msd_length fuel : forall n w,
  0 <= n < 10 ^ Z.of_nat w -> (1 <= w)%nat ->
  (length (digits_msd fuel n) <= w)%nat.
Proof.
  induction fuel as [|f IH]; intros n w Hn Hw; simpl; [lia|].
  destruct (Z.ltb_spec n 10) as [Hlt|Hge]; simpl; [lia|].
  rewrite length_app. simpl.
  destruct w as [|w]; [lia|].
  destruct w as [|w].
  - change (10 ^ Z.of_nat 1) with 10 in Hn. lia.
  - assert (Hdiv : 0 <= n / 10 < 10 ^ Z.of_nat (S w)).
    { split; [apply Z.div_pos; lia|].
      apply Z.div_lt_upper_bound; [lia|].
      replace (Z.of_nat (S (S w))) with (Z.succ (Z.of_nat (S w))) in Hn by lia.
      rewrite Z.pow_succ_r in Hn by lia. lia. }
    specialize (IH (n / 10) (S w) Hdiv ltac:(lia)). lia.
Qed.

Lemma digits_msd_nonempty fuel n : (1 <= length (digits_msd (S fuel) n))%nat.
Proof.
  simpl. destruct (n <? 10); simpl; [lia|]. rewrite length_app. simpl. lia.
Qed.

Lemma digits_msd_digits fuel : forall n,
  0 <= n -> Forall (fun c => is_digit c = true) (digits_msd fuel n).
Proof.
  induction fuel as [|f IH]; intros n Hn; simpl; [constructor|].
  destruct (Z.ltb_spec n 10) as [Hlt|Hge].
  - constructor; [apply digit_char_is_digit; lia | constructor].
  - apply Forall_app; split.
    + apply IH. apply Z.div_pos; lia.
    + constructor; [|constructor]. apply digit_char_is_digit.
      apply Z.mod_pos_bound. lia.
Qed.

(** With enough fuel the digits written are those of the number. *)
Lemma digits_msd_value fuel : forall n,
  0 <= n < 10 ^ Z.of_nat fuel -> digits_number (digits_msd fuel n) = n.
Proof.
  induction fuel as [|f IH]; intros n Hn.
  - simpl in *. change (digits_number []) with 0. lia.
  - simpl. destruct (Z.ltb_spec n 10) as [Hlt|Hge].
    + change [digit_char n] with ([] ++ [digit_char n]).
      rewrite digits_number_snoc, digit_char_is_digit, digit_char_value by lia.
      reflexivity.
    + rewrite digits_number_snoc, digit_char_is_digit, digit_char_value
        by (apply Z.mod_pos_bound; lia).
      rewrite IH.
      * pose proof (Z.div_mod n 10 ltac:(lia)). lia.
      * split; [apply Z.div_pos; lia|].
        apply Z.div_lt_upper_bound; [lia|].
        replace (Z.of_nat (S f)) with (Z.succ (Z.of_nat f)) in Hn by lia.
        rewrite Z.pow_succ_r in Hn by lia. lia.
Qed.

Lemma decimal_fuel n : 0 <= n -> n < 10 ^ Z.of_nat (S (Z.to_nat (Z.log2 n))).
Proof.
  intros Hn.
  pose proof (Z.log2_nonneg n) as Hl.
  replace (Z.of_nat (S (Z.to_nat (Z.log2 n)))) with (Z.succ (Z.log2 n)) by lia.
  destruct (Z.eq_dec n 0) as [->|Hnz].
  - change (Z.log2 0) with 0. reflexivity.
  - pose proof (Z.log2_spec n ltac:(lia)) as [_ Hub].
    eapply Z.lt_le_trans; [exact Hub|].
    apply Z.pow_le_mono_l. lia.
Qed.

Lemma decimal_value n : 0 <= n -> digits_number (decimal n) = n.
Proof.
  intros Hn. unfold decimal. apply digits_msd_value.
  split; [exact Hn | apply decimal_fuel; exact Hn].
Qed.

Lemma decimal_length n w :
  0 <= n < 10 ^ Z.of_nat w -> (1 <= w)%nat ->
  (1 <= length (decimal n) <= w)%nat.
Proof.
  intros Hn Hw. unfold decimal. split.
  - apply digits_msd_nonempty.
  - apply digits_msd_length; assumption.
Qed.

Lemma decimal_digits n : 0 <= n -> Forall (fun c => is_digit c = true) (decimal n).
Proof. intros Hn. apply digits_msd_digits. exact Hn. Qed.

Lemma digits_msd_length_lb fuel : forall n w,
  10 ^ Z.of_nat w <= n < 10 ^ Z.of_nat fuel ->
  (S w <= length (digits_msd fuel n))%nat.
Proof.
  induction fuel as [|f IH]; intros n w [Hlo Hhi].
  - pose proof (Z.pow_pos_nonneg 10 (Z.of_nat w) ltac:(lia) ltac:(lia)).
    change (10 ^ Z.of_nat 0) with 1 in Hhi. lia.
  - simpl. destruct (Z.ltb_spec n 10) as [Hlt|Hge].
    + destruct w as [|w]; simpl; [lia|].
      replace (Z.of_nat (S w)) with (Z.succ (Z.of_nat w)) in Hlo by lia.
      rewrite Z.pow_succ_r in Hlo by lia.
      pose proof (Z.pow_pos_nonneg 10 (Z.of_nat w) ltac:(lia) ltac:(lia)). lia.
    + rewrite length_app. simpl.
      destruct w as [|w]; [lia|].
      replace (Z.of_nat (S w)) with (Z.succ (Z.of_nat w)) in Hlo by lia.
      rewrite Z.pow_succ_r in Hlo by lia.
      replace (Z.of_nat (S f)) with (Z.succ (Z.of_nat f)) in Hhi by lia.
      rewrite Z.pow_succ_r in Hhi by lia.
      assert (Hdiv : 10 ^ Z.of_nat w <= n / 10 < 10 ^ Z.of_nat f).
      { split.
        - apply Z.div_le_lower_bound; lia.
        - apply Z.div_lt_upper_bound; lia. }
      specialize (IH (n / 10) w Hdiv). lia.
Qed.

(** A number of exactly [N] digits is written with [N] characters. *)
Lemma decimal_full_width n N :
  (1 <= N)%nat -> 10 ^ Z.of_nat (N - 1) <= n < 10 ^ Z.of_nat N ->
  length (decimal n) = N.
Proof.
  intros HN [Hlo Hhi].
  assert (Hn : 0 <= n).
  { pose proof (Z.pow_pos_nonneg 10 (Z.of_nat (N - 1)) ltac:(lia) ltac:(lia)).
    lia. }
  pose proof (decimal_length n N ltac:(lia) HN) as [_ Hub].
  pose proof (digits_msd_length_lb (S (Z.to_nat (Z.log2 n))) n (N - 1)
                (conj Hlo (decimal_fuel n Hn))) as Hlb.
  fold (decimal n) in Hlb. lia.
Qed.

(** ** Encoding *)

Lemma format_coord_shape n N :
  format_coord n N true
  = (if 0 <=? n then "+"%char else "-"%char)
      :: repeat " "%char (N - length (decimal (Z.abs n))) ++ decimal (Z.abs n).
Proof. reflexivity. Qed.

Lemma _num_format_coord n width sign : _num n width sign = format_coord n width sign.
Proof. reflexivity. Qed.

Lemma format_coord_length n N :
  (1 <= N)%nat -> fits N n -> length (format_coord n N true) = S N.
Proof.
  intros HN Hfit. rewrite format_coord_shape. simpl.
  rewrite length_app, repeat_length.
  pose proof (decimal_length (Z.abs n) N ltac:(unfold fits in Hfit; lia) HN).
  lia.
Qed.

(** ** Integers that went through [float] arithmetic *)

Lemma int_of_float_IZR z : int_of_float (IZR z) = z.
Proof.
  unfold int_of_float. destruct (Rle_dec 0 (IZR z)).
  - apply ZfloorZ.
  - unfold Zceil. rewrite <- opp_IZR, ZfloorZ. lia.
Qed.

Lemma example_target_frame a f p w :
  fst (bind (add_sphere (example_target a f p) SphereSimulator_init)
            generate_tx_response w)
  = lit "TXRESP|OK|+100000|-200000|+ 50000|END".
Proof.
  unfold bind, add_sphere, generate_tx_response, get_all_positions,
    VirtualSphere_init, bind, ret. simpl.
  unfold get_position, bind, ret. simpl.
  unfold random_uniform, bind, ret. simpl.
  match goal with
  | |- tx_response_of [(int_of_float ?a, int_of_float ?b, int_of_float ?c)] = _ =>
      replace a with (IZR 100000) by lra;
      replace b with (IZR (-200000)) by lra;
      replace c with (IZR 50000) by lra
  end.
  rewrite !int_of_float_IZR. reflexivity.
Qed.

(** C1, as the code has it: for a digit width [N >= 1] and every integer
    whose absolute value fits [N] digits, [format_coord] (and [_num])
    produce a token of exactly [N + 1] characters, a leading ["+"] when the
    value is [>= 0] and ["-"] otherwise, followed by the decimal digits of
    the absolute value padded on the left with blanks, not zeros, to [N]
    characters. The token is the zero-padded one exactly when the absolute
    value has all its [N] digits, that is when it is at least [10^(N-1)],
    or is 0 with [N = 1]. The static target [(100000, -200000, 50000)] with
    noise 0 yields the frame [TXRESP|OK|+100000|-200000|+ 50000|END]. *)
Theorem format_coord_blank_padded (n : Z) (N : nat) :
  (1 <= N)%nat -> fits N n ->
  length (format_coord n N true) = S N
  /\ _num n N true = format_coord n N true
  /\ (exists k : nat,
        format_coord n N true
        = (if 0 <=? n then "+"%char else "-"%char)
            :: repeat " "%char k ++ decimal (Z.abs n)
        /\ (k + length (decimal (Z.abs n)) = N)%nat)
  /\ Forall (fun c => is_digit c = true) (decimal (Z.abs n))
  /\ digits_number (decimal (Z.abs n)) = Z.abs n
  /\ (format_coord n N true = zero_padded_token n N
      <-> length (decimal (Z.abs n)) = N)
  /\ (length (decimal (Z.abs n)) = N
      <-> 10 ^ Z.of_nat (N - 1) <= Z.abs n \/ (n = 0 /\ N = 1%nat))
  /\ (forall a f p w,
        fst (bind (add_sphere (example_target a f p) SphereSimulator_init)
                  generate_tx_response w)
        = lit "TXRESP|OK|+100000|-200000|+ 50000|END").
Proof.
  intros HN Hfit.
  pose proof (decimal_length (Z.abs n) N ltac:(unfold fits in Hfit; lia) HN)
    as [Hlo Hhi].
  split; [apply format_coord_length; assumption|].
  split; [reflexivity|].
  split.
  { exists (N - length (decimal (Z.abs n)))%nat. split; [reflexivity | lia]. }
  split; [apply decimal_digits; lia|].
  split; [apply decimal_value; lia|].
  split.
  { unfold zero_padded_token. rewrite format_coord_shape. split.
    - intros Heq. injection Heq as Heq. apply app_inv_tail in Heq.
      destruct (N - length (decimal (Z.abs n)))%nat eqn:Hk; [lia|].
      discriminate Heq.
    - intros Hfull. rewrite Hfull, Nat.sub_diag. reflexivity. }
  split; [|intros; apply example_target_frame].
  split.
  - intros Hfull.
    destruct (Z_lt_le_dec (Z.abs n) (10 ^ Z.of_nat (N - 1))) as [Hlt|Hge];
      [|left; exact Hge].
    right. destruct (Nat.eq_dec N 1%nat) as [->|HN1].
    + change (10 ^ Z.of_nat (1 - 1)) with 1 in Hlt. split; [lia | reflexivity].
    + pose proof (decimal_length (Z.abs n) (N - 1) ltac:(lia) ltac:(lia))
        as [_ Hub].
      lia.
  - intros [Hge|[-> ->]]; [|reflexivity].
    apply (decimal_full_width (Z.abs n) N HN (conj Hge Hfit)).
Qed.

Lemma format_coord_blank_padded_witness :
  length (format_coord 50000 6 true) = 7%nat
  /\ format_coord 50000 6 true = lit "+ 50000".
Proof.
  split.
  - apply (format_coord_blank_padded 50000 6); [lia | unfold fits; simpl; lia].
  - reflexivity.
Defined.

(** C1 as the specification states it fails: 50000 fits six digits and its
    token is not the zero-padded one, and the frame of the example is not
    the string the specification gives. *)
Lemma format_coord_not_zero_padded :
  fits 6 50000
  /\ zero_padded_token 50000 6 = lit "+050000"
  /\ format_coord 50000 6 true <> zero_padded_token 50000 6
  /\ tx_response_of [(100000, -200000, 50000)]
     <> lit "TXRESP|OK|+100000|-200000|+050000|END".
Proof.
  split; [unfold fits; simpl; lia|].
  split; [reflexivity|].
  split; intros H; vm_compute in H; discriminate H.
Qed.

(** ** Decoding *)

Lemma TX0008_loop_fuel n : forall f1 f2 s acc,
  (length s <= f1)%nat -> (length s <= f2)%nat ->
  TX0008_loop f1 s n acc = TX0008_loop f2 s n acc.
Proof.
  induction f1 as [|f1 IH]; intros f2 s acc H1 H2.
  - destruct s; [destruct f2; reflexivity | simpl in H1; lia].
  - destruct s as [|c s]; [destruct f2; reflexivity|].
    destruct f2 as [|f2]; [simpl in H2; lia|].
    simpl in H1, H2. cbn [TX0008_loop].
    destruct (in_sign c).
    + apply IH; rewrite length_skipn; cbn [length]; lia.
    + apply IH; rewrite length_skipn; cbn [length]; lia.
Qed.

Lemma TX0008_loop_acc n : forall f s acc,
  TX0008_loop f s n acc = option_map (app acc) (TX0008_loop f s n []).
Proof.
  induction f as [|f IH]; intros s acc.
  - destruct s; simpl; [rewrite app_nil_r|]; reflexivity.
  - destruct s as [|c s]; [simpl; rewrite app_nil_r; reflexivity|].
    cbn [TX0008_loop]. destruct (in_sign c).
    + rewrite IH. rewrite (IH _ ([] ++ _)).
      destruct (TX0008_loop f _ n []) as [l|]; simpl; [|reflexivity].
      rewrite <- app_assoc. reflexivity.
    + apply IH.
Qed.

(** The loop ends: the length of the input is enough fuel. *)
Lemma TX0008_loop_total n : forall f s acc,
  (length s <= f)%nat -> exists l, TX0008_loop f s n acc = Some l.
Proof.
  induction f as [|f IH]; intros s acc Hf.
  - destruct s; [eexists; reflexivity | simpl in Hf; lia].
  - destruct s as [|c s]; [eexists; reflexivity|].
    simpl in Hf. cbn [TX0008_loop]. destruct (in_sign c).
    + apply IH. rewrite length_skipn; cbn [length]; lia.
    + apply IH. rewrite length_skipn; cbn [length]; lia.
Qed.

Lemma decode_total s n : exists l, TX0008_pos_str_to_list s n = Some l.
Proof. apply TX0008_loop_total. lia. Qed.

Lemma decode_nil n : TX0008_pos_str_to_list [] n = Some [].
Proof. reflexivity. Qed.

(** A character that is no sign is skipped. *)
Lemma decode_skip c s n :
  in_sign c = false ->
  TX0008_pos_str_to_list (c :: s) n = TX0008_pos_str_to_list s n.
Proof.
  intros Hc. unfold TX0008_pos_str_to_list. simpl. rewrite Hc. reflexivity.
Qed.

(** A sign starts a token of the sign and the next [n] characters, or of
    what is left of the input when it is shorter. *)
Lemma decode_sign c s n :
  in_sign c = true ->
  TX0008_pos_str_to_list (c :: s) n
  = option_map (cons (insert_point (c :: firstn n s)))
      (TX0008_pos_str_to_list (skipn n s) n).
Proof.
  intros Hc. unfold TX0008_pos_str_to_list.
  cbn [length TX0008_loop]. rewrite Hc, Nat.add_1_r.
  cbn [firstn skipn app].
  rewrite (TX0008_loop_fuel n (length s) (length (skipn n s)))
    by (rewrite ?length_skipn; lia).
  apply TX0008_loop_acc.
Qed.

Lemma decode_skip_prefix pre s n :
  forallb (fun c => negb (in_sign c)) pre = true ->
  TX0008_pos_str_to_list (pre ++ s) n = TX0008_pos_str_to_list s n.
Proof.
  induction pre as [|c pre IH]; intros H; [reflexivity|].
  simpl in H. apply andb_true_iff in H as [Hc Hpre].
  simpl. rewrite decode_skip by (destruct (in_sign c); [discriminate | reflexivity]).
  apply IH. exact Hpre.
Qed.

Lemma decode_token c body s n :
  in_sign c = true -> length body = n ->
  TX0008_pos_str_to_list ((c :: body) ++ s) n
  = option_map (cons (insert_point (c :: body))) (TX0008_pos_str_to_list s n).
Proof.
  intros Hc Hlen. simpl. rewrite decode_sign by exact Hc.
  rewrite firstn_app, skipn_app, Hlen, Nat.sub_diag.
  rewrite <- Hlen at 1 2. rewrite firstn_all, skipn_all.
  simpl. rewrite app_nil_r. reflexivity.
Qed.

(** C3, as the code has it: with digit width 6, a sign followed by six
    characters is consumed as one token, and the decimal point is put after
    the fifth character of the token, the sign counted: after the fourth
    digit. The token [sign d1 d2 d3 d4 d5 d6] becomes
    [sign d1 d2 d3 d4 . d5 d6], and decoding goes on with the rest. *)
Theorem decode_point_after_fourth_digit
    (c d1 d2 d3 d4 d5 d6 : ascii) (rest : str) :
  in_sign c = true ->
  exists l,
    TX0008_pos_str_to_list rest NUM_DIGIT = Some l
    /\ TX0008_pos_str_to_list (c :: d1 :: d2 :: d3 :: d4 :: d5 :: d6 :: rest)
         NUM_DIGIT
       = Some ([c; d1; d2; d3; d4; "."%char; d5; d6] :: l).
Proof.
  intros Hc. unfold NUM_DIGIT.
  destruct (decode_total rest 6) as [l Hl].
  exists l. split; [exact Hl|].
  rewrite decode_sign by exact Hc.
  change (skipn 6 (d1 :: d2 :: d3 :: d4 :: d5 :: d6 :: rest)) with rest.
  rewrite Hl. reflexivity.
Qed.

Lemma decode_point_after_fourth_digit_witness :
  exists l,
    TX0008_pos_str_to_list (lit "|END") NUM_DIGIT = Some l
    /\ TX0008_pos_str_to_list (lit "+123456|END") NUM_DIGIT
       = Some (lit "+1234.56" :: l).
Proof.
  apply (decode_point_after_fourth_digit "+" "1" "2" "3" "4" "5" "6" (lit "|END")).
  reflexivity.
Defined.

(** C3 as the specification states it fails: the token [+123456] does not
    become [+12345.6]. *)
Lemma decode_point_not_after_fifth_digit :
  in_sign "+" = true
  /\ TX0008_pos_str_to_list (lit "+123456") 6 = Some [lit "+1234.56"]
  /\ TX0008_pos_str_to_list (lit "+123456") 6 <> Some [lit "+12345.6"].
Proof.
  split; [reflexivity|]. split; [reflexivity|].
  intros H. vm_compute in H. discriminate H.
Qed.




(** ** Round trip *)

Lemma format_coord_split v N :
  (1 <= N)%nat -> fits N v ->
  exists c body,
    format_coord v N true = c :: body /\ in_sign c = true /\ length body = N.
Proof.
  intros HN Hfit.
  exists (if 0 <=? v then "+"%char else "-"%char).
  exists (repeat " "%char (N - length (decimal (Z.abs v))) ++ decimal (Z.abs v)).
  split; [apply format_coord_shape|]. split.
  - destruct (0 <=? v); reflexivity.
  - pose proof (format_coord_length v N HN Hfit) as Hlen.
    rewrite format_coord_shape in Hlen. simpl in Hlen. lia.
Qed.

Lemma decode_end N : TX0008_pos_str_to_list (lit "|END") N = Some [].
Proof. reflexivity. Qed.

Lemma decode_joined N values :
  (1 <= N)%nat -> Forall (fits N) values ->
  TX0008_pos_str_to_list
    (join (lit "|") (map (fun v => format_coord v N true) values) ++ lit "|END") N
  = Some (map (fun v => insert_point (format_coord v N true)) values).
Proof.
  intros HN Hall. induction Hall as [|v rest Hv Hrest IH].
  - apply decode_end.
  - destruct (format_coord_split v N HN Hv) as (c & body & Hfc & Hc & Hlen).
    destruct rest as [|v' rest'].
    + cbn [map join]. rewrite Hfc, decode_token by assumption.
      rewrite decode_end. reflexivity.
    + change (join (lit "|") (map (fun v => format_coord v N true) (v :: v' :: rest')))
        with (format_coord v N true ++ lit "|"
              ++ join (lit "|") (map (fun v => format_coord v N true) (v' :: rest'))).
      rewrite <- !app_assoc, Hfc, decode_token by assumption.
      rewrite (decode_skip_prefix (lit "|")) by reflexivity.
      rewrite IH. cbn [map option_map]. rewrite Hfc. reflexivity.
Qed.

Lemma filter_keep_all {A} (f : A -> bool) (l : list A) :
  Forall (fun x => f x = true) l -> List.filter f l = l.
Proof.
  induction 1 as [|x l Hx Hl IH]; simpl; [reflexivity|].
  rewrite Hx, IH. reflexivity.
Qed.

Lemma remove_point_insert_point tok :
  Forall (fun c => negb (Ascii.eqb c ".") = true) tok ->
  remove_point (insert_point tok) = tok.
Proof.
  intros Hno. unfold remove_point, insert_point.
  rewrite !List.filter_app. change (List.filter _ (lit ".")) with (@nil ascii).
  rewrite app_nil_l, <- List.filter_app, firstn_skipn.
  apply filter_keep_all. exact Hno.
Qed.

Lemma digit_not_point c : is_digit c = true -> negb (Ascii.eqb c ".") = true.
Proof.
  intros Hd. destruct (Ascii.eqb c ".") eqn:E; [|reflexivity].
  apply Ascii.eqb_eq in E. subst c. discriminate Hd.
Qed.

Lemma format_coord_no_point v N :
  Forall (fun c => negb (Ascii.eqb c ".") = true) (format_coord v N true).
Proof.
  rewrite format_coord_shape. constructor.
  - destruct (0 <=? v); reflexivity.
  - apply Forall_app; split.
    + apply List.Forall_forall. intros c Hin. apply repeat_spec in Hin. subst c.
      reflexivity.
    + eapply List.Forall_impl; [|apply (decimal_digits (Z.abs v)); lia].
      intros c Hc. apply digit_not_point. exact Hc.
Qed.

Lemma digits_number_blanks k s :
  digits_number (repeat " "%char k ++ s) = digits_number s.
Proof.
  unfold digits_number. rewrite fold_left_app. f_equal.
  induction k as [|k IH]; simpl; [reflexivity | exact IH].
Qed.

Lemma token_integer_format_coord v N : token_integer (format_coord v N true) = v.
Proof.
  rewrite format_coord_shape. unfold token_integer.
  rewrite digits_number_blanks, decimal_value by lia.
  destruct (Z.leb_spec 0 v); simpl; lia.
Qed.

(** C2: for a digit width [N >= 1] and every list of integers whose absolute
    values fit [N] digits, decoding the encoded wire frame yields as many
    tokens as there were values, and each token with the inserted decimal
    point removed is the encoded token of its value, whose sign and digits
    read back as the original integer. *)
Theorem decode_encode_roundtrip (N : nat) (values : list Z) :
  (1 <= N)%nat -> Forall (fits N) values ->
  exists tokens,
    TX0008_pos_str_to_list
      (tx_envelope (map (fun v => format_coord v N true) values)) N
    = Some tokens
    /\ length tokens = length values
    /\ Forall2
         (fun v tok =>
            remove_point tok = format_coord v N true
            /\ token_integer (remove_point tok) = v)
         values tokens.
Proof.
  intros HN Hall.
  exists (map (fun v => insert_point (format_coord v N true)) values).
  split; [|split].
  - unfold tx_envelope.
    rewrite (decode_skip_prefix (lit "TXRESP|OK|")) by reflexivity.
    apply decode_joined; assumption.
  - apply length_map.
  - clear Hall. induction values as [|v rest IH]; constructor; [|exact IH].
    rewrite remove_point_insert_point by apply format_coord_no_point.
    split; [reflexivity | apply token_integer_format_coord].
Qed.

Lemma decode_encode_roundtrip_witness :
  exists tokens,
    TX0008_pos_str_to_list (tx_response_of [(100000, -200000, 50000)]) 6
    = Some tokens
    /\ length tokens = 3%nat
    /\ Forall2
         (fun v tok =>
            remove_point tok = format_coord v 6 true
            /\ token_integer (remove_point tok) = v)
         [100000; -200000; 50000] tokens.
Proof.
  apply (decode_encode_roundtrip 6 [100000; -200000; 50000]); [lia|].
  repeat constructor; unfold fits; simpl; lia.
Defined.

(** ** Motion model *)

Lemma position_offset_circle_yz cfg t w :
  motion_type cfg = "circle_yz"%string ->
  position_offset cfg t w = ((0, 0, 0)%R, w).
Proof. intros H. unfold position_offset. rewrite H. reflexivity. Qed.

Lemma position_offset_circle_xy cfg t w :
  motion_type cfg = "circle_xy"%string ->
  position_offset cfg t w
  = ((amplitude cfg * cos (t * frequency cfg + phase cfg),
      amplitude cfg * sin (t * frequency cfg + phase cfg), 0)%R, w).
Proof. intros H. unfold position_offset. rewrite H. reflexivity. Qed.

(** C5 fails on the code: [get_position] has no branch for ["circle_yz"], so
    the configuration of [test_virtual_spheres] with that motion type gets
    the offset of the final [else], [(0, 0, 0)], at every elapsed time: the
    point does not move on the circle of radius [amplitude] in the y-z plane.
    The sibling ["circle_xy"] does trace its circle, with a zero third axis. *)
Theorem circle_yz_offset_is_zero (t : R) (w : world) :
  position_offset (quick_test_config "circle_yz") t w = ((0, 0, 0)%R, w)
  /\ (let '(dx, dy, dz) := fst (position_offset (quick_test_config "circle_yz") t w) in
      (dy * dy + dz * dz)%R <> (100000 * 100000)%R)
  /\ (let '(dx, dy, dz) := fst (position_offset (quick_test_config "circle_xy") t w) in
      (dx * dx + dy * dy)%R = (100000 * 100000)%R /\ dz = 0%R).
Proof.
  split; [apply position_offset_circle_yz; reflexivity|].
  split.
  - rewrite position_offset_circle_yz by reflexivity. simpl. lra.
  - rewrite position_offset_circle_xy by reflexivity. simpl. split; [|reflexivity].
    pose proof (sin2_cos2 (t * (1 / 2) + 0)) as H. unfold Rsqr in H.
    set (s := sin (t * (1 / 2) + 0)) in *. set (c := cos (t * (1 / 2) + 0)) in *.
    replace (100000 * c * (100000 * c) + 100000 * s * (100000 * s))%R
      with (100000 * 100000 * (s * s + c * c))%R by ring.
    rewrite H. ring.
Qed.

(** ** Scheduler *)

Section runner.

Import sim_runner.

Lemma is_pressed_fired key m :
  tick m ∈ _fired m -> is_pressed key m = (false, m).
Proof.
  intros Hin. unfold is_pressed.
  rewrite (bool_decide_eq_false_2 (tick m ∉ _fired m)) by auto.
  rewrite andb_false_r. reflexivity.
Qed.

Lemma is_pressed_other key want m :
  schedule m !! tick m = Some want -> key <> want ->
  is_pressed key m = (false, m).
Proof.
  intros Hs Hne. unfold is_pressed.
  rewrite bool_decide_eq_false_2; [reflexivity|].
  rewrite Hs. intros [=]. congruence.
Qed.

Lemma is_pressed_fires key m :
  schedule m !! tick m = Some key -> tick m ∉ _fired m ->
  is_pressed key m
  = (true, {| schedule := schedule m; tick := tick m;
              _fired := {[tick m]} ∪ _fired m;
              _history := _history m ++ [(tick m, key)] |}).
Proof.
  intros Hs Hnf. unfold is_pressed.
  rewrite !bool_decide_eq_true_2 by assumption. reflexivity.
Qed.

(** A query answers [True] only by marking the tick as fired, and never
    moves the tick. *)
Lemma is_pressed_true key m :
  fst (is_pressed key m) = true ->
  tick (snd (is_pressed key m)) = tick m
  /\ tick m ∈ _fired (snd (is_pressed key m)).
Proof.
  unfold is_pressed.
  destruct (bool_decide _ && bool_decide _); simpl; [|discriminate].
  intros _. split; [reflexivity | set_solver].
Qed.

Lemma is_pressed_false key m :
  fst (is_pressed key m) = false -> snd (is_pressed key m) = m.
Proof.
  unfold is_pressed.
  destruct (bool_decide _ && bool_decide _); simpl; [discriminate | reflexivity].
Qed.

Lemma queries_fired keys : forall m,
  tick m ∈ _fired m -> queries keys m = (repeat false (length keys), m).
Proof.
  induction keys as [|key rest IH]; intros m Hin; [reflexivity|].
  simpl. rewrite is_pressed_fired by exact Hin. rewrite IH by exact Hin.
  reflexivity.
Qed.

Lemma fired_count_repeat_false n : fired_count (repeat false n) = 0%nat.
Proof. induction n; [reflexivity | exact IHn]. Qed.

Lemma queries_at_most_once keys : forall m,
  (fired_count (fst (queries keys m)) <= 1)%nat.
Proof.
  induction keys as [|key rest IH]; intros m; [cbv; lia|].
  simpl. destruct (is_pressed key m) as [b m'] eqn:E.
  destruct b.
  - pose proof (is_pressed_true key m) as Ht. rewrite E in Ht.
    destruct (Ht eq_refl) as [Htick Hin]. simpl in Htick, Hin.
    rewrite queries_fired by (rewrite Htick; exact Hin).
    unfold fired_count. simpl. fold (fired_count (repeat false (length rest))).
    rewrite fired_count_repeat_false. lia.
  - destruct (queries rest m') as [bs m''] eqn:E'.
    specialize (IH m'). rewrite E' in IH. exact IH.
Qed.

Lemma tick_advance_n n m : tick (advance_n n m) = tick m + Z.of_nat n.
Proof.
  induction n as [|n IH]; [simpl; lia|].
  unfold advance_n in *. rewrite Nat.iter_succ. simpl. rewrite IH. lia.
Qed.

End runner.

Section flexible_runner.

Import sim_runner_flexible.

Lemma flexible_is_pressed_fired key m :
  tick m ∈ _fired m -> is_pressed key m = (false, m).
Proof.
  intros Hin. unfold is_pressed.
  rewrite (bool_decide_eq_false_2 (tick m ∉ _fired m)) by auto.
  rewrite andb_false_r. reflexivity.
Qed.

Lemma flexible_is_pressed_other key want m :
  schedule m !! tick m = Some want -> key <> want ->
  is_pressed key m = (false, m).
Proof.
  intros Hs Hne. unfold is_pressed.
  rewrite bool_decide_eq_false_2; [reflexivity|].
  rewrite Hs. intros [=]. congruence.
Qed.

Lemma flexible_is_pressed_fires key m :
  schedule m !! tick m = Some key -> tick m ∉ _fired m ->
  is_pressed key m
  = (true, {| schedule := schedule m; tick := tick m;
              _fired := {[tick m]} ∪ _fired m |}).
Proof.
  intros Hs Hnf. unfold is_pressed.
  rewrite !bool_decide_eq_true_2 by assumption. reflexivity.
Qed.

Lemma flexible_is_pressed_true key m :
  fst (is_pressed key m) = true ->
  tick (snd (is_pressed key m)) = tick m
  /\ tick m ∈ _fired (snd (is_pressed key m)).
Proof.
  unfold is_pressed.
  destruct (bool_decide _ && bool_decide _); simpl; [|discriminate].
  intros _. split; [reflexivity | set_solver].
Qed.

Lemma flexible_queries_fired keys : forall m,
  tick m ∈ _fired m -> queries keys m = (repeat false (length keys), m).
Proof.
  induction keys as [|key rest IH]; intros m Hin; [reflexivity|].
  simpl. rewrite flexible_is_pressed_fired by exact Hin.
  rewrite IH by exact Hin. reflexivity.
Qed.

Lemma flexible_queries_at_most_once keys : forall m,
  (fired_count (fst (queries keys m)) <= 1)%nat.
Proof.
  induction keys as [|key rest IH]; intros m; [cbv; lia|].
  simpl. destruct (is_pressed key m) as [b m'] eqn:E.
  destruct b.
  - pose proof (flexible_is_pressed_true key m) as Ht. rewrite E in Ht.
    destruct (Ht eq_refl) as [Htick Hin]. simpl in Htick, Hin.
    rewrite flexible_queries_fired by (rewrite Htick; exact Hin).
    unfold fired_count. simpl. fold (fired_count (repeat false (length rest))).
    rewrite fired_count_repeat_false. lia.
  - destruct (queries rest m') as [bs m''] eqn:E'.
    specialize (IH m'). rewrite E' in IH. exact IH.
Qed.

End flexible_runner.

(** Only ticks up to the current one have fired, so every tick is unfired
    when the counter reaches it. *)
Lemma mock_reachable_fired_past sched m :
  mock_reachable sched m ->
  forall x, x ∈ sim_runner._fired m -> x <= sim_runner.tick m.
Proof.
  induction 1 as [|m Hm IH|key m Hm IH]; intros x Hx.
  - simpl in Hx. set_solver.
  - simpl in *. specialize (IH x Hx). lia.
  - unfold sim_runner.is_pressed in *.
    destruct (bool_decide _ && bool_decide _); simpl in *; [|auto].
    apply elem_of_union in Hx as [Hx|Hx]; [|auto].
    apply elem_of_singleton in Hx. lia.
Qed.

Lemma mock_reachable_fresh_tick sched m :
  mock_reachable sched m ->
  sim_runner.tick (sim_runner.advance m)
  ∉ sim_runner._fired (sim_runner.advance m).
Proof.
  intros Hm Hin. simpl in Hin.
  pose proof (mock_reachable_fired_past sched m Hm _ Hin). lia.
Qed.

(** C6: while the tick counter stays at [t], the trigger query answers
    [True] at most once: the first query for the event mapped at [t] answers
    [True] and marks [t] as fired, every later query at that tick, for any
    event, answers [False], and no run of queries has more than one [True].
    With the schedule [{5: 'c'}] two queries for ['c'] at tick 5 answer
    [True] then [False]. Both runners behave so. *)
Theorem is_pressed_single_fire
    (m : sim_runner._KeyboardMock) (m' : sim_runner_flexible._KeyboardMock)
    (key : string) (keys : list string) :
  sim_runner.schedule m !! sim_runner.tick m = Some key ->
  sim_runner.tick m ∉ sim_runner._fired m ->
  sim_runner_flexible.schedule m' !! sim_runner_flexible.tick m' = Some key ->
  sim_runner_flexible.tick m' ∉ sim_runner_flexible._fired m' ->
  (fst (sim_runner.is_pressed key m) = true
   /\ sim_runner.tick (snd (sim_runner.is_pressed key m)) = sim_runner.tick m
   /\ sim_runner.tick m ∈ sim_runner._fired (snd (sim_runner.is_pressed key m))
   /\ fst (sim_runner.queries keys (snd (sim_runner.is_pressed key m)))
      = repeat false (length keys)
   /\ (forall ks m0, (fired_count (fst (sim_runner.queries ks m0)) <= 1)%nat)
   /\ fst (sim_runner.queries ["c"; "c"]%string example_mock) = [true; false])
  /\
  (fst (sim_runner_flexible.is_pressed key m') = true
   /\ sim_runner_flexible.tick (snd (sim_runner_flexible.is_pressed key m'))
      = sim_runner_flexible.tick m'
   /\ sim_runner_flexible.tick m'
      ∈ sim_runner_flexible._fired (snd (sim_runner_flexible.is_pressed key m'))
   /\ fst (sim_runner_flexible.queries keys
             (snd (sim_runner_flexible.is_pressed key m')))
      = repeat false (length keys)
   /\ (forall ks m0,
         (fired_count (fst (sim_runner_flexible.queries ks m0)) <= 1)%nat)
   /\ fst (sim_runner_flexible.queries ["c"; "c"]%string example_mock_flexible)
      = [true; false]).
Proof.
  intros Hs Hnf Hs' Hnf'. split.
  - rewrite (is_pressed_fires key m Hs Hnf). simpl.
    split; [reflexivity|]. split; [reflexivity|]. split; [set_solver|].
    split; [|split].
    + rewrite queries_fired by (simpl; set_solver). reflexivity.
    + intros ks m0. apply queries_at_most_once.
    + vm_compute. reflexivity.
  - rewrite (flexible_is_pressed_fires key m' Hs' Hnf'). simpl.
    split; [reflexivity|]. split; [reflexivity|]. split; [set_solver|].
    split; [|split].
    + rewrite flexible_queries_fired by (simpl; set_solver). reflexivity.
    + intros ks m0. apply flexible_queries_at_most_once.
    + vm_compute. reflexivity.
Qed.

Lemma is_pressed_single_fire_witness :
  fst (sim_runner.is_pressed "c" example_mock) = true
  /\ fst (sim_runner.queries ["e"; "c"]%string
            (snd (sim_runner.is_pressed "c" example_mock)))
     = [false; false]
  /\ fst (sim_runner_flexible.is_pressed "c" example_mock_flexible) = true.
Proof.
  pose proof (is_pressed_single_fire example_mock example_mock_flexible
                "c" ["e"; "c"]%string) as H.
  destruct H as [(H1 & _ & _ & H2 & _) (H3 & _)];
    [reflexivity | change (5 ∉ (∅ : gset Z)); apply not_elem_of_empty
    | reflexivity | change (5 ∉ (∅ : gset Z)); apply not_elem_of_empty |].
  split; [exact H1|]. split; [exact H2 | exact H3].
Defined.

(** C10: at a tick that maps to some event, a query for another event
    answers [False] and leaves the whole scheduler state unchanged, the fired
    set and the tick counter included, so the event is not consumed: when the
    tick has not fired yet, a later query at that tick for the mapped event
    still answers [True]. Both runners behave so. *)
Theorem is_pressed_other_key_frame
    (m : sim_runner._KeyboardMock) (m' : sim_runner_flexible._KeyboardMock)
    (key want : string) :
  key <> want ->
  sim_runner.schedule m !! sim_runner.tick m = Some want ->
  sim_runner_flexible.schedule m' !! sim_runner_flexible.tick m' = Some want ->
  (sim_runner.is_pressed key m = (false, m)
   /\ (sim_runner.tick m ∉ sim_runner._fired m ->
       fst (sim_runner.is_pressed want (snd (sim_runner.is_pressed key m)))
       = true))
  /\
  (sim_runner_flexible.is_pressed key m' = (false, m')
   /\ (sim_runner_flexible.tick m' ∉ sim_runner_flexible._fired m' ->
       fst (sim_runner_flexible.is_pressed want
              (snd (sim_runner_flexible.is_pressed key m')))
       = true)).
Proof.
  intros Hne Hs Hs'. split.
  - rewrite (is_pressed_other key want m Hs Hne). split; [reflexivity|].
    intros Hnf. simpl. rewrite (is_pressed_fires want m Hs Hnf). reflexivity.
  - rewrite (flexible_is_pressed_other key want m' Hs' Hne).
    split; [reflexivity|].
    intros Hnf. simpl. rewrite (flexible_is_pressed_fires want m' Hs' Hnf).
    reflexivity.
Qed.

Lemma is_pressed_other_key_frame_witness :
  sim_runner.is_pressed "e" example_mock = (false, example_mock)
  /\ fst (sim_runner.is_pressed "c"
            (snd (sim_runner.is_pressed "e" example_mock))) = true
  /\ sim_runner_flexible.is_pressed "e" example_mock_flexible
     = (false, example_mock_flexible).
Proof.
  pose proof (is_pressed_other_key_frame example_mock example_mock_flexible
                "e" "c") as H.
  destruct H as [[H1 H2] [H3 _]]; [discriminate | reflexivity | reflexivity |].
  split; [exact H1|]. split; [|exact H3].
  apply H2. change (5 ∉ (∅ : gset Z)). apply not_elem_of_empty.
Defined.

(** ** Renderer *)

Lemma display_reachable_enabled d :
  sim_runner.display_reachable d -> sim_runner.enabled d = true.
Proof.
  induction 1 as [|d Hd IH|lines d Hd IH]; simpl; [reflexivity | exact IH |].
  unfold sim_runner.update. rewrite IH. reflexivity.
Qed.

(** C7: when the new frame has fewer lines than the previous one, [update]
    writes the cursor-home sequence, then each new line after a
    clear-to-end-of-line, then exactly (previous length minus new length)
    trailing clear-to-end-of-line sequences, and it keeps the new frame as
    the previous frame; from five lines to two that is three trailing clears.
    This holds for the reader's display and for every display the test
    runner can have. *)
Theorem update_clears_stale_lines
    (lines : list str) (d : reader.SmoothDisplay) (d' : sim_runner.SmoothDisplay) :
  (length lines < length (reader.last_lines d))%nat ->
  sim_runner.display_reachable d' ->
  (length lines < length (sim_runner.last_lines d'))%nat ->
  reader.update lines d
  = ([CURSOR_HOME] ++ write_lines lines
     ++ repeat CLEAR_EOL_NL (length (reader.last_lines d) - length lines),
     {| reader.last_lines := lines |})
  /\ sim_runner.update lines d'
     = ([CURSOR_HOME] ++ write_lines lines
        ++ repeat CLEAR_EOL_NL (length (sim_runner.last_lines d') - length lines),
        {| sim_runner.last_lines := lines; sim_runner.enabled := true |})
  /\ (forall a b c e f x y,
        fst (reader.update [x; y] {| reader.last_lines := [a; b; c; e; f] |})
        = [CURSOR_HOME; CLEAR_EOL; x ++ [NL]; CLEAR_EOL; y ++ [NL];
           CLEAR_EOL_NL; CLEAR_EOL_NL; CLEAR_EOL_NL]).
Proof.
  intros Hlt Hreach Hlt'. split; [|split].
  - unfold reader.update.
    apply Nat.ltb_lt in Hlt. rewrite Hlt. rewrite <- app_assoc. reflexivity.
  - unfold sim_runner.update.
    rewrite (display_reachable_enabled d' Hreach).
    apply Nat.ltb_lt in Hlt'. rewrite Hlt'. rewrite <- app_assoc. reflexivity.
  - intros. reflexivity.
Qed.

Lemma update_clears_stale_lines_witness :
  reader.update [lit "x"; lit "y"]
    {| reader.last_lines := [lit "a"; lit "b"; lit "c"; lit "d"; lit "e"] |}
  = ([CURSOR_HOME; CLEAR_EOL; lit "x" ++ [NL]; CLEAR_EOL; lit "y" ++ [NL];
      CLEAR_EOL_NL; CLEAR_EOL_NL; CLEAR_EOL_NL],
     {| reader.last_lines := [lit "x"; lit "y"] |}).
Proof.
  apply (update_clears_stale_lines [lit "x"; lit "y"]
           {| reader.last_lines := [lit "a"; lit "b"; lit "c"; lit "d"; lit "e"] |}
           (snd (sim_runner.update [lit "a"; lit "b"; lit "c"]
                   sim_runner.SmoothDisplay_init))).
  - simpl. lia.
  - apply sim_runner.reach_update. apply sim_runner.reach_init.
  - simpl. lia.
Defined.

(** ** Simulator *)

Lemma mapM_each {A B} (f : A -> M B) (xs : list A) : forall w,
  Forall2 (fun x y => exists w', y = fst (f x w')) xs (fst (mapM f xs w)).
Proof.
  induction xs as [|x rest IH]; intros w; [constructor|].
  simpl. unfold bind.
  destruct (f x w) as [y w1] eqn:E.
  specialize (IH w1). destruct (mapM f rest w1) as [ys w2].
  simpl in *. constructor; [|exact IH].
  exists w. rewrite E. reflexivity.
Qed.

Lemma add_sphere_spheres cfg sim w :
  spheres (fst (add_sphere cfg sim w))
  = spheres sim
    ++ [{| config := cfg; start_time := time_source w (clock_reads w) |}].
Proof. reflexivity. Qed.

Lemma add_spheres_spheres cfgs : forall sim w,
  exists added,
    spheres (fst (add_spheres cfgs sim w)) = spheres sim ++ added
    /\ map config added = cfgs.
Proof.
  induction cfgs as [|cfg rest IH]; intros sim w.
  - exists []. simpl. rewrite app_nil_r. split; reflexivity.
  - simpl. unfold bind.
    destruct (add_sphere cfg sim w) as [sim1 w1] eqn:E.
    destruct (IH sim1 w1) as (added & Hsp & Hcfg).
    exists ({| config := cfg; start_time := time_source w (clock_reads w) |}
            :: added).
    split.
    + rewrite Hsp. replace sim1 with (fst (add_sphere cfg sim w)) by (rewrite E; reflexivity).
      rewrite add_sphere_spheres, <- app_assoc. reflexivity.
    + simpl. rewrite Hcfg. reflexivity.
Qed.

Lemma mapM_lookup {A B} (f : A -> M B) (xs : list A) : forall i x w,
  xs !! i = Some x ->
  fst (mapM f xs w) !! i = Some (fst (f x (snd (mapM f (firstn i xs) w)))).
Proof.
  induction xs as [|a rest IH]; intros i x w Hi; [discriminate Hi|].
  destruct i as [|i].
  - injection Hi as ->. simpl. unfold bind.
    destruct (f x w) as [y w1]. destruct (mapM f rest w1) as [ys w2].
    reflexivity.
  - simpl in Hi. specialize (IH i x).
    cbn [mapM firstn]. unfold bind.
    destruct (f a w) as [y w1].
    specialize (IH w1 Hi).
    destruct (mapM f rest w1) as [ys w2].
    destruct (mapM f (firstn i rest) w1) as [zs w3].
    exact IH.
Qed.

Lemma get_position_clock s w :
  clock_reads (snd (get_position s w)) = S (clock_reads w).
Proof.
  unfold get_position, bind, time_time.
  destruct (center (config s)) as [[cx cy] cz].
  assert (Hoff : forall t w0,
    clock_reads (snd (position_offset (config s) t w0)) = clock_reads w0).
  { intros t w0. unfold position_offset.
    repeat (match goal with
            | |- context [if ?b then _ else _] => destruct b
            end; try reflexivity). }
  match goal with
  | |- context [position_offset (config s) ?t ?w0] =>
      specialize (Hoff t w0);
      destruct (position_offset (config s) t w0) as [[[dx dy] dz] w1]
  end.
  simpl in Hoff. simpl. exact Hoff.
Qed.

Lemma get_all_positions_clock ss : forall w,
  clock_reads (snd (mapM get_position ss w)) = (clock_reads w + length ss)%nat.
Proof.
  induction ss as [|s ss IH]; intros w; [simpl; lia|].
  simpl. unfold bind.
  pose proof (get_position_clock s w) as Hc.
  destruct (get_position s w) as [p w1].
  specialize (IH w1). destruct (mapM get_position ss w1) as [ps w2].
  simpl in *. lia.
Qed.

Lemma get_position_sources s w :
  random_source (snd (get_position s w)) = random_source w
  /\ time_source (snd (get_position s w)) = time_source w.
Proof.
  unfold get_position, bind, time_time.
  destruct (center (config s)) as [[cx cy] cz].
  assert (Hoff : forall t w0,
    random_source (snd (position_offset (config s) t w0)) = random_source w0
    /\ time_source (snd (position_offset (config s) t w0)) = time_source w0).
  { intros t w0. unfold position_offset.
    repeat (match goal with
            | |- context [if ?b then _ else _] => destruct b
            end; try (split; reflexivity)). }
  match goal with
  | |- context [position_offset (config s) ?t ?w0] =>
      specialize (Hoff t w0);
      destruct (position_offset (config s) t w0) as [[[dx dy] dz] w1]
  end.
  simpl in Hoff. simpl. exact Hoff.
Qed.

Lemma get_all_positions_sources ss : forall w,
  random_source (snd (mapM get_position ss w)) = random_source w
  /\ time_source (snd (mapM get_position ss w)) = time_source w.
Proof.
  induction ss as [|s ss IH]; intros w; [split; reflexivity|].
  simpl. unfold bind.
  destruct (get_position_sources s w) as [Hr Ht].
  destruct (get_position s w) as [p w1]. simpl in Hr, Ht.
  destruct (IH w1) as [IHr IHt].
  destruct (mapM get_position ss w1) as [ps w2]. simpl in *.
  split; [rewrite IHr; exact Hr | rewrite IHt; exact Ht].
Qed.

Lemma get_position_still c st w :
  fst (get_position {| config := still_target c; start_time := st |} w) = c.
Proof.
  destruct c as [[a b] c]. unfold get_position, bind, ret. simpl.
  unfold random_uniform, bind, ret. simpl.
  match goal with
  | |- (int_of_float ?x, int_of_float ?y, int_of_float ?z) = _ =>
      replace x with (IZR a) by ring;
      replace y with (IZR b) by ring;
      replace z with (IZR c) by ring
  end.
  rewrite !int_of_float_IZR. reflexivity.
Qed.

Lemma still_positions ss : forall cs w,
  map config ss = map still_target cs ->
  fst (mapM get_position ss w) = cs.
Proof.
  induction ss as [|[cfg st] ss IH]; intros [|c cs] w Hmap;
    try discriminate Hmap; [reflexivity|].
  simpl in Hmap. injection Hmap as -> Hrest.
  simpl. unfold bind.
  pose proof (get_position_still c st w) as Hp.
  destruct (get_position {| config := still_target c; start_time := st |} w)
    as [p w1].
  specialize (IH cs w1 Hrest).
  destruct (mapM get_position ss w1) as [ps w2].
  simpl in *. subst. reflexivity.
Qed.

(** C8: after any sequence of [add_sphere] with no [clear], the simulator
    holds the targets in the order they were added, the targets already
    there keep their index, and [get_all_positions], in whatever state of the
    clock and of the random generator it is called, returns exactly one
    position per target, in the order of the targets: the position at index
    [i] is the one [get_position] returns for the target at index [i], called
    after the [i] targets before it, with the clock read [i] times since the
    call began. Targets that stand still without noise come back as their
    centers, in the order they were added. *)
Theorem positions_follow_insertion_order
    (cfgs : list SphereConfig) (sim : SphereSimulator) (w w2 : world) :
  let sim' := fst (add_spheres cfgs sim w) in
  map config (spheres sim') = map config (spheres sim) ++ cfgs
  /\ firstn (length (spheres sim)) (spheres sim') = spheres sim
  /\ map config (spheres (fst (add_spheres cfgs SphereSimulator_init w))) = cfgs
  /\ length (fst (get_all_positions sim' w2)) = length (spheres sim')
  /\ (forall i s,
        spheres sim' !! i = Some s ->
        let before :=
          snd (get_all_positions {| spheres := firstn i (spheres sim') |} w2) in
        fst (get_all_positions sim' w2) !! i = Some (fst (get_position s before))
        /\ clock_reads before = (clock_reads w2 + i)%nat
        /\ random_source before = random_source w2
        /\ time_source before = time_source w2)
  /\ (forall centers : list (Z * Z * Z),
        fst (get_all_positions
               (fst (add_spheres (map still_target centers)
                       SphereSimulator_init w)) w2)
        = centers).
Proof.
  intros sim'. subst sim'.
  destruct (add_spheres_spheres cfgs sim w) as (added & Hsp & Hcfg).
  destruct (add_spheres_spheres cfgs SphereSimulator_init w)
    as (added0 & Hsp0 & Hcfg0).
  pose proof (mapM_each get_position (spheres (fst (add_spheres cfgs sim w))) w2)
    as Hall.
  split; [rewrite Hsp, map_app, Hcfg; reflexivity|].
  split; [rewrite Hsp, firstn_app, Nat.sub_diag, firstn_all; simpl;
          apply app_nil_r|].
  split; [rewrite Hsp0; simpl; exact Hcfg0|].
  split; [symmetry; eapply Forall2_length; exact Hall|].
  split.
  - intros i s Hi before. subst before. unfold get_all_positions.
    cbn [spheres].
    split; [apply mapM_lookup; exact Hi|].
    split.
    { rewrite get_all_positions_clock, length_firstn.
      apply lookup_lt_Some in Hi. lia. }
    apply get_all_positions_sources.
  - intros centers. unfold get_all_positions.
    destruct (add_spheres_spheres (map still_target centers)
                SphereSimulator_init w) as (addedc & Hspc & Hcfgc).
    apply still_positions. rewrite Hspc. exact Hcfgc.
Qed.

(** ** Threads *)

(** C9 fails on the code: [is_pressed] and the ticker access the tick and
    the fired set with the lock held, but the patched [_sleep] of
    src/sim_runner.py loads and stores the tick without taking the lock, and
    so does a round of the ticker once [time.sleep] is patched. An increment
    can then be lost: a ticker round and a [_sleep] that both complete can
    leave the tick at 1, which two locked increments never do. *)
Theorem sleep_patch_bypasses_lock :
  (forall matches fires,
     threads.guarded false (threads.is_pressed_accesses matches fires) = true)
  /\ threads.guarded false (threads._ticker_accesses threads._real_sleep_accesses)
     = true
  /\ threads.guarded false threads._sleep_accesses = false
  /\ threads.guarded false (threads._ticker_accesses threads._sleep_accesses)
     = false
  /\ (exists m,
        threads.run [0; 0; 0; 1; 1; 1; 0; 0]%nat
          (threads.start 0
             [threads._ticker_accesses threads._real_sleep_accesses;
              threads._sleep_accesses])
        = Some m
        /\ threads.finished m = true
        /\ threads.shared_tick m = 1)
  /\ forallb (Z.eqb 2)
       (final_ticks
          [threads._ticker_accesses threads._real_sleep_accesses;
           threads._ticker_accesses threads._real_sleep_accesses]
          (two_thread_orders 10))
     = true
  /\ existsb (Z.eqb 1)
       (final_ticks
          [threads._ticker_accesses threads._real_sleep_accesses;
           threads._sleep_accesses]
          (two_thread_orders 8))
     = true.
Proof.
  split; [intros [] []; reflexivity|].
  do 3 (split; [reflexivity|]).
  split; [|split; vm_compute; reflexivity].
  eexists. split; [vm_compute; reflexivity|]. split; reflexivity.
Qed.

(** * Further components *)

(** ** Codec: values wider than the field *)

Lemma digits_msd_fuel f1 : forall f2 n,
  0 <= n < 10 ^ Z.of_nat (S f1) -> n < 10 ^ Z.of_nat (S f2) ->
  digits_msd (S f1) n = digits_msd (S f2) n.
Proof.
  induction f1 as [|f1 IH]; intros f2 n [Hn H1] H2.
  - change (10 ^ Z.of_nat 1) with 10 in H1.
    cbn [digits_msd]. destruct (Z.ltb_spec n 10) as [_|Hge]; [reflexivity|lia].
  - cbn [digits_msd]. destruct (Z.ltb_spec n 10) as [Hlt|Hge]; [reflexivity|].
    destruct f2 as [|f2]; [change (10 ^ Z.of_nat 1) with 10 in H2; lia|].
    replace (Z.of_nat (S (S f1))) with (Z.succ (Z.of_nat (S f1))) in H1 by lia.
    replace (Z.of_nat (S (S f2))) with (Z.succ (Z.of_nat (S f2))) in H2 by lia.
    rewrite Z.pow_succ_r in H1, H2 by lia.
    f_equal. apply IH.
    + split; [apply Z.div_pos; lia | apply Z.div_lt_upper_bound; lia].
    + apply Z.div_lt_upper_bound; lia.
Qed.

(** The digits of a number are those of its tenth, then its last digit. *)
Lemma decimal_step n :
  10 <= n -> decimal n = decimal (n / 10) ++ [digit_char (n mod 10)].
Proof.
  intros Hn. unfold decimal at 1.
  pose proof (decimal_fuel n ltac:(lia)) as Hf.
  destruct (Z.to_nat (Z.log2 n)) as [|k] eqn:Hk.
  { change (10 ^ Z.of_nat 1) with 10 in Hf. lia. }
  cbn [digits_msd].
  destruct (Z.ltb_spec n 10) as [Hlt|_]; [lia|].
  f_equal. unfold decimal.
  assert (Hdiv : 0 <= n / 10) by (apply Z.div_pos; lia).
  apply digits_msd_fuel.
  - split; [exact Hdiv|].
    replace (Z.of_nat (S (S k))) with (Z.succ (Z.of_nat (S k))) in Hf by lia.
    rewrite Z.pow_succ_r in Hf by lia.
    apply Z.div_lt_upper_bound; lia.
  - apply decimal_fuel. exact Hdiv.
Qed.

Lemma decimal_length_lb n N :
  10 ^ Z.of_nat N <= n -> (S N <= length (decimal n))%nat.
Proof.
  intros Hn.
  assert (0 <= n).
  { pose proof (Z.pow_pos_nonneg 10 (Z.of_nat N) ltac:(lia) ltac:(lia)). lia. }
  apply digits_msd_length_lb. split; [exact Hn | apply decimal_fuel; lia].
Qed.

(** X1. [format_coord] never truncates: a value whose absolute value needs
    more than [N] digits gets a token longer than [N + 1] characters, the sign
    and all its digits, which still reads back as the value. Without the sign
    a value and its opposite get the same token. *)
Theorem format_coord_widens (v : Z) (N : nat) :
  10 ^ Z.of_nat N <= Z.abs v ->
  format_coord v N true
  = (if 0 <=? v then "+"%char else "-"%char) :: decimal (Z.abs v)
  /\ (S N < length (format_coord v N true))%nat
  /\ token_integer (format_coord v N true) = v
  /\ format_coord (- v) N false = format_coord v N false.
Proof.
  intros Hv. pose proof (decimal_length_lb _ _ Hv) as Hlen.
  assert (Hshape : format_coord v N true
                   = (if 0 <=? v then "+"%char else "-"%char) :: decimal (Z.abs v)).
  { rewrite format_coord_shape.
    replace (N - length (decimal (Z.abs v)))%nat with 0%nat by lia. reflexivity. }
  split; [exact Hshape|]. split; [rewrite Hshape; simpl; lia|].
  split; [apply token_integer_format_coord|].
  unfold format_coord. rewrite Z.abs_opp. reflexivity.
Qed.

Lemma format_coord_widens_witness :
  format_coord 1234567 6 true = lit "+1234567"
  /\ (7 < length (format_coord 1234567 6 true))%nat
  /\ token_integer (format_coord 1234567 6 true) = 1234567
  /\ format_coord (- 1234567) 6 false = format_coord 1234567 6 false.
Proof.
  apply (format_coord_widens 1234567 6). simpl. lia.
Defined.

Lemma in_sign_digit c : is_digit c = true -> in_sign c = false.
Proof.
  intros Hd. unfold in_sign.
  destruct (Ascii.eqb c "+") eqn:E1.
  { apply Ascii.eqb_eq in E1. subst c. discriminate Hd. }
  destruct (Ascii.eqb c "-") eqn:E2; [|reflexivity].
  apply Ascii.eqb_eq in E2. subst c. discriminate Hd.
Qed.

Lemma format_coord_tail_no_sign v N :
  Forall (fun c => negb (in_sign c) = true)
    (repeat " "%char (N - length (decimal (Z.abs v))) ++ decimal (Z.abs v)).
Proof.
  apply Forall_app; split.
  - apply List.Forall_forall. intros c Hin. apply repeat_spec in Hin. subst c.
    reflexivity.
  - eapply List.Forall_impl; [|apply (decimal_digits (Z.abs v)); lia].
    intros c Hc. simpl in Hc. rewrite (in_sign_digit c Hc). reflexivity.
Qed.

Lemma forallb_Forall_true {A} (f : A -> bool) l :
  Forall (fun x => f x = true) l -> forallb f l = true.
Proof. induction 1 as [|x l Hx _ IH]; simpl; [reflexivity|]. rewrite Hx, IH. reflexivity. Qed.

(** An encoded token is a sign, [N] characters, and what does not fit the
    field, none of which is a sign. *)
Lemma format_coord_chunk v N :
  exists c body extra,
    format_coord v N true = c :: body ++ extra
    /\ in_sign c = true /\ length body = N
    /\ forallb (fun c' => negb (in_sign c')) extra = true
    /\ firstn (S N) (format_coord v N true) = c :: body.
Proof.
  rewrite format_coord_shape.
  set (tail := repeat " "%char (N - length (decimal (Z.abs v))) ++ decimal (Z.abs v)).
  assert (Hlen : (N <= length tail)%nat).
  { unfold tail. rewrite length_app, repeat_length. lia. }
  exists (if 0 <=? v then "+"%char else "-"%char), (firstn N tail), (skipn N tail).
  split; [rewrite firstn_skipn; reflexivity|].
  split; [destruct (0 <=? v); reflexivity|].
  split; [rewrite length_firstn; lia|].
  split; [|reflexivity].
  apply forallb_Forall_true.
  pose proof (format_coord_tail_no_sign v N) as Hall. fold tail in Hall.
  rewrite <- (firstn_skipn N tail) in Hall.
  apply Forall_app in Hall. apply Hall.
Qed.

Lemma decode_chunk c body extra s n :
  in_sign c = true -> length body = n ->
  forallb (fun c' => negb (in_sign c')) extra = true ->
  TX0008_pos_str_to_list ((c :: body ++ extra) ++ s) n
  = option_map (cons (insert_point (c :: body))) (TX0008_pos_str_to_list s n).
Proof.
  intros Hc Hlen Hextra.
  replace ((c :: body ++ extra) ++ s) with ((c :: body) ++ (extra ++ s))
    by (simpl; rewrite <- app_assoc; reflexivity).
  rewrite decode_token by assumption.
  rewrite decode_skip_prefix by exact Hextra. reflexivity.
Qed.

Lemma decode_joined_any N values :
  TX0008_pos_str_to_list
    (join (lit "|") (map (fun v => format_coord v N true) values) ++ lit "|END") N
  = Some (map (decoded_token N) values).
Proof.
  induction values as [|v rest IH]; [apply decode_end|].
  destruct (format_coord_chunk v N) as (c & body & extra & Hfc & Hc & Hlen & Hex & Hfirst).
  destruct rest as [|v' rest'].
  - cbn [map join]. rewrite Hfc.
    rewrite decode_chunk by assumption. rewrite decode_end.
    unfold decoded_token. rewrite Hfirst. reflexivity.
  - change (join (lit "|") (map (fun v => format_coord v N true) (v :: v' :: rest')))
      with (format_coord v N true ++ lit "|"
            ++ join (lit "|") (map (fun v => format_coord v N true) (v' :: rest'))).
    rewrite <- !app_assoc, Hfc.
    rewrite decode_chunk by assumption.
    rewrite (decode_skip_prefix (lit "|")) by reflexivity.
    rewrite IH. cbn [map option_map]. unfold decoded_token.
    rewrite Hfirst. reflexivity.
Qed.

Lemma decode_envelope_any N values :
  TX0008_pos_str_to_list
    (tx_envelope (map (fun v => format_coord v N true) values)) N
  = Some (map (decoded_token N) values).
Proof.
  unfold tx_envelope.
  rewrite (decode_skip_prefix (lit "TXRESP|OK|")) by reflexivity.
  apply decode_joined_any.
Qed.

Lemma decode_tx_response_of positions :
  TX0008_pos_str_to_list (tx_response_of positions) NUM_DIGIT
  = Some (map (decoded_token NUM_DIGIT) (flatten_positions positions)).
Proof. apply (decode_envelope_any 6). Qed.

Lemma flatten_positions_length positions :
  length (flatten_positions positions) = (3 * length positions)%nat.
Proof.
  unfold flatten_positions.
  induction positions as [|[[a b] c] rest IH]; [reflexivity|].
  simpl. rewrite IH. lia.
Qed.

(** X2. Whatever the integers and the digit width, decoding the encoded
    frame returns exactly one token per value, made of the first [N + 1]
    characters of the value's encoded token: the frame generated for a list
    of positions always decodes to three tokens per position. *)
Theorem decode_encode_count (N : nat) (values : list Z)
    (positions : list (Z * Z * Z)) :
  TX0008_pos_str_to_list
    (tx_envelope (map (fun v => format_coord v N true) values)) N
  = Some (map (decoded_token N) values)
  /\ exists tokens,
       TX0008_pos_str_to_list (tx_response_of positions) NUM_DIGIT = Some tokens
       /\ length tokens = (3 * length positions)%nat.
Proof.
  split; [apply decode_envelope_any|].
  exists (map (decoded_token NUM_DIGIT) (flatten_positions positions)).
  split; [apply decode_tx_response_of|].
  rewrite length_map. apply flatten_positions_length.
Qed.

Lemma firstn_no_point k (s : str) :
  Forall (fun c => negb (Ascii.eqb c ".") = true) s ->
  Forall (fun c => negb (Ascii.eqb c ".") = true) (firstn k s).
Proof.
  intros H. rewrite <- (firstn_skipn k s) in H. apply Forall_app in H. apply H.
Qed.

(** X3. A value one digit wider than the field is decoded without an error
    and without its last digit: for [10^N <= |v| < 10^(N+1)] the frame of [v]
    decodes to one token, and that token reads as [v] divided by ten, rounded
    towards zero. *)
Theorem decode_overflow_drops_digit (v : Z) (N : nat) :
  (1 <= N)%nat ->
  10 ^ Z.of_nat N <= Z.abs v < 10 ^ Z.of_nat (S N) ->
  TX0008_pos_str_to_list (tx_envelope [format_coord v N true]) N
  = Some [decoded_token N v]
  /\ token_integer (remove_point (decoded_token N v)) = Z.quot v 10
  /\ Z.quot v 10 <> v.
Proof.
  intros HN [Hlo Hhi].
  assert (Hten : 10 <= 10 ^ Z.of_nat N).
  { change 10 with (10 ^ 1) at 1. apply Z.pow_le_mono_r; lia. }
  split.
  { apply (decode_envelope_any N [v]). }
  assert (Hquot : Z.quot v 10
                  = if 0 <=? v then Z.abs v / 10 else - (Z.abs v / 10)).
  { destruct (Z.leb_spec 0 v) as [Hv|Hv].
    - rewrite Z.abs_eq by lia. apply Z.quot_div_nonneg; lia.
    - rewrite Z.abs_neq by lia.
      replace v with (- - v) at 1 by lia.
      rewrite Z.quot_opp_l by lia. f_equal. apply Z.quot_div_nonneg; lia. }
  split.
  - unfold decoded_token.
    rewrite remove_point_insert_point
      by (apply firstn_no_point, format_coord_no_point).
    rewrite format_coord_shape.
    pose proof (decimal_length_lb _ _ Hlo) as Hlen.
    replace (N - length (decimal (Z.abs v)))%nat with 0%nat by lia.
    cbn [repeat app firstn].
    rewrite decimal_step by lia.
    assert (Hdiv : 10 ^ Z.of_nat (N - 1) <= Z.abs v / 10 < 10 ^ Z.of_nat N).
    { replace (Z.of_nat (S N)) with (Z.succ (Z.of_nat N)) in Hhi by lia.
      rewrite Z.pow_succ_r in Hhi by lia.
      split; [|apply Z.div_lt_upper_bound; lia].
      apply Z.div_le_lower_bound; [lia|].
      rewrite <- Z.pow_succ_r by lia.
      replace (Z.succ (Z.of_nat (N - 1))) with (Z.of_nat N) by lia. exact Hlo. }
    assert (Hdlen : length (decimal (Z.abs v / 10)) = N).
    { pose proof (decimal_length (Z.abs v / 10) N) as Hub.
      pose proof (decimal_length_lb (Z.abs v / 10) (N - 1)) as Hlb.
      pose proof (Z.pow_pos_nonneg 10 (Z.of_nat (N - 1)) ltac:(lia) ltac:(lia)).
      specialize (Hub ltac:(lia) HN). specialize (Hlb ltac:(lia)). lia. }
    rewrite firstn_app, Hdlen, Nat.sub_diag, firstn_O, app_nil_r.
    rewrite <- Hdlen at 1. rewrite firstn_all.
    pose proof (Z.pow_pos_nonneg 10 (Z.of_nat (N - 1)) ltac:(lia) ltac:(lia)).
    rewrite Hquot. unfold token_integer.
    rewrite decimal_value by lia.
    destruct (0 <=? v); reflexivity.
  - rewrite Hquot. pose proof (Z.div_lt (Z.abs v) 10 ltac:(lia) ltac:(lia)).
    destruct (Z.leb_spec 0 v); lia.
Qed.

Lemma decode_overflow_drops_digit_witness :
  TX0008_pos_str_to_list (tx_envelope [format_coord 1234567 6 true]) 6
  = Some [decoded_token 6 1234567]
  /\ token_integer (remove_point (decoded_token 6 1234567)) = Z.quot 1234567 10
  /\ Z.quot 1234567 10 <> 1234567.
Proof.
  apply (decode_overflow_drops_digit 1234567 6); [lia | simpl; lia].
Defined.

(** ** Codec: what the decoder returns on any input *)

Lemma count_signs_skipn k s : (count_signs (skipn k s) <= count_signs s)%nat.
Proof.
  revert s. induction k as [|k IH]; intros s; [exact (le_n _)|].
  destruct s as [|c s]; [exact (le_n _)|].
  change (skipn (S k) (c :: s)) with (skipn k s).
  specialize (IH s). unfold count_signs in *. simpl.
  destruct (in_sign c); simpl; lia.
Qed.

Lemma insert_point_cons c s :
  exists t, insert_point (c :: s) = c :: t
            /\ length (insert_point (c :: s)) = S (S (length s))
            /\ In "."%char (insert_point (c :: s)).
Proof.
  unfold insert_point. exists (firstn 4 s ++ lit "." ++ skipn 5 (c :: s)).
  split; [reflexivity|]. split.
  - rewrite !length_app.
    pose proof (f_equal (@length ascii) (firstn_skipn 5 (c :: s))) as H.
    rewrite length_app in H. simpl length in *. lia.
  - apply in_or_app. right. left. reflexivity.
Qed.

Lemma decode_shape n : forall k s toks,
  (length s <= k)%nat ->
  TX0008_pos_str_to_list s n = Some toks ->
  Forall (token_shape n) toks /\ (length toks <= count_signs s)%nat.
Proof.
  induction k as [|k IH]; intros s toks Hk Hdec.
  - destruct s; [|simpl in Hk; lia]. injection Hdec as <-.
    split; [constructor | simpl; lia].
  - destruct s as [|c s].
    { injection Hdec as <-. split; [constructor | simpl; lia]. }
    simpl in Hk. destruct (in_sign c) eqn:Hc.
    + rewrite decode_sign in Hdec by exact Hc.
      destruct (TX0008_pos_str_to_list (skipn n s) n) as [rest|] eqn:Hrest;
        [|discriminate].
      injection Hdec as <-.
      destruct (IH (skipn n s) rest) as [Hall Hcount];
        [rewrite length_skipn; lia | exact Hrest |].
      split.
      * constructor; [|exact Hall].
        destruct (insert_point_cons c (firstn n s)) as (t & Ht & Hl & Hin).
        split; [exists c, t; split; [exact Ht | exact Hc]|].
        split; [|exact Hin].
        rewrite Hl, length_firstn. lia.
      * pose proof (count_signs_skipn n s) as Hs.
        unfold count_signs in *. simpl. rewrite Hc. simpl. lia.
    + rewrite decode_skip in Hdec by exact Hc.
      destruct (IH s toks) as [Hall Hcount]; [lia | exact Hdec |].
      split; [exact Hall|].
      unfold count_signs in *. simpl. rewrite Hc. exact Hcount.
Qed.

(** X4. On any input and any width [n] the decoder returns a list (it
    never raises); every token it returns starts with a sign, holds a decimal
    point and has between 2 and [n + 2] characters; there are no more tokens
    than signs in the input, so an input without a sign decodes to the empty
    list. *)
Theorem decode_tokens_shape (s : str) (n : nat) :
  exists toks,
    TX0008_pos_str_to_list s n = Some toks
    /\ Forall (token_shape n) toks
    /\ (length toks <= count_signs s)%nat
    /\ (count_signs s = 0%nat -> toks = []).
Proof.
  destruct (decode_total s n) as [toks Hdec]. exists toks.
  destruct (decode_shape n (length s) s toks (le_n _) Hdec) as [Hall Hcount].
  split; [exact Hdec|]. split; [exact Hall|]. split; [exact Hcount|].
  intros H0. destruct toks; [reflexivity | simpl in Hcount; lia].
Qed.

(** ** The main loop of the reader *)

Section reader_loop.
Import reader_main.

Lemma build_spheres_multiple k : forall fuel toks acc,
  length toks = (3 * k)%nat -> (k <= fuel)%nat ->
  exists sl,
    build_spheres fuel toks acc = Some (Returns (acc ++ sl))
    /\ sphere_tokens sl = toks /\ length sl = k.
Proof.
  induction k as [|k IH]; intros fuel toks acc Hlen Hfuel.
  - destruct toks; [|discriminate Hlen]. exists [].
    destruct fuel; simpl; rewrite app_nil_r; repeat split; reflexivity.
  - destruct toks as [|a [|b [|c rest]]]; try (simpl in Hlen; lia).
    destruct fuel as [|fuel]; [lia|].
    destruct (IH fuel rest (acc ++ [{| x := a; y := b; z := c |}]))
      as (sl & Hb & Htok & Hl); [simpl in Hlen; lia | lia |].
    exists ({| x := a; y := b; z := c |} :: sl).
    split; [|split; [simpl; rewrite Htok; reflexivity | simpl; lia]].
    cbn [build_spheres]. unfold NUM_DIMEN.
    change (Sphere_init (firstn 3 (a :: b :: c :: rest)))
      with (Returns {| x := a; y := b; z := c |}).
    change (skipn 3 (a :: b :: c :: rest)) with rest.
    cbv iota. rewrite Hb, <- app_assoc. reflexivity.
Qed.

Lemma build_spheres_short k : forall fuel toks acc,
  (length toks = 3 * k + 1 \/ length toks = 3 * k + 2)%nat ->
  (k < fuel)%nat ->
  build_spheres fuel toks acc = Some (Raises IndexError).
Proof.
  induction k as [|k IH]; intros fuel toks acc Hlen Hfuel.
  - destruct fuel as [|fuel]; [lia|].
    destruct toks as [|a [|b [|c rest]]]; simpl in Hlen; try lia; reflexivity.
  - destruct fuel as [|fuel]; [lia|].
    destruct toks as [|a [|b [|c rest]]]; try (simpl in Hlen; lia).
    cbn [build_spheres]. unfold NUM_DIMEN.
    change (Sphere_init (firstn 3 (a :: b :: c :: rest)))
      with (Returns {| x := a; y := b; z := c |}).
    change (skipn 3 (a :: b :: c :: rest)) with rest.
    cbv iota. apply IH; [simpl in Hlen; lia | lia].
Qed.

Lemma frame_spheres_of_tokens reply toks :
  TX0008_pos_str_to_list reply NUM_DIGIT = Some toks ->
  (length toks mod 3 = 0)%nat ->
  exists sl,
    frame_spheres reply = Some (Returns (Some sl))
    /\ sphere_tokens sl = toks /\ (3 * length sl = length toks)%nat.
Proof.
  intros Hdec Hmod. unfold frame_spheres. rewrite Hdec. unfold NUM_DIMEN.
  rewrite Hmod. cbn [Nat.eqb negb].
  pose proof (Nat.div_mod_eq (length toks) 3) as Hdiv. rewrite Hmod in Hdiv.
  destruct (build_spheres_multiple (length toks / 3) (length toks) toks [])
    as (sl & Hb & Htok & Hl); [lia | lia |].
  exists sl. rewrite Hb. simpl. repeat split; [exact Htok | lia].
Qed.

(** X5. The reader's main loop never fails on a reply, whatever it holds:
    when the number of decoded tokens is a multiple of three the loop builds
    one sphere per three tokens, in order, each token in exactly one sphere;
    otherwise the reply is skipped. The check is what keeps [Sphere] from
    raising: on a token list whose length is not a multiple of three the
    sphere-building loop raises [IndexError]. *)
Theorem frame_spheres_guard (reply : str) :
  exists toks,
    TX0008_pos_str_to_list reply NUM_DIGIT = Some toks
    /\ if (length toks mod 3 =? 0)%nat then
         exists sl,
           frame_spheres reply = Some (Returns (Some sl))
           /\ sphere_tokens sl = toks
           /\ (3 * length sl = length toks)%nat
       else
         frame_spheres reply = Some (Returns None)
         /\ forall acc,
              build_spheres (length toks) toks acc = Some (Raises IndexError).
Proof.
  destruct (decode_total reply NUM_DIGIT) as [toks Hdec]. exists toks.
  split; [exact Hdec|].
  destruct (Nat.eqb_spec (length toks mod 3) 0) as [Hmod|Hmod].
  - apply frame_spheres_of_tokens; assumption.
  - split.
    + unfold frame_spheres. rewrite Hdec. unfold NUM_DIMEN.
      destruct (Nat.eqb_spec (length toks mod 3) 0); [contradiction|reflexivity].
    + intros acc.
      pose proof (Nat.div_mod_eq (length toks) 3) as Hdiv.
      pose proof (Nat.mod_upper_bound (length toks) 3 ltac:(lia)) as Hub.
      apply (build_spheres_short (length toks / 3)); lia.
Qed.

Lemma sphere_tokens_position_sphere positions :
  sphere_tokens (map position_sphere positions)
  = map (decoded_token NUM_DIGIT) (flatten_positions positions).
Proof.
  unfold sphere_tokens, flatten_positions.
  induction positions as [|[[a b] c] rest IH]; [reflexivity|].
  simpl. rewrite IH. reflexivity.
Qed.

Lemma sphere_tokens_inj l1 : forall l2,
  sphere_tokens l1 = sphere_tokens l2 -> l1 = l2.
Proof.
  unfold sphere_tokens.
  induction l1 as [|[a b c] l1 IH]; intros [|[a' b' c'] l2] H;
    try discriminate H; [reflexivity|].
  simpl in H. injection H as -> -> -> H. f_equal. apply IH. exact H.
Qed.

Lemma frame_spheres_tx_response_of positions :
  frame_spheres (tx_response_of positions)
  = Some (Returns (Some (map position_sphere positions))).
Proof.
  destruct (frame_spheres_of_tokens (tx_response_of positions)
              (map (decoded_token NUM_DIGIT) (flatten_positions positions)))
    as (sl & Hf & Htok & _).
  - apply decode_tx_response_of.
  - rewrite length_map, flatten_positions_length.
    rewrite Nat.mul_comm. apply Nat.Div0.mod_mul.
  - rewrite Hf. do 3 f_equal. apply sphere_tokens_inj.
    rewrite Htok. symmetry. apply sphere_tokens_position_sphere.
Qed.

Lemma mapM_length {A B} (f : A -> M B) (xs : list A) w :
  length (fst (mapM f xs w)) = length xs.
Proof. symmetry. eapply Forall2_length. apply mapM_each. Qed.

(** X6. The simulated tracker and the reader agree on every frame: for a
    command starting with [TX:] the reply of [ndiCommand], whatever the
    targets, the clock and the random draws, is never skipped by the reader,
    which builds exactly one sphere per target from it, in the targets'
    order (none for a simulator just cleared); for any other command the
    reply is [OK], read as no sphere, and neither the clock nor the random
    generator is touched. *)
Theorem simulated_frame_spheres (sim : SphereSimulator) (cmd : str) (w : world) :
  let reply := fst (ndiCommand sim cmd w) in
  if startswith cmd (lit "TX:") then
    frame_spheres reply
    = Some (Returns (Some (map position_sphere (fst (get_all_positions sim w)))))
    /\ length (map position_sphere (fst (get_all_positions sim w)))
       = length (spheres sim)
    /\ fst (ndiCommand (clear sim) cmd w) = lit "TXRESP|OK||END"
  else
    ndiCommand sim cmd w = (lit "OK", w)
    /\ frame_spheres reply = Some (Returns (Some [])).
Proof.
  intros reply. subst reply. unfold ndiCommand.
  destruct (startswith cmd (lit "TX:")); [|split; reflexivity].
  unfold generate_tx_response, bind.
  destruct (get_all_positions sim w) as [positions w'] eqn:Hpos.
  cbn [fst ret].
  split; [apply frame_spheres_tx_response_of|].
  split; [|reflexivity].
  rewrite length_map.
  change positions with (fst (positions, w')). rewrite <- Hpos.
  apply mapM_length.
Qed.

Lemma sphere_lines_length sl : forall idx,
  length (sphere_lines idx sl) = (2 * length sl)%nat.
Proof.
  induction sl as [|s sl IH]; intros idx; [reflexivity|].
  cbn [sphere_lines length app]. rewrite IH. lia.
Qed.

Lemma format_sphere_display_length sl picked :
  length (format_sphere_display sl picked) = (11 + 2 * length sl)%nat.
Proof.
  unfold format_sphere_display.
  rewrite !length_app, sphere_lines_length. simpl. lia.
Qed.

Lemma rjust_length width s :
  length (rjust width s) = Nat.max width (length s).
Proof. unfold rjust. rewrite length_app, repeat_length. lia. Qed.

(** X7. The screen of the reader has eleven fixed lines and two lines per
    sphere, so when a frame holds fewer spheres than the one before,
    [SmoothDisplay.update] ends its output with exactly two clearing writes
    per sphere that went away, and with none when no sphere went away. *)
Theorem format_sphere_display_redraw
    (before after : list Sphere) (p1 p2 : nat) (d : reader.SmoothDisplay) :
  let d1 := snd (reader.update (format_sphere_display before p1) d) in
  length (format_sphere_display after p2) = (11 + 2 * length after)%nat
  /\ fst (reader.update (format_sphere_display after p2) d1)
     = [CURSOR_HOME] ++ write_lines (format_sphere_display after p2)
       ++ repeat CLEAR_EOL_NL (2 * (length before - length after)).
Proof.
  intros d1. subst d1. split; [apply format_sphere_display_length|].
  unfold reader.update. cbn [fst snd reader.last_lines].
  rewrite !format_sphere_display_length.
  destruct (Nat.ltb_spec (11 + 2 * length after) (11 + 2 * length before))
    as [Hlt|Hge].
  - rewrite <- app_assoc. do 3 f_equal. lia.
  - replace (2 * (length before - length after))%nat with 0%nat by lia.
    simpl. rewrite app_nil_r. reflexivity.
Qed.

Lemma frame_spheres_tokens reply sl :
  frame_spheres reply = Some (Returns (Some sl)) ->
  TX0008_pos_str_to_list reply NUM_DIGIT = Some (sphere_tokens sl).
Proof.
  intros Hf. destruct (decode_total reply NUM_DIGIT) as [toks Hdec].
  destruct (Nat.eqb_spec (length toks mod 3) 0) as [Hmod|Hmod].
  - destruct (frame_spheres_of_tokens reply toks Hdec Hmod) as (sl' & Hf' & Htok & _).
    rewrite Hf in Hf'. injection Hf' as <-. rewrite Htok. exact Hdec.
  - unfold frame_spheres in Hf. rewrite Hdec in Hf. unfold NUM_DIMEN in Hf.
    destruct (Nat.eqb_spec (length toks mod 3) 0); [contradiction|].
    discriminate Hf.
Qed.

(** X8. Whatever the reply, the coordinate line the reader prints for a
    sphere it built has exactly 53 characters: a decoded token has at most
    eight characters, fewer than the twelve of its column, so the three
    columns never shift; and the three tokens of every sphere start with a
    sign. *)
Theorem coordinate_lines_aligned (reply : str) (sl : list Sphere) :
  frame_spheres reply = Some (Returns (Some sl)) ->
  Forall (fun s => length (coordinate_line s) = 53%nat
                   /\ token_shape NUM_DIGIT (x s)
                   /\ token_shape NUM_DIGIT (y s)
                   /\ token_shape NUM_DIGIT (z s)) sl.
Proof.
  intros Hf. apply frame_spheres_tokens in Hf.
  destruct (decode_shape NUM_DIGIT _ reply _ (le_n _) Hf) as [Hall _].
  clear Hf. unfold sphere_tokens in Hall.
  induction sl as [|s sl IH]; [constructor|].
  cbn [flat_map app] in Hall.
  inversion Hall as [|? ? Hx Hall1]; subst.
  inversion Hall1 as [|? ? Hy Hall2]; subst.
  inversion Hall2 as [|? ? Hz Hall3]; subst.
  constructor; [|apply IH; exact Hall3].
  split; [|split; [exact Hx | split; [exact Hy | exact Hz]]].
  destruct Hx as (_ & Hlx & _), Hy as (_ & Hly & _), Hz as (_ & Hlz & _).
  unfold NUM_DIGIT in *. unfold coordinate_line.
  rewrite !length_app, !rjust_length. simpl length. lia.
Qed.

Lemma coordinate_lines_aligned_witness :
  Forall (fun s => length (coordinate_line s) = 53%nat
                   /\ token_shape NUM_DIGIT (x s)
                   /\ token_shape NUM_DIGIT (y s)
                   /\ token_shape NUM_DIGIT (z s))
    [position_sphere (100000, -200000, 50000)].
Proof.
  apply (coordinate_lines_aligned (tx_response_of [(100000, -200000, 50000)])).
  vm_compute. reflexivity.
Defined.

End reader_loop.

(** ** Motion: how far a target moves *)

Lemma int_of_float_abs r : (IZR (Z.abs (int_of_float r)) <= Rabs r)%R.
Proof.
  unfold int_of_float. destruct (Rle_dec 0 r) as [Hr|Hr].
  - pose proof (Zfloor_bound r) as [Hlb _].
    pose proof (Zfloor_lub 0 r Hr) as H0.
    rewrite Z.abs_eq by exact H0. rewrite Rabs_pos_eq by exact Hr. exact Hlb.
  - assert (Hneg : (r < 0)%R) by lra.
    pose proof (Zceil_bound r) as [Hlo Hhi].
    assert (H0 : Zceil r <= 0).
    { destruct (Z_le_gt_dec (Zceil r) 0) as [H|H]; [exact H|].
      assert (H1 : 1 <= Zceil r) by lia. apply IZR_le in H1. lra. }
    rewrite Z.abs_neq by exact H0. rewrite opp_IZR.
    rewrite Rabs_left by exact Hneg. lra.
Qed.

Lemma random_uniform_bounds a b w :
  unit_draws w -> (a <= b)%R ->
  (a <= fst (random_uniform a b w) <= b)%R
  /\ random_source (snd (random_uniform a b w)) = random_source w.
Proof.
  intros Hw Hab. unfold random_uniform, bind, random_random, ret. simpl.
  split; [|reflexivity].
  pose proof (Hw (random_draws w)) as Hu. nra.
Qed.

Lemma scaled_sin_bounds a u : (0 <= a)%R -> (- a <= a * sin u <= a)%R.
Proof. intros Ha. pose proof (SIN_bound u). nra. Qed.

Lemma scaled_cos_bounds a u : (0 <= a)%R -> (- a <= a * cos u <= a)%R.
Proof. intros Ha. pose proof (COS_bound u). nra. Qed.



Lemma coordinate_bound c d n a m :
  (- a <= d <= a)%R -> (- m <= n <= m)%R ->
  (IZR (Z.abs (int_of_float (c + d + n))) <= Rabs c + a + m)%R.
Proof.
  intros Hd Hn. eapply Rle_trans; [apply int_of_float_abs|].
  eapply Rle_trans; [apply Rabs_triang|].
  eapply Rle_trans; [apply Rplus_le_compat_r, Rabs_triang|].
  assert (Rabs d <= a)%R by (apply Rabs_le; lra).
  assert (Rabs n <= m)%R by (apply Rabs_le; lra).
  lra.
Qed.


(** Truncation moves a number by less than one. *)
Lemma int_of_float_near r : (Rabs (IZR (int_of_float r) - r) < 1)%R.
Proof.
  unfold int_of_float. destruct (Rle_dec 0 r) as [Hr|Hr].
  - pose proof (Zfloor_bound r) as [Hlo Hhi].
    apply Rabs_def1; lra.
  - pose proof (Zceil_bound r) as [Hlo Hhi].
    apply Rabs_def1; lra.
Qed.

Lemma constant_world_unit_draws now u :
  (0 <= u <= 1)%R -> unit_draws (constant_world now u).
Proof. intros Hu k. exact Hu. Qed.

(** X10. On a spiral the distance of the offset from the axis is
    [amplitude * (1 + t / 10)] at elapsed time [t]: it is the amplitude at
    the start and, for a positive amplitude, exceeds any bound at some later
    time. *)
Theorem spiral_radius_grows (cfg : SphereConfig) (w : world) (B : R) :
  motion_type cfg = "spiral"%string -> (0 < amplitude cfg)%R ->
  (forall t,
     let '(dx, dy, _) := fst (position_offset cfg t w) in
     (dx * dx + dy * dy
      = (amplitude cfg * (1 + t / 10)) * (amplitude cfg * (1 + t / 10)))%R)
  /\ exists t, (0 <= t)%R
       /\ let '(dx, dy, _) := fst (position_offset cfg t w) in
          (B * B < dx * dx + dy * dy)%R.
Proof.
  intros Hm Ha.
  assert (Hsq : forall t,
    let '(dx, dy, _) := fst (position_offset cfg t w) in
    (dx * dx + dy * dy
     = (amplitude cfg * (1 + t / 10)) * (amplitude cfg * (1 + t / 10)))%R).
  { intros t. unfold position_offset. rewrite Hm. simpl.
    pose proof (sin2_cos2 (t * frequency cfg + phase cfg)) as Hsc.
    unfold Rsqr in Hsc.
    set (c := cos (t * frequency cfg + phase cfg)) in *.
    set (sn := sin (t * frequency cfg + phase cfg)) in *.
    replace (amplitude cfg * (1 + 1 / 10 * t) * c
               * (amplitude cfg * (1 + 1 / 10 * t) * c)
             + amplitude cfg * (1 + 1 / 10 * t) * sn
               * (amplitude cfg * (1 + 1 / 10 * t) * sn))%R
      with ((amplitude cfg * (1 + 1 / 10 * t)) * (amplitude cfg * (1 + 1 / 10 * t))
            * (sn * sn + c * c))%R by ring.
    rewrite Hsc. field. }
  split; [exact Hsq|].
  exists (10 * (Rabs B / amplitude cfg))%R.
  assert (HB : (0 <= Rabs B)%R) by apply Rabs_pos.
  assert (Hq : (0 <= Rabs B / amplitude cfg)%R).
  { apply Rmult_le_pos; [exact HB|]. left. apply Rinv_0_lt_compat. exact Ha. }
  split; [lra|].
  specialize (Hsq (10 * (Rabs B / amplitude cfg))%R).
  destruct (fst (position_offset cfg (10 * (Rabs B / amplitude cfg)) w))
    as [[dx dy] dz].
  rewrite Hsq.
  replace (amplitude cfg * (1 + 10 * (Rabs B / amplitude cfg) / 10))%R
    with (amplitude cfg + Rabs B)%R by (field; lra).
  assert (B * B = Rabs B * Rabs B)%R.
  { unfold Rabs. destruct (Rcase_abs B); ring. }
  nra.
Qed.

Lemma spiral_radius_grows_witness :
  let cfg := quick_test_config "spiral" in
  let w := constant_world 0 0 in
  (forall t,
     let '(dx, dy, _) := fst (position_offset cfg t w) in
     (dx * dx + dy * dy
      = (amplitude cfg * (1 + t / 10)) * (amplitude cfg * (1 + t / 10)))%R)
  /\ exists t, (0 <= t)%R
       /\ let '(dx, dy, _) := fst (position_offset cfg t w) in
          (1000000 * 1000000 < dx * dx + dy * dy)%R.
Proof.
  intros cfg w.
  apply (spiral_radius_grows cfg w 1000000); [reflexivity | simpl; lra].
Defined.

(** ** Frames of targets that stay within the field *)

Lemma mapM_each_inv {A B} (f : A -> M B) (P : world -> Prop) :
  (forall a w, P w -> P (snd (f a w))) ->
  forall xs w, P w ->
    Forall2 (fun a b => exists w', P w' /\ b = fst (f a w'))
      xs (fst (mapM f xs w)).
Proof.
  intros Hinv. induction xs as [|a rest IH]; intros w Hw; [constructor|].
  simpl. unfold bind.
  pose proof (Hinv a w Hw) as Hw1.
  destruct (f a w) as [b w1] eqn:E. simpl in Hw1.
  specialize (IH w1 Hw1). destruct (mapM f rest w1) as [ys w2].
  simpl in *. constructor; [|exact IH].
  exists w. split; [exact Hw|]. rewrite E. reflexivity.
Qed.


Lemma fits_of_bound v r :
  (IZR (Z.abs v) <= r)%R -> (r < 1000000)%R -> fits 6 v.
Proof.
  intros H1 H2. unfold fits. change (10 ^ Z.of_nat 6) with 1000000.
  apply lt_IZR. lra.
Qed.



Lemma decoded_token_reads v :
  fits 6 v ->
  remove_point (decoded_token 6 v) = format_coord v 6 true
  /\ length (format_coord v 6 true) = 7%nat
  /\ token_integer (remove_point (decoded_token 6 v)) = v.
Proof.
  intros Hfit.
  pose proof (format_coord_length v 6 ltac:(lia) Hfit) as Hlen.
  assert (H : remove_point (decoded_token 6 v) = format_coord v 6 true).
  { unfold decoded_token. rewrite <- Hlen, firstn_all.
    apply remove_point_insert_point, format_coord_no_point. }
  split; [exact H|]. split; [exact Hlen|].
  rewrite H. apply token_integer_format_coord.
Qed.

Lemma flatten_positions_fit positions :
  Forall (position_fits 6) positions ->
  Forall (fits 6) (flatten_positions positions).
Proof.
  unfold flatten_positions.
  induction 1 as [|[[a b] c] rest (Ha & Hb & Hc) _ IH]; [constructor|].
  simpl. repeat constructor; assumption.
Qed.





(** ** Runs of the scheduler *)

Lemma increasing_snoc l : forall x,
  increasing l -> Forall (fun y => y < x) l -> increasing (l ++ [x]).
Proof.
  induction l as [|a rest IH]; intros x Hinc Hall; [exact I|].
  inversion Hall as [|? ? Ha Hrest]; subst.
  destruct rest as [|b rest'].
  - simpl. split; [exact Ha | exact I].
  - destruct Hinc as [Hab Hinc].
    change (a < b /\ increasing ((b :: rest') ++ [x])).
    split; [exact Hab | apply IH; assumption].
Qed.

(** A query that overlaps a patched sleep: whatever the schedule and the
    tick [T], when the key asked for is the one of [T] and [T + 1] has not
    fired, the sleep of another thread may move the tick between the two
    readings of the query, which then records the event at [T + 1]. *)
Lemma patched_query_overlaps_sleep
    (m : patched.machine) (key : string)
    (rest0 rest1 : list patched.op) (r0 r1 : Z) (bs0 bs1 : list bool) :
  patched.lock m = None ->
  patched.pool m
  = [{| patched.code := patched.is_pressed key ++ rest0;
        patched.reg := r0; patched.answers := bs0 |};
     {| patched.code := patched._sleep ++ rest1;
        patched.reg := r1; patched.answers := bs1 |}] ->
  patched.schedule m !! patched.tick m = Some key ->
  patched.tick m + 1 ∉ patched._fired m ->
  exists final,
    patched.run [0; 0; 1; 1; 0; 0; 0; 0]%nat m = Some final
    /\ patched.tick final = patched.tick m + 1
    /\ patched._history final
       = patched._history m ++ [(patched.tick m + 1, key)]
    /\ patched._fired final = {[patched.tick m + 1]} ∪ patched._fired m
    /\ patched.answers_of 0 final = bs0 ++ [true].
Proof.
  intros Hlock Hpool Hwant Hfresh.
  destruct m as [sched t fired hist lk pl]. simpl in *. subst lk pl.
  unfold patched.run, patched.step. simpl.
  rewrite (bool_decide_eq_true_2 _ Hwant). simpl.
  rewrite (bool_decide_eq_true_2 _ Hfresh). simpl.
  eexists. split; [reflexivity|]. simpl.
  repeat split; reflexivity.
Qed.

Lemma patched_records_unscheduled_tick :
  exists final,
    patched.run order_moved_tick (patched.start KEY_SCHEDULE runner_threads)
    = Some final
    /\ patched.answers_of 0 final = [true]
    /\ patched._history final = [(31, "c"%string)]
    /\ KEY_SCHEDULE !! 31 = None
    /\ bool_decide (30 ∈ patched._fired final) = false
    /\ bool_decide (31 ∈ patched._fired final) = true.
Proof.
  eexists. split; [vm_compute; reflexivity|].
  repeat split; vm_compute; reflexivity.
Qed.

(** X13. When every access to the scheduler is made with the lock held
    ([time.sleep] not patched), in every state the scheduler of the test
    runner reaches the history [get_history] returns tells exactly what
    fired: each entry is a tick with the key the schedule maps it to, no
    later than the current tick; the ticks of the entries are strictly
    increasing, so no tick is recorded twice; the fired set is the set of
    the recorded ticks; the schedule is never changed. With [time.sleep]
    patched, as the runner is set, this fails: the sleep of another thread
    moves the tick without the lock while a query holds it, so that a query
    for the key of the current tick [T] can record its event at [T + 1]; in
    a run from the start of the program the query for [c] made at tick 30
    of the runner's own schedule answers [True] and records the event at
    tick 31, to which the schedule maps no key, and marks tick 31, not tick
    30, as fired. *)
Theorem history_records_fired (sched : gmap Z string)
    (m : sim_runner._KeyboardMock) :
  mock_reachable sched m ->
  (sim_runner.schedule m = sched
   /\ sim_runner._fired m = list_to_set (map fst (get_history m))
   /\ Forall (fun e => sched !! fst e = Some (snd e)
                       /\ fst e <= sim_runner.tick m)
        (get_history m)
   /\ increasing (map fst (get_history m)))
  /\ (forall (pm : patched.machine) (key : string)
             (rest0 rest1 : list patched.op) (r0 r1 : Z)
             (bs0 bs1 : list bool),
        patched.lock pm = None ->
        patched.pool pm
        = [{| patched.code := patched.is_pressed key ++ rest0;
              patched.reg := r0; patched.answers := bs0 |};
           {| patched.code := patched._sleep ++ rest1;
              patched.reg := r1; patched.answers := bs1 |}] ->
        patched.schedule pm !! patched.tick pm = Some key ->
        patched.tick pm + 1 ∉ patched._fired pm ->
        exists final,
          patched.run [0; 0; 1; 1; 0; 0; 0; 0]%nat pm = Some final
          /\ patched.tick final = patched.tick pm + 1
          /\ patched._history final
             = patched._history pm ++ [(patched.tick pm + 1, key)]
          /\ patched._fired final
             = {[patched.tick pm + 1]} ∪ patched._fired pm
          /\ patched.answers_of 0 final = bs0 ++ [true])
  /\ (exists final,
        patched.run order_moved_tick
          (patched.start KEY_SCHEDULE runner_threads)
        = Some final
        /\ patched.answers_of 0 final = [true]
        /\ patched._history final = [(31, "c"%string)]
        /\ KEY_SCHEDULE !! 31 = None
        /\ bool_decide (30 ∈ patched._fired final) = false
        /\ bool_decide (31 ∈ patched._fired final) = true).
Proof.
  unfold get_history. intros Hm.
  split; [|split; [apply patched_query_overlaps_sleep
                  | apply patched_records_unscheduled_tick]].
  revert Hm.
  induction 1 as [|m Hm (Hs & Hf & Hall & Hinc)|key m Hm (Hs & Hf & Hall & Hinc)].
  - split; [reflexivity|]. split; [reflexivity|].
    split; [constructor | exact I].
  - simpl. split; [exact Hs|]. split; [exact Hf|]. split; [|exact Hinc].
    eapply List.Forall_impl; [|exact Hall].
    intros e [He Hle]. simpl. split; [exact He | lia].
  - unfold sim_runner.is_pressed.
    destruct (bool_decide (sim_runner.schedule m !! sim_runner.tick m = Some key))
      eqn:Hwant; [|simpl; auto].
    destruct (bool_decide (sim_runner.tick m ∉ sim_runner._fired m))
      eqn:Hfresh; [|simpl; auto].
    apply bool_decide_eq_true in Hwant, Hfresh. simpl.
    split; [exact Hs|]. split; [|split].
    + rewrite map_app, list_to_set_app_L, <- Hf. simpl.
      rewrite union_empty_r_L. apply union_comm_L.
    + apply Forall_app. split; [exact Hall|].
      constructor; [|constructor]. simpl. rewrite <- Hs. split; [exact Hwant | lia].
    + rewrite map_app. apply increasing_snoc; [exact Hinc|].
      apply List.Forall_forall. intros y Hy.
      assert (Hyf : y ∈ sim_runner._fired m).
      { rewrite Hf. apply elem_of_list_to_set. apply list_elem_of_In. exact Hy. }
      pose proof (mock_reachable_fired_past sched m Hm y Hyf) as Hle.
      assert (y <> sim_runner.tick m) by (intros ->; contradiction).
      simpl. lia.
Qed.


Lemma history_records_fired_witness :
  let m := snd (sim_runner.is_pressed "c" example_mock) in
  sim_runner.schedule m = {[ 5 := "c"%string ]}
  /\ sim_runner._fired m = list_to_set (map fst (get_history m))
  /\ Forall (fun e => ({[ 5 := "c"%string ]} : gmap Z string) !! fst e
                      = Some (snd e)
                      /\ fst e <= sim_runner.tick m)
       (get_history m)
  /\ increasing (map fst (get_history m)).
Proof.
  intros m. apply (history_records_fired {[ 5 := "c"%string ]} m).
  apply mock_query. unfold example_mock, advance_n. simpl.
  do 5 apply mock_advance. apply mock_init.
Defined.

Lemma is_pressed_grows key m :
  sim_runner.schedule (snd (sim_runner.is_pressed key m)) = sim_runner.schedule m
  /\ sim_runner.tick (snd (sim_runner.is_pressed key m)) = sim_runner.tick m
  /\ sim_runner._fired m ⊆ sim_runner._fired (snd (sim_runner.is_pressed key m))
  /\ (exists new, sim_runner._history (snd (sim_runner.is_pressed key m))
                  = sim_runner._history m ++ new)
  /\ forall t, t <> sim_runner.tick m ->
       t ∈ sim_runner._fired (snd (sim_runner.is_pressed key m)) ->
       t ∈ sim_runner._fired m.
Proof.
  unfold sim_runner.is_pressed.
  destruct (bool_decide _ && bool_decide _); simpl.
  - split; [reflexivity|]. split; [reflexivity|].
    split; [apply union_subseteq_r|]. split; [eexists; reflexivity|].
    intros t Ht Hin. apply elem_of_union in Hin as [Hin|Hin]; [|exact Hin].
    apply elem_of_singleton in Hin. contradiction.
  - split; [reflexivity|]. split; [reflexivity|].
    split; [reflexivity|].
    split; [exists []; rewrite app_nil_r; reflexivity | auto].
Qed.

Lemma flexible_is_pressed_grows key m :
  sim_runner_flexible.schedule (snd (sim_runner_flexible.is_pressed key m))
  = sim_runner_flexible.schedule m
  /\ sim_runner_flexible.tick (snd (sim_runner_flexible.is_pressed key m))
     = sim_runner_flexible.tick m
  /\ sim_runner_flexible._fired m
     ⊆ sim_runner_flexible._fired (snd (sim_runner_flexible.is_pressed key m))
  /\ forall t, t <> sim_runner_flexible.tick m ->
       t ∈ sim_runner_flexible._fired
             (snd (sim_runner_flexible.is_pressed key m)) ->
       t ∈ sim_runner_flexible._fired m.
Proof.
  unfold sim_runner_flexible.is_pressed.
  destruct (bool_decide _ && bool_decide _); simpl.
  - split; [reflexivity|]. split; [reflexivity|].
    split; [apply union_subseteq_r|].
    intros t Ht Hin. apply elem_of_union in Hin as [Hin|Hin]; [|exact Hin].
    apply elem_of_singleton in Hin. contradiction.
  - split; [reflexivity|]. split; [reflexivity|]. split; [reflexivity | auto].
Qed.

Lemma mock_steps_grow m m' t :
  mock_steps m m' ->
  sim_runner.schedule m' = sim_runner.schedule m
  /\ sim_runner.tick m <= sim_runner.tick m'
  /\ sim_runner._fired m ⊆ sim_runner._fired m'
  /\ (exists new, get_history m' = get_history m ++ new)
  /\ (t < sim_runner.tick m -> t ∉ sim_runner._fired m ->
      t ∉ sim_runner._fired m').
Proof.
  unfold get_history.
  induction 1 as [|m' Hm (Hs & Ht & Hf & (new & Hh) & Hmiss)
                  |key m' Hm (Hs & Ht & Hf & (new & Hh) & Hmiss)].
  - split; [reflexivity|]. split; [lia|]. split; [reflexivity|].
    split; [exists []; rewrite app_nil_r; reflexivity | auto].
  - simpl. split; [exact Hs|]. split; [lia|]. split; [exact Hf|].
    split; [exists new; exact Hh | exact Hmiss].
  - destruct (is_pressed_grows key m') as (Hs' & Ht' & Hf' & (new' & Hh') & Hold).
    split; [rewrite Hs'; exact Hs|].
    split; [rewrite Ht'; exact Ht|].
    split; [etrans; [exact Hf | exact Hf']|].
    split; [exists (new ++ new'); rewrite Hh', Hh, app_assoc; reflexivity|].
    intros Hlt Hnot Hin. apply (Hmiss Hlt Hnot).
    apply Hold; [lia | exact Hin].
Qed.

Lemma flexible_steps_grow m m' t :
  flexible_steps m m' ->
  sim_runner_flexible.schedule m' = sim_runner_flexible.schedule m
  /\ sim_runner_flexible.tick m <= sim_runner_flexible.tick m'
  /\ sim_runner_flexible._fired m ⊆ sim_runner_flexible._fired m'
  /\ (t < sim_runner_flexible.tick m -> t ∉ sim_runner_flexible._fired m ->
      t ∉ sim_runner_flexible._fired m').
Proof.
  induction 1 as [|m' Hm (Hs & Ht & Hf & Hmiss)
                  |key m' Hm (Hs & Ht & Hf & Hmiss)].
  - split; [reflexivity|]. split; [lia|]. split; [reflexivity | auto].
  - simpl. split; [exact Hs|]. split; [lia|]. split; [exact Hf | exact Hmiss].
  - destruct (flexible_is_pressed_grows key m') as (Hs' & Ht' & Hf' & Hold).
    split; [rewrite Hs'; exact Hs|].
    split; [rewrite Ht'; exact Ht|].
    split; [etrans; [exact Hf | exact Hf']|].
    intros Hlt Hnot Hin. apply (Hmiss Hlt Hnot).
    apply Hold; [lia | exact Hin].
Qed.

(** A patched sleep that overlaps a round of the ticker: the sleep loads
    the tick [T], the round brings it to [T + 2], the sleep stores [T + 1],
    so the tick goes back by one. *)
Lemma patched_sleep_overlaps_round
    (m : patched.machine)
    (rest0 rest1 : list patched.op) (r0 r1 : Z) (bs0 bs1 : list bool) :
  patched.lock m = None ->
  patched.pool m
  = [{| patched.code := patched._sleep ++ rest0;
        patched.reg := r0; patched.answers := bs0 |};
     {| patched.code := patched._ticker ++ rest1;
        patched.reg := r1; patched.answers := bs1 |}] ->
  exists mid final,
    patched.run [0; 1; 1; 1; 1; 1; 1; 1]%nat m = Some mid
    /\ patched.tick mid = patched.tick m + 2
    /\ patched.run [0%nat] mid = Some final
    /\ patched.tick final = patched.tick m + 1
    /\ patched._fired final = patched._fired m
    /\ patched._history final = patched._history m.
Proof.
  intros Hlock Hpool.
  destruct m as [sched t fired hist lk pl]. simpl in *. subst lk pl.
  unfold patched.run, patched.step. simpl.
  eexists. eexists. split; [reflexivity|]. simpl.
  split; [lia|]. split; [reflexivity|]. simpl.
  repeat split; reflexivity.
Qed.

(** With the patched sleep the tick goes back and an event is delivered
    late: the second sleep of the reader loads the tick at 29, a round of
    the ticker brings it to 31, the sleep stores 30, and the query then
    fires the event of tick 30. *)
Lemma patched_tick_goes_back :
  exists mid final,
    patched.run order_tick_passes (patched.start KEY_SCHEDULE runner_threads)
    = Some mid
    /\ patched.tick mid = 31
    /\ patched._history mid = []
    /\ patched.run order_late_query mid = Some final
    /\ patched.tick final = 30
    /\ patched.answers_of 0 final = [true]
    /\ patched._history final = [(30, "c"%string)].
Proof.
  eexists. eexists. split; [vm_compute; reflexivity|].
  split; [reflexivity|]. split; [reflexivity|].
  split; [vm_compute; reflexivity|].
  repeat split; vm_compute; reflexivity.
Qed.

(** X14. Along any run in which every access to the scheduler is made with
    the lock held (the flexible runner, and the test runner when
    [time.sleep] is not patched) the schedule stays the same, the tick never
    goes back and the fired set only grows (the history of the test runner
    only gets longer at its end); and an event is never delivered late: a
    tick already passed that had not fired never fires afterwards. With
    [time.sleep] patched, as the test runner is set, the tick does go back
    and an event is delivered late: a sleep that loaded the tick at [T]
    stores [T + 1] after a round of the ticker brought the tick to [T + 2];
    in a run from the start of the program with the runner's own schedule a
    sleep of the reader that loaded the tick at 29 stores 30 after the tick
    was 31, and the next query fires the event of tick 30. *)
Theorem missed_event_never_fires (m m' : sim_runner._KeyboardMock)
    (fm fm' : sim_runner_flexible._KeyboardMock) (t : Z) :
  mock_steps m m' -> flexible_steps fm fm' ->
  (sim_runner.schedule m' = sim_runner.schedule m
   /\ sim_runner.tick m <= sim_runner.tick m'
   /\ sim_runner._fired m ⊆ sim_runner._fired m'
   /\ (exists new, get_history m' = get_history m ++ new)
   /\ (t < sim_runner.tick m -> t ∉ sim_runner._fired m ->
       t ∉ sim_runner._fired m'))
  /\ (sim_runner_flexible.schedule fm' = sim_runner_flexible.schedule fm
      /\ sim_runner_flexible.tick fm <= sim_runner_flexible.tick fm'
      /\ sim_runner_flexible._fired fm ⊆ sim_runner_flexible._fired fm'
      /\ (t < sim_runner_flexible.tick fm ->
          t ∉ sim_runner_flexible._fired fm ->
          t ∉ sim_runner_flexible._fired fm'))
  /\ (forall (pm : patched.machine) (rest0 rest1 : list patched.op)
             (r0 r1 : Z) (bs0 bs1 : list bool),
        patched.lock pm = None ->
        patched.pool pm
        = [{| patched.code := patched._sleep ++ rest0;
              patched.reg := r0; patched.answers := bs0 |};
           {| patched.code := patched._ticker ++ rest1;
              patched.reg := r1; patched.answers := bs1 |}] ->
        exists mid final,
          patched.run [0; 1; 1; 1; 1; 1; 1; 1]%nat pm = Some mid
          /\ patched.tick mid = patched.tick pm + 2
          /\ patched.run [0%nat] mid = Some final
          /\ patched.tick final = patched.tick pm + 1
          /\ patched._fired final = patched._fired pm
          /\ patched._history final = patched._history pm)
  /\ (exists mid final,
        patched.run order_tick_passes
          (patched.start KEY_SCHEDULE runner_threads)
        = Some mid
        /\ patched.tick mid = 31
        /\ patched._history mid = []
        /\ patched.run order_late_query mid = Some final
        /\ patched.tick final = 30
        /\ patched.answers_of 0 final = [true]
        /\ patched._history final = [(30, "c"%string)]).
Proof.
  intros Hm Hfm.
  split; [apply mock_steps_grow; exact Hm|].
  split; [apply flexible_steps_grow; exact Hfm|].
  split; [apply patched_sleep_overlaps_round | apply patched_tick_goes_back].
Qed.

Lemma missed_event_never_fires_witness :
  let m := sim_runner.advance example_mock in
  let m' := snd (sim_runner.is_pressed "c" (sim_runner.advance m)) in
  let fm := sim_runner_flexible.advance example_mock_flexible in
  let fm' :=
    snd (sim_runner_flexible.is_pressed "c" (sim_runner_flexible.advance fm)) in
  (sim_runner.schedule m' = sim_runner.schedule m
   /\ sim_runner.tick m <= sim_runner.tick m'
   /\ sim_runner._fired m ⊆ sim_runner._fired m'
   /\ (exists new, get_history m' = get_history m ++ new)
   /\ (5 < sim_runner.tick m -> 5 ∉ sim_runner._fired m ->
       5 ∉ sim_runner._fired m'))
  /\ (sim_runner_flexible.schedule fm' = sim_runner_flexible.schedule fm
      /\ sim_runner_flexible.tick fm <= sim_runner_flexible.tick fm'
      /\ sim_runner_flexible._fired fm ⊆ sim_runner_flexible._fired fm'
      /\ (5 < sim_runner_flexible.tick fm ->
          5 ∉ sim_runner_flexible._fired fm ->
          5 ∉ sim_runner_flexible._fired fm')).
Proof.
  intros m m' fm fm'.
  pose proof (missed_event_never_fires m m' fm fm' 5) as H.
  destruct H as (H1 & H2 & _).
  - apply steps_query. apply steps_advance. apply steps_none.
  - apply flexible_query. apply flexible_advance. apply flexible_none.
  - split; [exact H1 | exact H2].
Defined.

(** ** The ticker and the patched sleep *)

Lemma run_app o1 o2 m :
  threads.run (o1 ++ o2) m
  = match threads.run o1 m with
    | Some m' => threads.run o2 m'
    | None => None
    end.
Proof.
  revert m. induction o1 as [|i o1 IH]; intros m; [reflexivity|].
  simpl. destruct (threads.step i m); [apply IH | reflexivity].
Qed.

Lemma patched_round_alone t r rest :
  threads.run (repeat 0%nat 7)
    (alone t r (threads._ticker_accesses threads._sleep_accesses ++ rest))
  = Some (alone (t + 1 + 1) (t + 1) rest).
Proof. reflexivity. Qed.

Lemma real_round_alone t r rest :
  threads.run (repeat 0%nat 5)
    (alone t r (threads._ticker_accesses threads._real_sleep_accesses ++ rest))
  = Some (alone (t + 1) t rest).
Proof. reflexivity. Qed.

Lemma patched_rounds_alone n : forall t r,
  exists r',
    threads.run (repeat 0%nat (7 * n))
      (alone t r (ticker_rounds threads._sleep_accesses n))
    = Some (alone (t + 2 * Z.of_nat n) r' []).
Proof.
  induction n as [|n IH]; intros t r.
  - exists r. simpl. rewrite Z.add_0_r. reflexivity.
  - destruct (IH (t + 1 + 1) (t + 1)) as [r' Hr].
    exists r'.
    replace (7 * S n)%nat with (7 + 7 * n)%nat by lia.
    rewrite repeat_app, run_app.
    change (ticker_rounds threads._sleep_accesses (S n))
      with (threads._ticker_accesses threads._sleep_accesses
            ++ ticker_rounds threads._sleep_accesses n).
    rewrite patched_round_alone, Hr. do 2 f_equal. lia.
Qed.

Lemma real_rounds_alone n : forall t r,
  exists r',
    threads.run (repeat 0%nat (5 * n))
      (alone t r (ticker_rounds threads._real_sleep_accesses n))
    = Some (alone (t + Z.of_nat n) r' []).
Proof.
  induction n as [|n IH]; intros t r.
  - exists r. simpl. rewrite Z.add_0_r. reflexivity.
  - destruct (IH (t + 1) t) as [r' Hr].
    exists r'.
    replace (5 * S n)%nat with (5 + 5 * n)%nat by lia.
    rewrite repeat_app, run_app.
    change (ticker_rounds threads._real_sleep_accesses (S n))
      with (threads._ticker_accesses threads._real_sleep_accesses
            ++ ticker_rounds threads._real_sleep_accesses n).
    rewrite real_round_alone, Hr. do 2 f_equal. lia.
Qed.

(** X15. Once [time.sleep] is patched the ticker counts twice: [n] rounds
    of the ticker thread, run to their end on their own from tick [t], leave
    the tick at [t + 2 n], where with the original sleep they leave it at
    [t + n]; a call of the patched sleep by the reader adds one. *)
Theorem patched_ticker_counts_twice (n : nat) (t : Z) :
  (exists m,
     threads.run (repeat 0%nat (7 * n))
       (threads.start t [ticker_rounds threads._sleep_accesses n]) = Some m
     /\ threads.finished m = true
     /\ threads.shared_tick m = t + 2 * Z.of_nat n)
  /\ (exists m,
        threads.run (repeat 0%nat (5 * n))
          (threads.start t [ticker_rounds threads._real_sleep_accesses n])
        = Some m
        /\ threads.finished m = true
        /\ threads.shared_tick m = t + Z.of_nat n)
  /\ (exists m,
        threads.run (repeat 0%nat 3) (threads.start t [threads._sleep_accesses])
        = Some m
        /\ threads.finished m = true
        /\ threads.shared_tick m = t + 1).
Proof.
  split; [|split].
  - destruct (patched_rounds_alone n t 0) as [r' Hr].
    eexists. split; [exact Hr|]. split; reflexivity.
  - destruct (real_rounds_alone n t 0) as [r' Hr].
    eexists. split; [exact Hr|]. split; reflexivity.
  - eexists. split; [reflexivity|]. split; reflexivity.
Qed.

(** ** Simulators built from a scenario *)

(** X16. [create_simulator_from_config] cannot build a target: it passes
    [SphereConfig] the keyword [noise_level], which is no field of it (the
    field is [noise]), so for every scenario with at least one sphere it
    raises [TypeError] at the first sphere, before any target is added or the
    clock read; only a scenario without spheres gives a simulator, the empty
    one. *)
Theorem create_simulator_from_config_raises
    (scenario : config_manager_simple.TestScenario) (w : world) :
  run_from_config.create_simulator_from_config scenario w
  = (match config_manager_simple.spheres scenario with
     | [] => Returns SphereSimulator_init
     | _ :: _ => Raises (TypeError "noise_level")
     end, w).
Proof.
  unfold run_from_config.create_simulator_from_config.
  destruct (config_manager_simple.spheres scenario); reflexivity.
Qed.

(** ** The earlier generator *)

Section fake_data.
Import improved_fake_data.

Lemma sum_bound c d n a m :
  (- a <= d <= a)%R -> (- m <= n <= m)%R ->
  (Rabs c + a + m < 1000000)%R -> fits 6 (int_of_float (c + d + n)).
Proof.
  intros Hd Hn Hlt. eapply fits_of_bound; [|exact Hlt].
  apply coordinate_bound; assumption.
Qed.

Lemma sum_bound_quiet c d a :
  (- a <= d <= a)%R ->
  (Rabs c + a < 1000000)%R -> fits 6 (int_of_float (c + d)).
Proof.
  intros Hd Hlt. replace (c + d)%R with (c + d + 0)%R by ring.
  apply (sum_bound c d 0 a 0); [exact Hd | lra | lra].
Qed.

Lemma trajectory_values_fit tick add_noise traj w :
  near_center traj -> unit_draws w ->
  length (fst (trajectory_values tick add_noise traj w)) = 3%nat
  /\ Forall (fits 6) (fst (trajectory_values tick add_noise traj w))
  /\ random_source (snd (trajectory_values tick add_noise traj w))
     = random_source w.
Proof.
  intros [Hr Hc] Hw. unfold trajectory_values, get_position, bind.
  destruct (center traj) as [[c0 c1] c2]. destruct Hc as (H0 & H1 & H2).
  rewrite Hr.
  destruct (random_uniform_bounds (-5) 5 w Hw ltac:(lra)) as [Hj Hs1].
  destruct (random_uniform (-5) 5 w) as [jitter w1].
  simpl in Hj, Hs1. cbn [ret fst snd].
  assert (Hw1 : unit_draws w1) by (intros k; rewrite Hs1; apply Hw).
  pose proof (scaled_cos_bounds 50 (phase traj + IZR tick * (5 / 100) * speed traj)
                ltac:(lra)) as Hcos.
  pose proof (scaled_sin_bounds 50 (phase traj + IZR tick * (5 / 100) * speed traj)
                ltac:(lra)) as Hsin.
  destruct add_noise.
  - destruct (random_uniform_bounds (-10) 10 w1 Hw1 ltac:(lra)) as [Hnx Hs2].
    destruct (random_uniform (-10) 10 w1) as [nx w2].
    simpl in Hnx, Hs2.
    assert (Hw2 : unit_draws w2) by (intros k; rewrite Hs2; apply Hw1).
    destruct (random_uniform_bounds (-10) 10 w2 Hw2 ltac:(lra)) as [Hny Hs3].
    destruct (random_uniform (-10) 10 w2) as [ny w3].
    simpl in Hny, Hs3.
    assert (Hw3 : unit_draws w3) by (intros k; rewrite Hs3; apply Hw2).
    destruct (random_uniform_bounds (-10) 10 w3 Hw3 ltac:(lra)) as [Hnz Hs4].
    destruct (random_uniform (-10) 10 w3) as [nz w4].
    simpl in Hnz, Hs4. cbn [ret fst snd].
    split; [reflexivity|].
    split; [|rewrite Hs4, Hs3, Hs2, Hs1; reflexivity].
    repeat constructor.
    + apply (sum_bound c0 _ nx 50 10); [exact Hcos | lra | lra].
    + apply (sum_bound c1 _ ny 50 10); [exact Hsin | lra | lra].
    + apply (sum_bound c2 jitter nz 5 10); [lra | lra | lra].
  - cbn [ret fst snd]. split; [reflexivity|]. split; [|exact Hs1].
    repeat constructor.
    + apply (sum_bound_quiet c0 _ 50); [exact Hcos | lra].
    + apply (sum_bound_quiet c1 _ 50); [exact Hsin | lra].
    + apply (sum_bound_quiet c2 jitter 5); [lra | lra].
Qed.

Lemma mapM_inv_snd {A B} (f : A -> M B) (P : world -> Prop) :
  (forall a w, P w -> P (snd (f a w))) ->
  forall xs w, P w -> P (snd (mapM f xs w)).
Proof.
  intros Hinv. induction xs as [|a rest IH]; intros w Hw; [exact Hw|].
  simpl. unfold bind.
  pose proof (Hinv a w Hw) as Hw1.
  destruct (f a w) as [b w1]. simpl in Hw1.
  specialize (IH w1 Hw1). destruct (mapM f rest w1) as [ys w2].
  exact IH.
Qed.

Lemma SphereTrajectory_init_unit_draws c w :
  unit_draws w -> unit_draws (snd (SphereTrajectory_init c w)).
Proof. intros Hw k. apply Hw. Qed.

Lemma trajectory_values_unit_draws tick add_noise traj w :
  unit_draws w -> unit_draws (snd (trajectory_values tick add_noise traj w)).
Proof.
  intros Hw k.
  assert (Hs : random_source (snd (trajectory_values tick add_noise traj w))
               = random_source w).
  { unfold trajectory_values, get_position, bind.
    destruct (center traj) as [[c0 c1] c2]. destruct add_noise; reflexivity. }
  rewrite Hs. apply Hw.
Qed.

Lemma fake_trajectories_near w :
  unit_draws w ->
  Forall near_center
    (fst (mapM SphereTrajectory_init
            [(123456, -654321, 111222)%R; (223344, 334455, -445566)%R;
             (-555444, 666333, 777222)%R] w))
  /\ length
       (fst (mapM SphereTrajectory_init
               [(123456, -654321, 111222)%R; (223344, 334455, -445566)%R;
                (-555444, 666333, 777222)%R] w)) = 3%nat.
Proof.
  intros Hw. split; [|reflexivity].
  repeat constructor; simpl; unfold Rabs; repeat destruct Rcase_abs; lra.
Qed.

Lemma firstn_Forall {A} (P : A -> Prop) k l :
  Forall P l -> Forall P (firstn k l).
Proof.
  intros H. rewrite <- (firstn_skipn k l) in H. apply Forall_app in H. apply H.
Qed.

Lemma fake_values_fit tick n add_noise w :
  unit_draws w -> 0 <= n ->
  length (fst (fake_values tick n add_noise w)) = (3 * Nat.min (Z.to_nat n) 3)%nat
  /\ Forall (fits 6) (fst (fake_values tick n add_noise w)).
Proof.
  intros Hw Hn. unfold fake_values, bind.
  destruct (fake_trajectories_near w Hw) as [Hnear Hlen].
  pose proof (mapM_inv_snd SphereTrajectory_init unit_draws
                SphereTrajectory_init_unit_draws
                [(123456, -654321, 111222)%R; (223344, 334455, -445566)%R;
                 (-555444, 666333, 777222)%R] w Hw) as Hw1.
  destruct (mapM SphereTrajectory_init _ w) as [trajectories w1].
  cbn [fst snd] in Hnear, Hlen, Hw1.
  unfold slice_to. destruct (Z.leb_spec 0 n) as [_|Hneg]; [|lia].
  pose proof (firstn_Forall near_center (Z.to_nat n) trajectories Hnear) as Hsl.
  pose proof (length_firstn (Z.to_nat n) trajectories) as Hsll.
  rewrite Hlen in Hsll.
  pose proof (mapM_each_inv (trajectory_values tick add_noise) unit_draws
                (trajectory_values_unit_draws tick add_noise)
                (firstn (Z.to_nat n) trajectories) w1 Hw1) as H2.
  destruct (mapM (trajectory_values tick add_noise)
              (firstn (Z.to_nat n) trajectories) w1) as [vals w2].
  cbn [fst snd ret] in *.
  rewrite <- Hsll. clear Hsll Hlen Hnear.
  induction H2 as [|traj v trajs vs (w' & Hw' & ->) _ IH]; [split; [reflexivity|constructor]|].
  inversion Hsl as [|? ? Ht Hrest]; subst.
  destruct (IH Hrest) as [IHl IHf].
  destruct (trajectory_values_fit tick add_noise traj w' Ht Hw') as (Hl & Hf & _).
  cbn [concat length]. rewrite length_app, Hl, IHl.
  split; [lia|]. apply Forall_app. split; assumption.
Qed.

(** X17. [make_fake_tx_string], with random draws in [[0, 1]] and a
    non-negative [num_spheres], sends three values for each of the first
    [num_spheres] of its three trajectories, never more than nine however
    many spheres are asked for; every value fits six digits, at any tick and
    with or without noise, and the frame decodes to tokens that read back as
    the values. *)
Theorem make_fake_tx_string_exact (tick num_spheres : Z) (add_noise : bool)
    (w : world) :
  unit_draws w -> 0 <= num_spheres ->
  let vals := fst (fake_values tick num_spheres add_noise w) in
  fst (make_fake_tx_string tick num_spheres add_noise w)
  = tx_envelope (map (fun v => format_coord v 6 true) vals)
  /\ length vals = (3 * Nat.min (Z.to_nat num_spheres) 3)%nat
  /\ Forall (fits 6) vals
  /\ option_map (map read_token)
       (TX0008_pos_str_to_list
          (fst (make_fake_tx_string tick num_spheres add_noise w)) NUM_DIGIT)
     = Some vals.
Proof.
  intros Hw Hn vals. subst vals.
  destruct (fake_values_fit tick num_spheres add_noise w Hw Hn) as [Hlen Hfit].
  assert (Hframe :
    fst (make_fake_tx_string tick num_spheres add_noise w)
    = tx_envelope (map (fun v => format_coord v 6 true)
                     (fst (fake_values tick num_spheres add_noise w)))).
  { unfold make_fake_tx_string, bind.
    destruct (fake_values tick num_spheres add_noise w) as [vals w']. reflexivity. }
  split; [exact Hframe|]. split; [exact Hlen|]. split; [exact Hfit|].
  rewrite Hframe. unfold NUM_DIGIT. rewrite decode_envelope_any.
  cbn [option_map]. f_equal. clear Hframe Hlen. revert Hfit.
  generalize (fst (fake_values tick num_spheres add_noise w)).
  intros vals Hfit.
  induction Hfit as [|v rest Hv _ IH]; [reflexivity|].
  cbn [map]. rewrite IH. f_equal.
  destruct (decoded_token_reads v Hv) as (_ & _ & Hread). exact Hread.
Qed.

Lemma make_fake_tx_string_exact_witness :
  let w := constant_world 0 (1 / 2) in
  let vals := fst (fake_values 4 20 true w) in
  fst (make_fake_tx_string 4 20 true w)
  = tx_envelope (map (fun v => format_coord v 6 true) vals)
  /\ length vals = (3 * Nat.min (Z.to_nat 20) 3)%nat
  /\ Forall (fits 6) vals
  /\ option_map (map read_token)
       (TX0008_pos_str_to_list (fst (make_fake_tx_string 4 20 true w)) NUM_DIGIT)
     = Some vals.
Proof.
  intros w.
  apply (make_fake_tx_string_exact 4 20 true w);
    [apply constant_world_unit_draws; lra | lia].
Defined.

End fake_data.

(** ** The status of a frame *)

Section frame_status.
Import improved_fake_data.

Lemma replace_from_no_O new s :
  Forall (fun c => not_O c = true) s ->
  replace_from (lit "OK") new 0 s = s.
Proof.
  induction 1 as [|c s Hc _ IH]; [reflexivity|].
  cbn [replace_from].
  change (startswith (c :: s) (lit "OK"))
    with (Ascii.eqb c "O" && startswith s (lit "K")).
  unfold not_O in Hc. apply negb_true_iff in Hc. rewrite Hc.
  cbn [andb]. rewrite IH. reflexivity.
Qed.

Lemma format_coord_no_O v N :
  Forall (fun c => not_O c = true) (format_coord v N true).
Proof.
  rewrite format_coord_shape. constructor.
  - destruct (0 <=? v); reflexivity.
  - apply Forall_app; split.
    + apply List.Forall_forall. intros c Hin. apply repeat_spec in Hin. subst c.
      reflexivity.
    + eapply List.Forall_impl; [|apply (decimal_digits (Z.abs v)); lia].
      intros c Hc. simpl in Hc. unfold not_O.
      destruct (Ascii.eqb c "O") eqn:E; [|reflexivity].
      apply Ascii.eqb_eq in E. subst c. discriminate Hc.
Qed.

Lemma join_no_O chunks :
  Forall (Forall (fun c => not_O c = true)) chunks ->
  Forall (fun c => not_O c = true) (join (lit "|") chunks).
Proof.
  induction 1 as [|chunk rest Hc Hrest IH]; [constructor|].
  destruct rest as [|chunk' rest']; [exact Hc|].
  change (join (lit "|") (chunk :: chunk' :: rest'))
    with (chunk ++ lit "|" ++ join (lit "|") (chunk' :: rest')).
  apply Forall_app. split; [exact Hc|].
  apply Forall_app. split; [repeat constructor | exact IH].
Qed.

Lemma replace_status chunks :
  Forall (Forall (fun c => not_O c = true)) chunks ->
  str_replace (tx_envelope chunks) (lit "OK") (lit "OOV")
  = lit "TXRESP|OOV|" ++ join (lit "|") chunks ++ lit "|END".
Proof.
  intros Hall. unfold tx_envelope, str_replace.
  cbn [lit list_ascii_of_string app replace_from startswith Ascii.eqb
       Bool.eqb andb length Nat.sub].
  do 11 f_equal.
  apply replace_from_no_O.
  apply Forall_app. split; [apply join_no_O; exact Hall | repeat constructor].
Qed.

(** X18. [make_tx_with_status] with [out_of_volume] changes the status and
    nothing else: whatever the tick, the clock and the random draws, its
    frame is the frame [make_fake_tx_string(tick)] builds with [OK] replaced
    by [OOV] in the header; no coordinate is touched, the reader decodes the
    same tokens from both frames, and the same random numbers are drawn.
    Without [out_of_volume] it returns the frame of [make_fake_tx_string]. *)
Theorem make_tx_with_status_payload (tick : Z) (w : world) :
  let chunks :=
    map (fun v => format_coord v 6 true) (fst (fake_values tick 3 true w)) in
  fst (make_tx_with_status tick true w)
  = lit "TXRESP|OOV|" ++ join (lit "|") chunks ++ lit "|END"
  /\ make_tx_with_status tick false w = make_fake_tx_string tick 3 true w
  /\ fst (make_tx_with_status tick false w)
     = lit "TXRESP|OK|" ++ join (lit "|") chunks ++ lit "|END"
  /\ TX0008_pos_str_to_list (fst (make_tx_with_status tick true w)) NUM_DIGIT
     = TX0008_pos_str_to_list (fst (make_tx_with_status tick false w)) NUM_DIGIT
  /\ snd (make_tx_with_status tick true w)
     = snd (make_tx_with_status tick false w).
Proof.
  intros chunks. subst chunks.
  unfold make_tx_with_status, make_fake_tx_string, bind.
  destruct (fake_values tick 3 true w) as [vals w'].
  cbn [fst snd ret].
  assert (Hrep :
    str_replace (tx_envelope (map (fun v => _num v 6 true) vals))
      (lit "OK") (lit "OOV")
    = lit "TXRESP|OOV|"
      ++ join (lit "|") (map (fun v => format_coord v 6 true) vals)
      ++ lit "|END").
  { apply replace_status. apply List.Forall_forall. intros chunk Hin.
    apply in_map_iff in Hin as (v & <- & _).
    apply (format_coord_no_O v 6). }
  split; [exact Hrep|]. split; [reflexivity|]. split; [reflexivity|].
  split; [|reflexivity].
  rewrite Hrep. unfold tx_envelope.
  rewrite (decode_skip_prefix (lit "TXRESP|OOV|")) by reflexivity.
  rewrite (decode_skip_prefix (lit "TXRESP|OK|")) by reflexivity.
  reflexivity.
Qed.

End frame_status.

(** ** The export file and the count the terminator prints *)

Section export_count.
Import reader_main.

Lemma readlines_from_line l : forall line rest,
  Forall (fun c => in_line c = true) l ->
  readlines_from line (l ++ NL :: rest)
  = (line ++ l ++ [NL]) :: readlines_from [] rest.
Proof.
  induction l as [|c l IH]; intros line rest Hl.
  - reflexivity.
  - inversion Hl as [|? ? Hc Hrest]; subst.
    unfold in_line in Hc. apply andb_true_iff in Hc as [Hn Hr].
    apply negb_true_iff in Hn, Hr.
    cbn [app readlines_from]. rewrite Hn, Hr.
    rewrite IH by exact Hrest. rewrite <- app_assoc. reflexivity.
Qed.

Lemma contains_unfold needle s :
  contains needle s
  = startswith s needle
    || match s with [] => false | _ :: rest => contains needle rest end.
Proof. destruct s; reflexivity. Qed.

Lemma contains_no_R s :
  Forall (fun c => not_R c = true) s -> contains (lit "Record") s = false.
Proof.
  induction 1 as [|c s Hc _ IH]; [reflexivity|].
  rewrite contains_unfold, IH.
  change (startswith (c :: s) (lit "Record"))
    with (Ascii.eqb c "R" && startswith s (lit "ecord")).
  unfold not_R in Hc. apply negb_true_iff in Hc. rewrite Hc. reflexivity.
Qed.

(** How many lines of a text hold the word. *)
Lemma record_count_line l rest :
  Forall (fun c => in_line c = true) l ->
  record_count (readlines (l ++ NL :: rest))
  = ((if contains (lit "Record") (l ++ [NL]) then 1 else 0)
     + record_count (readlines rest))%nat.
Proof.
  intros Hl. unfold readlines. rewrite readlines_from_line by exact Hl.
  unfold record_count. cbn [List.filter app].
  destruct (contains (lit "Record") (l ++ [NL])); reflexivity.
Qed.

Lemma record_count_plain_line l rest :
  plain l ->
  record_count (readlines (l ++ NL :: rest)) = record_count (readlines rest).
Proof.
  intros Hl. rewrite record_count_line.
  - rewrite contains_no_R; [reflexivity|].
    apply Forall_app. split; [|repeat constructor].
    eapply List.Forall_impl; [|exact Hl]. intros c [_ Hc]. exact Hc.
  - eapply List.Forall_impl; [|exact Hl]. intros c [Hc _]. exact Hc.
Qed.

Lemma plain_app a b : plain a -> plain b -> plain (a ++ b).
Proof. intros Ha Hb. apply Forall_app. split; assumption. Qed.

Lemma plain_decimal n : 0 <= n -> plain (decimal n).
Proof.
  intros Hn. eapply List.Forall_impl; [|apply (decimal_digits n Hn)].
  intros c Hc. simpl in Hc.
  split.
  - unfold in_line.
    destruct (Ascii.eqb c NL) eqn:E1.
    { apply Ascii.eqb_eq in E1. subst c. discriminate Hc. }
    destruct (Ascii.eqb c CR) eqn:E2; [|reflexivity].
    apply Ascii.eqb_eq in E2. subst c. discriminate Hc.
  - unfold not_R. destruct (Ascii.eqb c "R") eqn:E; [|reflexivity].
    apply Ascii.eqb_eq in E. subst c. discriminate Hc.
Qed.

Lemma plain_checked (s : str) :
  forallb (fun c => in_line c && not_R c) s = true -> plain s.
Proof.
  intros H. apply List.Forall_forall. intros c Hin.
  rewrite forallb_forall in H. specialize (H c Hin).
  apply andb_true_iff in H. exact H.
Qed.

Lemma in_line_checked (s : str) :
  forallb in_line s = true -> Forall (fun c => in_line c = true) s.
Proof.
  intros H. apply List.Forall_forall. intros c Hin.
  rewrite forallb_forall in H. exact (H c Hin).
Qed.

Lemma plain_in_line s : plain s -> Forall (fun c => in_line c = true) s.
Proof.
  intros H. eapply List.Forall_impl; [|exact H]. intros c [Hc _]. exact Hc.
Qed.

Lemma record_count_blank_line rest :
  record_count (readlines (NL :: rest)) = record_count (readlines rest).
Proof. apply (record_count_plain_line [] rest). constructor. Qed.

Lemma record_count_two a b rest :
  plain a -> plain b ->
  record_count (readlines (a ++ b ++ NL :: rest))
  = record_count (readlines rest).
Proof.
  intros Ha Hb. rewrite app_assoc.
  apply record_count_plain_line, plain_app; assumption.
Qed.

Lemma record_count_sphere_writes record : forall idx rest,
  Forall plain_sphere record ->
  record_count (readlines (concat (sphere_writes idx record) ++ rest))
  = record_count (readlines rest).
Proof.
  induction record as [|s record IH]; intros idx rest Hall; [reflexivity|].
  inversion Hall as [|? ? (Hx & Hy & Hz) Hrest]; subst.
  cbn [sphere_writes app concat]. rewrite <- !app_assoc. cbn [app].
  rewrite record_count_blank_line.
  rewrite !record_count_two
    by first [ apply plain_checked; reflexivity
             | apply plain_decimal; lia
             | assumption ].
  apply IH. exact Hrest.
Qed.

Lemma contains_app needle pre : forall post,
  contains needle (pre ++ needle ++ post) = true.
Proof.
  assert (Hsw : forall n post, startswith (n ++ post) n = true).
  { induction n as [|c n IH]; intros post; [destruct post; reflexivity|].
    simpl. rewrite Ascii.eqb_refl. apply IH. }
  induction pre as [|c pre IH]; intros post.
  - cbn [app]. rewrite contains_unfold, (Hsw needle post). reflexivity.
  - rewrite contains_unfold. cbn [app]. rewrite IH. apply orb_true_r.
Qed.

Lemma record_count_header idx rest :
  record_count
    (readlines (lit "【 Record " ++ decimal (Z.of_nat idx) ++ lit " 】"
                ++ NL :: rest))
  = S (record_count (readlines rest)).
Proof.
  replace (lit "【 Record " ++ decimal (Z.of_nat idx) ++ lit " 】" ++ NL :: rest)
    with ((lit "【 Record " ++ decimal (Z.of_nat idx) ++ lit " 】") ++ NL :: rest)
    by (rewrite <- !app_assoc; reflexivity).
  rewrite record_count_line.
  - change (lit "【 Record ") with (lit "【 " ++ lit "Record" ++ lit " ").
    rewrite <- !app_assoc. rewrite contains_app. reflexivity.
  - apply Forall_app. split; [apply in_line_checked; reflexivity|].
    apply Forall_app. split; [|apply in_line_checked; reflexivity].
    apply plain_in_line, plain_decimal. lia.
Qed.

Lemma record_count_total n rest :
  record_count
    (readlines (lit "Total Records: " ++ decimal (Z.of_nat n) ++ NL :: rest))
  = S (record_count (readlines rest)).
Proof.
  rewrite app_assoc. rewrite record_count_line.
  - change (lit "Total Records: ") with (lit "Total " ++ lit "Record" ++ lit "s: ").
    rewrite <- !app_assoc. rewrite contains_app. reflexivity.
  - apply Forall_app. split; [apply in_line_checked; reflexivity|].
    apply plain_in_line, plain_decimal. lia.
Qed.

Lemma record_count_record_writes picked : forall idx rest,
  Forall (Forall plain_sphere) picked ->
  record_count (readlines (concat (record_writes idx picked) ++ rest))
  = (length picked + record_count (readlines rest))%nat.
Proof.
  induction picked as [|record picked IH]; intros idx rest Hall; [reflexivity|].
  inversion Hall as [|? ? Hrec Hrest]; subst.
  cbn [record_writes concat]. rewrite concat_app, <- !app_assoc. cbn [app].
  rewrite record_count_blank_line, record_count_header.
  rewrite record_count_sphere_writes by exact Hrec.
  rewrite IH by exact Hrest. reflexivity.
Qed.

Lemma plain_format_coord v N : plain (format_coord v N true).
Proof.
  rewrite format_coord_shape. constructor.
  - destruct (0 <=? v); split; reflexivity.
  - apply plain_app; [|apply plain_decimal; lia].
    apply List.Forall_forall. intros c Hin. apply repeat_spec in Hin. subst c.
    split; reflexivity.
Qed.

Lemma plain_decoded_token v N : plain (decoded_token N v).
Proof.
  unfold decoded_token, insert_point.
  pose proof (firstn_Forall _ (S N) _ (plain_format_coord v N)) as Hp.
  apply plain_app; [apply firstn_Forall; exact Hp|].
  apply plain_app; [apply plain_checked; reflexivity|].
  rewrite <- (firstn_skipn 5) in Hp. apply Forall_app in Hp. apply Hp.
Qed.

Lemma plain_position_sphere p : plain_sphere (position_sphere p).
Proof.
  destruct p as [[a b] c]. repeat split; apply plain_decoded_token.
Qed.

(** X19. The record count the terminator of the test runner prints is one
    more than the number of records the reader exported: it counts the lines
    of [Coordinates.txt] that hold [Record], and besides the header line of
    each record the line [Total Records: n] holds it too. This is so for
    every list of records whose tokens hold no line end and no [R], as all
    tokens decoded from a simulated frame do. *)
Theorem export_record_count (picked_coord : list (list Sphere))
    (records : list (list (Z * Z * Z))) :
  Forall (Forall plain_sphere) picked_coord ->
  record_count (readlines (export_file picked_coord))
  = S (length picked_coord)
  /\ record_count
       (readlines (export_file (map (map position_sphere) records)))
     = S (length records).
Proof.
  assert (Hcount : forall picked,
    Forall (Forall plain_sphere) picked ->
    record_count (readlines (export_file picked)) = S (length picked)).
  { intros picked Hall. unfold export_file, export_writes.
    rewrite concat_app. cbn [concat]. rewrite <- !app_assoc. cbn [app].
    rewrite (record_count_plain_line (lit "NDI Coordinates Export"))
      by (apply plain_checked; reflexivity).
    rewrite (record_count_plain_line (str_mul (lit "=") 50))
      by (apply plain_checked; reflexivity).
    rewrite record_count_total.
    rewrite (record_count_plain_line (str_mul (lit "=") 50))
      by (apply plain_checked; reflexivity).
    rewrite <- (app_nil_r (concat (record_writes 1 picked))).
    rewrite record_count_record_writes by exact Hall.
    cbn. lia. }
  intros Hall. split; [apply Hcount; exact Hall|].
  rewrite Hcount; [rewrite length_map; reflexivity|].
  apply List.Forall_forall. intros record Hin.
  apply in_map_iff in Hin as (r & <- & _).
  apply List.Forall_forall. intros s Hs.
  apply in_map_iff in Hs as (p & <- & _). apply plain_position_sphere.
Qed.

Lemma export_record_count_witness :
  record_count
    (readlines (export_file [[position_sphere (100000, -200000, 50000)]]))
  = 2%nat
  /\ record_count
       (readlines (export_file (map (map position_sphere) [[(1, 2, 3)]; []])))
     = 3%nat.
Proof.
  apply (export_record_count [[position_sphere (100000, -200000, 50000)]]
           [[(1, 2, 3)]; []]).
  repeat constructor; apply plain_decoded_token.
Defined.

End export_count.

(** ** A round of the reader under the test runner *)

Section scheduled.
Import sim_runner.




End scheduled.

(** ** When the runners stop *)

Lemma fold_max_spec (rest : list (Z * string)) : forall k,
  let m := fold_left (fun a kv => Z.max a (fst kv)) rest k in
  k <= m
  /\ (forall kv, In kv rest -> fst kv <= m)
  /\ (m = k \/ exists kv, In kv rest /\ fst kv = m).
Proof.
  induction rest as [|kv rest IH]; intros k; simpl.
  - split; [lia|]. split; [intros ? []|]. left. reflexivity.
  - destruct (IH (Z.max k (fst kv))) as (Hle & Hall & Hin).
    split; [lia|]. split.
    + intros kv' [<-|Hkv]; [lia | apply Hall; exact Hkv].
    + destruct Hin as [Heq|(kv' & Hkv & Heq)].
      * destruct (Z.max_spec k (fst kv)) as [[_ Hm]|[_ Hm]].
        -- right. exists kv. split; [left; reflexivity | lia].
        -- left. lia.
      * right. exists kv'. split; [right; exact Hkv | exact Heq].
Qed.

(** X21. The test runner waits for the last scheduled tick plus sixty:
    for a schedule that is not empty [LAST_TICK] is one of its ticks and no
    scheduled tick is later, and for the empty schedule it is 0. The
    flexible runner waits for the same number of ticks when the schedule is
    not empty, but its terminator raises [ValueError] on the empty
    schedule, where the test runner waits sixty ticks. *)
Theorem terminator_after_last_event (KEY_SCHEDULE : gmap Z string) :
  (exists last,
     LAST_TICK KEY_SCHEDULE = Returns last
     /\ terminator_ticks KEY_SCHEDULE = Returns (last + 60)
     /\ (forall t key, KEY_SCHEDULE !! t = Some key -> t <= last)
     /\ (KEY_SCHEDULE <> ∅ -> is_Some (KEY_SCHEDULE !! last))
     /\ (KEY_SCHEDULE = ∅ -> last = 0))
  /\ (KEY_SCHEDULE = ∅ ->
      flexible_terminator_ticks KEY_SCHEDULE = Raises ValueError)
  /\ (KEY_SCHEDULE <> ∅ ->
      flexible_terminator_ticks KEY_SCHEDULE = terminator_ticks KEY_SCHEDULE).
Proof.
  unfold terminator_ticks, flexible_terminator_ticks, LAST_TICK.
  destruct (decide (KEY_SCHEDULE = ∅)) as [->|Hne].
  - split; [|split; [intros _; reflexivity | intros H; contradiction]].
    exists 0. split; [reflexivity|]. split; [reflexivity|].
    split; [intros t key Hl; rewrite lookup_empty in Hl; discriminate|].
    split; [intros H; contradiction | reflexivity].
  - split; [|split; [intros H; contradiction | intros _; reflexivity]].
    unfold max_key.
    destruct (map_to_list KEY_SCHEDULE) as [|[k v] rest] eqn:Hl.
    { apply map_to_list_empty_iff in Hl. contradiction. }
    destruct (fold_max_spec rest k) as (Hle & Hall & Hin).
    eexists. split; [reflexivity|]. split; [reflexivity|].
    split; [|split; [|intros H; contradiction]].
    + intros t key Ht. apply elem_of_map_to_list in Ht. rewrite Hl in Ht.
      apply elem_of_cons in Ht as [Heq|Ht].
      * injection Heq as -> _. exact Hle.
      * apply list_elem_of_In in Ht. apply (Hall (t, key) Ht).
    + intros _. destruct Hin as [Heq|(kv & Hkv & Heq)].
      * exists v. apply elem_of_map_to_list. rewrite Hl, Heq. left.
      * exists (snd kv). apply elem_of_map_to_list. rewrite Hl, <- Heq.
        right. apply list_elem_of_In. destruct kv. exact Hkv.
Qed.

(** ** Motion in floating-point arithmetic *)

Lemma exact_ops_binary64_like : binary64_like exact_ops.
Proof.
  split; [|split].
  - intros r _. simpl. replace (r - r)%R with 0%R by ring. rewrite Rabs_R0.
    pose proof (Rabs_pos r). lra.
  - intros a. apply COS_bound.
  - intros a. apply SIN_bound.
Qed.

Lemma binary64_exact_get_position s w :
  binary64.get_position exact_ops s w = get_position s w.
Proof. reflexivity. Qed.

Lemma convex_bound a b u M :
  (0 <= u <= 1)%R -> (- M <= a <= M)%R -> (- M <= b <= M)%R ->
  (- M <= a + (b - a) * u <= M)%R.
Proof. intros Hu Ha Hb. nra. Qed.

Lemma scale_bound e u m :
  (0 <= u <= 1)%R -> (- m <= e <= m)%R -> (- m <= e * u <= m)%R.
Proof. intros Hu He. nra. Qed.

Lemma unit_scaled A c :
  (0 <= A)%R -> (-1 <= c <= 1)%R -> (- A <= A * c <= A)%R.
Proof. intros HA Hc. nra. Qed.

Section rounded.

Variable F : float_ops.
Hypothesis HF : binary64_like F.

(** Below [4 * 10^8] rounding moves a number by at most [5 * 10^-7]. *)
Lemma rnd_near r :
  (- 400000000 <= r <= 400000000)%R ->
  (- (1 / 2000000) <= rnd F r - r <= 1 / 2000000)%R.
Proof.
  intros Hr. destruct HF as [Hrnd _].
  assert (Habs : (Rabs r <= 400000000)%R) by (apply Rabs_le; lra).
  specialize (Hrnd r ltac:(lra)).
  assert (Hle : (Rabs (rnd F r - r) <= 1 / 2000000)%R) by lra.
  revert Hle. unfold Rabs. destruct (Rcase_abs (rnd F r - r)); lra.
Qed.

Lemma rounded_uniform_near a b M w :
  unit_draws w ->
  (- M <= a <= M)%R -> (- M <= b <= M)%R -> (M <= 100000001)%R ->
  (- M - 3 / 2000000 <= fst (binary64.random_uniform F a b w)
   <= M + 3 / 2000000)%R
  /\ random_source (snd (binary64.random_uniform F a b w)) = random_source w.
Proof.
  intros Hw Ha Hb HM.
  unfold binary64.random_uniform, bind, random_random, ret. simpl.
  split; [|reflexivity].
  pose proof (Hw (random_draws w)) as Hu.
  set (u := random_source w (random_draws w)) in *.
  pose proof (rnd_near (b - a) ltac:(lra)) as H1.
  set (w1 := rnd F (b - a)) in *.
  pose proof (convex_bound a b u M Hu Ha Hb) as Hcv.
  pose proof (scale_bound (w1 - (b - a)) u (1 / 2000000) Hu H1) as Hs.
  assert (Hp : (w1 * u = (b - a) * u + (w1 - (b - a)) * u)%R) by ring.
  pose proof (rnd_near (w1 * u) ltac:(lra)) as H2.
  set (w2 := rnd F (w1 * u)) in *.
  pose proof (rnd_near (a + w2) ltac:(lra)) as H3.
  lra.
Qed.

(** Except on a spiral, no axis of the offset exceeds the amplitude by more
    than the rounding. *)
Lemma rounded_offset_bounded cfg t w :
  motion_type cfg <> "spiral"%string ->
  (0 <= amplitude cfg <= 100000000)%R ->
  unit_draws w ->
  let '(dx, dy, dz) := fst (binary64.position_offset F cfg t w) in
  let m := (amplitude cfg + 1 / 500000)%R in
  (- m <= dx <= m)%R /\ (- m <= dy <= m)%R /\ (- m <= dz <= m)%R
  /\ random_source (snd (binary64.position_offset F cfg t w)) = random_source w.
Proof.
  intros Hsp HA Hw. unfold binary64.position_offset.
  destruct HF as (_ & Hcos & Hsin).
  assert (Hc : forall a,
    (- (amplitude cfg + 1 / 500000)
     <= rnd F (amplitude cfg * fcos F a) <= amplitude cfg + 1 / 500000)%R).
  { intros a. pose proof (unit_scaled (amplitude cfg) (fcos F a)
                            ltac:(lra) (Hcos a)) as Hb.
    pose proof (rnd_near (amplitude cfg * fcos F a) ltac:(lra)). lra. }
  assert (Hs : forall a,
    (- (amplitude cfg + 1 / 500000)
     <= rnd F (amplitude cfg * fsin F a) <= amplitude cfg + 1 / 500000)%R).
  { intros a. pose proof (unit_scaled (amplitude cfg) (fsin F a)
                            ltac:(lra) (Hsin a)) as Hb.
    pose proof (rnd_near (amplitude cfg * fsin F a) ltac:(lra)). lra. }
  assert (H0 : (- (amplitude cfg + 1 / 500000) <= 0
                <= amplitude cfg + 1 / 500000)%R) by lra.
  destruct (String.eqb (motion_type cfg) "static"); [simpl; auto|].
  destruct (String.eqb (motion_type cfg) "circle_xy"); [simpl; auto|].
  destruct (String.eqb (motion_type cfg) "circle_xz"); [simpl; auto|].
  destruct (String.eqb (motion_type cfg) "wave_x"); [simpl; auto|].
  destruct (String.eqb (motion_type cfg) "wave_xyz"); [simpl; auto|].
  destruct (String.eqb_spec (motion_type cfg) "spiral"); [contradiction|].
  destruct (String.eqb (motion_type cfg) "random_walk"); [|simpl; auto].
  unfold bind.
  destruct (rounded_uniform_near (- amplitude cfg) (amplitude cfg)
              (amplitude cfg) w Hw ltac:(lra) ltac:(lra) ltac:(lra))
    as [Hx Hs1].
  destruct (binary64.random_uniform F (- amplitude cfg) (amplitude cfg) w)
    as [dx w1].
  simpl in Hx, Hs1.
  assert (Hw1 : unit_draws w1) by (intros k; rewrite Hs1; apply Hw).
  destruct (rounded_uniform_near (- amplitude cfg) (amplitude cfg)
              (amplitude cfg) w1 Hw1 ltac:(lra) ltac:(lra) ltac:(lra))
    as [Hy Hs2].
  destruct (binary64.random_uniform F (- amplitude cfg) (amplitude cfg) w1)
    as [dy w2].
  simpl in Hy, Hs2.
  assert (Hw2 : unit_draws w2) by (intros k; rewrite Hs2; apply Hw1).
  pose proof (rnd_near (3 / 10) ltac:(lra)) as Hq.
  set (q := rnd F (3 / 10)) in *.
  assert (Hlo : (- (amplitude cfg) <= - amplitude cfg * q <= amplitude cfg)%R)
    by nra.
  assert (Hhi : (- (amplitude cfg) <= amplitude cfg * q <= amplitude cfg)%R)
    by nra.
  pose proof (rnd_near (- amplitude cfg * q) ltac:(lra)) as Ha.
  pose proof (rnd_near (amplitude cfg * q) ltac:(lra)) as Hb.
  destruct (rounded_uniform_near (rnd F (- amplitude cfg * q))
              (rnd F (amplitude cfg * q))
              (amplitude cfg + 1 / 2000000) w2 Hw2
              ltac:(lra) ltac:(lra) ltac:(lra))
    as [Hz Hs3].
  destruct (binary64.random_uniform F (rnd F (- amplitude cfg * q))
              (rnd F (amplitude cfg * q)) w2) as [dz w3].
  simpl in Hz, Hs3. simpl.
  split; [lra|]. split; [lra|]. split; [lra|].
  rewrite Hs3, Hs2, Hs1. reflexivity.
Qed.

(** One coordinate: the rounded sum of the center, the offset and the noise
    is within [10^-5] of what the amplitude and the noise allow. *)
Lemma rounded_sum_near c d n A m :
  (0 <= A)%R -> (0 <= m)%R -> (Rabs c + A + m <= 100000000)%R ->
  (- (A + 1 / 500000) <= d <= A + 1 / 500000)%R ->
  (- m - 3 / 2000000 <= n <= m + 3 / 2000000)%R ->
  (- (A + m + 1 / 100000) <= rnd F (rnd F (c + d) + n) - c
   <= A + m + 1 / 100000)%R.
Proof.
  intros HA Hm Hc Hd Hn.
  assert (Hcabs : (- Rabs c <= c <= Rabs c)%R).
  { unfold Rabs. destruct (Rcase_abs c); lra. }
  pose proof (rnd_near (c + d) ltac:(lra)) as H1.
  pose proof (rnd_near (rnd F (c + d) + n) ltac:(lra)) as H2.
  lra.
Qed.

Lemma rounded_position_shape s w :
  motion_type (config s) <> "spiral"%string ->
  (0 <= amplitude (config s))%R -> (0 <= noise (config s))%R ->
  (let '(cx, cy, cz) := center (config s) in
   Forall (fun c => Rabs c + amplitude (config s) + noise (config s)
                    <= 100000000)%R [cx; cy; cz]) ->
  unit_draws w ->
  exists vx vy vz,
    fst (binary64.get_position F s w)
    = (int_of_float vx, int_of_float vy, int_of_float vz)
    /\ (let '(cx, cy, cz) := center (config s) in
        let reach := (amplitude (config s) + noise (config s)
                      + 1 / 100000)%R in
        (- reach <= vx - cx <= reach)%R /\ (- reach <= vy - cy <= reach)%R
        /\ (- reach <= vz - cz <= reach)%R)
    /\ random_source (snd (binary64.get_position F s w)) = random_source w.
Proof.
  intros Hsp Ha Hn Hc Hw. unfold binary64.get_position, bind.
  destruct (time_time w) as [now w0] eqn:Ht.
  assert (Hs0 : random_source w0 = random_source w).
  { unfold time_time in Ht. injection Ht as _ <-. reflexivity. }
  assert (Hw0 : unit_draws w0) by (intros k; rewrite Hs0; apply Hw).
  destruct (center (config s)) as [[cx cy] cz].
  inversion Hc as [|? ? Hcx Hc1]; subst.
  inversion Hc1 as [|? ? Hcy Hc2]; subst.
  inversion Hc2 as [|? ? Hcz _]; subst.
  assert (HA : (0 <= amplitude (config s) <= 100000000)%R).
  { pose proof (Rabs_pos cx). lra. }
  assert (HN : (noise (config s) <= 100000000)%R).
  { pose proof (Rabs_pos cx). lra. }
  pose proof (rounded_offset_bounded (config s)
                (rnd F (now - start_time s)) w0 Hsp HA Hw0) as Hoff.
  destruct (binary64.position_offset F (config s)
              (rnd F (now - start_time s)) w0) as [[[dx dy] dz] w1].
  simpl in Hoff. destruct Hoff as (Hx & Hy & Hz & Hs1).
  assert (Hw1 : unit_draws w1) by (intros k; rewrite Hs1; apply Hw0).
  destruct (rounded_uniform_near (- noise (config s)) (noise (config s))
              (noise (config s)) w1 Hw1 ltac:(lra) ltac:(lra) ltac:(lra))
    as [Hnx Hs2].
  destruct (binary64.random_uniform F (- noise (config s)) (noise (config s)) w1)
    as [nx w2].
  simpl in Hnx, Hs2.
  assert (Hw2 : unit_draws w2) by (intros k; rewrite Hs2; apply Hw1).
  destruct (rounded_uniform_near (- noise (config s)) (noise (config s))
              (noise (config s)) w2 Hw2 ltac:(lra) ltac:(lra) ltac:(lra))
    as [Hny Hs3].
  destruct (binary64.random_uniform F (- noise (config s)) (noise (config s)) w2)
    as [ny w3].
  simpl in Hny, Hs3.
  assert (Hw3 : unit_draws w3) by (intros k; rewrite Hs3; apply Hw2).
  destruct (rounded_uniform_near (- noise (config s)) (noise (config s))
              (noise (config s)) w3 Hw3 ltac:(lra) ltac:(lra) ltac:(lra))
    as [Hnz Hs4].
  destruct (binary64.random_uniform F (- noise (config s)) (noise (config s)) w3)
    as [nz w4].
  simpl in Hnz, Hs4. simpl.
  eexists _, _, _. split; [reflexivity|].
  split; [|rewrite Hs4, Hs3, Hs2, Hs1, Hs0; reflexivity].
  split; [apply rounded_sum_near; assumption|].
  split; apply rounded_sum_near; assumption.
Qed.

End rounded.

Lemma ten_le_big r : (Rabs r <= 10)%R -> (Rabs r <= 10 ^ 100)%R.
Proof.
  intros Hr. eapply Rle_trans; [exact Hr|].
  replace 10%R with (10 ^ 1)%R at 1 by (simpl; ring).
  apply Rle_pow; [lra | lia].
Qed.

(** X9. Except on a spiral, a target never strays from its center by more
    than its amplitude plus its noise, up to rounding: in any arithmetic
    that rounds as binary64 does, with a non-negative amplitude and noise,
    magnitudes up to [10^8], no overflow and random draws in [[0, 1]], every
    coordinate [get_position] returns is less than amplitude plus noise plus
    one (the truncation) plus [10^-5] (the rounding) away from the center's,
    and its absolute value is at most that of the center's plus amplitude
    plus noise plus [10^-5], at every time; the random source is left as it
    was. *)
Theorem get_position_within_reach (F : float_ops) (s : VirtualSphere)
    (w : world) :
  binary64_like F ->
  motion_type (config s) <> "spiral"%string ->
  (0 <= amplitude (config s))%R -> (0 <= noise (config s))%R ->
  (let '(cx, cy, cz) := center (config s) in
   Forall (fun c => Rabs c + amplitude (config s) + noise (config s)
                    <= 100000000)%R [cx; cy; cz]) ->
  no_overflow s w -> unit_draws w ->
  (let '(cx, cy, cz) := center (config s) in
   let '(px, py, pz) := fst (binary64.get_position F s w) in
   let reach := (amplitude (config s) + noise (config s) + 1 / 100000)%R in
   ((Rabs (IZR px - cx) < reach + 1)%R /\ (IZR (Z.abs px) <= Rabs cx + reach)%R)
   /\ ((Rabs (IZR py - cy) < reach + 1)%R
       /\ (IZR (Z.abs py) <= Rabs cy + reach)%R)
   /\ ((Rabs (IZR pz - cz) < reach + 1)%R
       /\ (IZR (Z.abs pz) <= Rabs cz + reach)%R))
  /\ random_source (snd (binary64.get_position F s w)) = random_source w.
Proof.
  intros HF Hsp Ha Hn Hc _ Hw.
  destruct (rounded_position_shape F HF s w Hsp Ha Hn Hc Hw)
    as (vx & vy & vz & Hpos & Hv & Hsrc).
  split; [|exact Hsrc].
  destruct (center (config s)) as [[cx cy] cz]. rewrite Hpos.
  assert (Hone : forall c v,
    (- (amplitude (config s) + noise (config s) + 1 / 100000) <= v - c
     <= amplitude (config s) + noise (config s) + 1 / 100000)%R ->
    (Rabs (IZR (int_of_float v) - c)
     < amplitude (config s) + noise (config s) + 1 / 100000 + 1)%R
    /\ (IZR (Z.abs (int_of_float v))
        <= Rabs c + (amplitude (config s) + noise (config s) + 1 / 100000))%R).
  { intros c v Hvc. split.
    - pose proof (int_of_float_near v) as Hnear.
      apply Rabs_def2 in Hnear. destruct Hnear as [H1 H2].
      apply Rabs_def1; lra.
    - eapply Rle_trans; [apply int_of_float_abs|].
      replace v with (c + (v - c))%R by ring.
      eapply Rle_trans; [apply Rabs_triang|].
      assert (Rabs (v - c)
              <= amplitude (config s) + noise (config s) + 1 / 100000)%R
        by (apply Rabs_le; lra).
      lra. }
  destruct Hv as (Hx & Hy & Hz).
  split; [apply Hone; exact Hx|]. split; apply Hone; assumption.
Qed.

Lemma get_position_within_reach_witness :
  let s := {| config := quick_test_config "wave_xyz"; start_time := 0%R |} in
  let w := constant_world 3 (1 / 2) in
  (let '(cx, cy, cz) := center (config s) in
   let '(px, py, pz) := fst (binary64.get_position exact_ops s w) in
   let reach := (amplitude (config s) + noise (config s) + 1 / 100000)%R in
   ((Rabs (IZR px - cx) < reach + 1)%R /\ (IZR (Z.abs px) <= Rabs cx + reach)%R)
   /\ ((Rabs (IZR py - cy) < reach + 1)%R
       /\ (IZR (Z.abs py) <= Rabs cy + reach)%R)
   /\ ((Rabs (IZR pz - cz) < reach + 1)%R
       /\ (IZR (Z.abs pz) <= Rabs cz + reach)%R))
  /\ random_source (snd (binary64.get_position exact_ops s w))
     = random_source w.
Proof.
  intros s w.
  apply (get_position_within_reach exact_ops s w).
  - exact exact_ops_binary64_like.
  - discriminate.
  - simpl. lra.
  - simpl. lra.
  - simpl. repeat constructor; rewrite Rabs_R0; lra.
  - repeat split; try intros k; apply ten_le_big; simpl;
      unfold Rabs; destruct Rcase_abs; lra.
  - apply constant_world_unit_draws. lra.
Defined.

Lemma rounded_position_unit_draws F s w :
  unit_draws w -> unit_draws (snd (binary64.get_position F s w)).
Proof.
  intros Hw k.
  assert (Hs : random_source (snd (binary64.get_position F s w))
               = random_source w).
  { unfold binary64.get_position, bind, time_time.
    destruct (center (config s)) as [[cx cy] cz].
    assert (Hoff : forall t w0,
      random_source (snd (binary64.position_offset F (config s) t w0))
      = random_source w0).
    { intros t w0. unfold binary64.position_offset.
      repeat (match goal with
              | |- context [if ?b then _ else _] => destruct b
              end; try reflexivity). }
    match goal with
    | |- context [binary64.position_offset F (config s) ?t ?w0] =>
        specialize (Hoff t w0);
        destruct (binary64.position_offset F (config s) t w0)
          as [[[dx dy] dz] w1]
    end.
    simpl in Hoff. simpl. exact Hoff. }
  rewrite Hs. apply Hw.
Qed.

Lemma well_within_field_position_fits F s w :
  binary64_like F -> well_within_field (config s) -> unit_draws w ->
  position_fits 6 (fst (binary64.get_position F s w)).
Proof.
  intros HF (Hsp & Ha & Hn & Hc) Hw.
  assert (Hc' : let '(cx, cy, cz) := center (config s) in
    Forall (fun c => Rabs c + amplitude (config s) + noise (config s)
                     <= 100000000)%R [cx; cy; cz]).
  { destruct (center (config s)) as [[cx cy] cz].
    destruct Hc as (Hx & Hy & Hz). repeat constructor; lra. }
  destruct (rounded_position_shape F HF s w Hsp Ha Hn Hc' Hw)
    as (vx & vy & vz & Hpos & Hv & _).
  destruct (center (config s)) as [[cx cy] cz]. rewrite Hpos.
  destruct Hc as (Hx & Hy & Hz). destruct Hv as (Vx & Vy & Vz).
  assert (Hone : forall c v,
    (Rabs c + amplitude (config s) + noise (config s) <= 999999)%R ->
    (- (amplitude (config s) + noise (config s) + 1 / 100000) <= v - c
     <= amplitude (config s) + noise (config s) + 1 / 100000)%R ->
    fits 6 (int_of_float v)).
  { intros c v Hcb Hvc.
    apply (fits_of_bound _ (Rabs v)); [apply int_of_float_abs|].
    replace v with (c + (v - c))%R by ring.
    eapply Rle_lt_trans; [apply Rabs_triang|].
    assert (Rabs (v - c)
            <= amplitude (config s) + noise (config s) + 1 / 100000)%R
      by (apply Rabs_le; lra).
    lra. }
  unfold position_fits.
  split; [apply (Hone cx); assumption|].
  split; [apply (Hone cy) | apply (Hone cz)]; assumption.
Qed.

(** X11. A simulator whose targets all stay within the field with room for
    rounding (no spiral; center, amplitude and noise adding up to at most
    999999 on every axis) only sends frames the reader reads exactly: in any
    arithmetic that rounds as binary64 does, without overflow and with
    random draws in [[0, 1]], at any time, every coordinate fits six digits,
    and the frame decodes to tokens that read back, in order, as the
    coordinates of the targets. *)
Theorem within_field_frames_exact (F : float_ops) (sim : SphereSimulator)
    (w : world) :
  binary64_like F ->
  Forall well_within_field (map config (spheres sim)) ->
  Forall (fun s => no_overflow s w) (spheres sim) ->
  unit_draws w ->
  let positions := fst (binary64.get_all_positions F sim w) in
  Forall (position_fits 6) positions
  /\ fst (binary64.generate_tx_response F sim w) = tx_response_of positions
  /\ option_map (map read_token)
       (TX0008_pos_str_to_list (fst (binary64.generate_tx_response F sim w))
          NUM_DIGIT)
     = Some (flatten_positions positions).
Proof.
  intros HF Hall _ Hw positions. subst positions.
  assert (Hfit : Forall (position_fits 6)
                   (fst (binary64.get_all_positions F sim w))).
  { unfold binary64.get_all_positions.
    pose proof (mapM_each_inv (binary64.get_position F) unit_draws
                  (rounded_position_unit_draws F) (spheres sim) w Hw) as H2.
    apply List.Forall_map in Hall.
    induction H2 as [|s p ss ps (w' & Hw' & ->) _ IH]; [constructor|].
    inversion Hall as [|? ? Hs Hrest]; subst.
    constructor; [apply well_within_field_position_fits; assumption
                 | apply IH; exact Hrest]. }
  split; [exact Hfit|].
  unfold binary64.generate_tx_response, bind.
  destruct (binary64.get_all_positions F sim w) as [positions w'].
  cbn [fst ret] in *.
  split; [reflexivity|].
  rewrite decode_tx_response_of. cbn [option_map]. f_equal.
  apply flatten_positions_fit in Hfit. revert Hfit.
  generalize (flatten_positions positions). intros vals Hfit.
  induction Hfit as [|v rest Hv _ IH]; [reflexivity|].
  cbn [map]. rewrite IH. f_equal.
  destruct (decoded_token_reads v Hv) as (_ & _ & Hread). exact Hread.
Qed.

Lemma within_field_frames_exact_witness :
  let sim := {| spheres := [{| config := example_target 0 0 0;
                               start_time := 0%R |}] |} in
  let w := constant_world 1 (1 / 2) in
  let positions := fst (binary64.get_all_positions exact_ops sim w) in
  Forall (position_fits 6) positions
  /\ fst (binary64.generate_tx_response exact_ops sim w)
     = tx_response_of positions
  /\ option_map (map read_token)
       (TX0008_pos_str_to_list
          (fst (binary64.generate_tx_response exact_ops sim w)) NUM_DIGIT)
     = Some (flatten_positions positions).
Proof.
  intros sim w.
  apply (within_field_frames_exact exact_ops sim w).
  - exact exact_ops_binary64_like.
  - constructor; [|constructor].
    split; [discriminate|]. simpl.
    unfold Rabs. repeat destruct Rcase_abs; lra.
  - constructor; [|constructor].
    repeat split; try intros k; apply ten_le_big; simpl;
      unfold Rabs; destruct Rcase_abs; lra.
  - apply constant_world_unit_draws. lra.
Defined.
